(** * DataTransformer: grids, records and the transforms between them

    A shallow embedding of [lib/transformers/DataTransformer.js], the class
    that turns message payloads into the 2D arrays the Sheets API takes
    ([transform]) and turns the 2D arrays it returns back into payloads
    ([transformGetResponse], [transformCellResponse]).

    The development has two embeddings of the same source:
    - [Pure]: JavaScript values as trees.  It gives the input/output
      behaviour of every method and is what the functional properties are
      stated on.
    - [Heap]: JavaScript values as primitives and references into a store of
      arrays and records.  It keeps object identity and in-place mutation
      ([push], [unshift], [shift]) and is what the aliasing and frame
      properties are stated on.

    Numbers are integers ([Z]); property keys, labels and cell texts are
    [string]s.  Functions, symbols, prototypes and sparse arrays are outside
    both embeddings. *)

From Stdlib Require Import ZArith Ascii.
From stdpp Require Import strings list pretty.

Open Scope string_scope.
Open Scope list_scope.

(** ** Primitive values *)

Inductive prim : Type :=
| PUndef
| PNull
| PBool (b : bool)
| PNum (n : Z)
| PStr (s : string).

Definition prim_eqb (p q : prim) : bool :=
  match p, q with
  | PUndef, PUndef => true
  | PNull, PNull => true
  | PBool a, PBool b => Bool.eqb a b
  | PNum a, PNum b => Z.eqb a b
  | PStr a, PStr b => String.eqb a b
  | _, _ => false
  end.

(** [ToString] on a primitive, as used when a value becomes a property key. *)
Definition prim_to_string (p : prim) : string :=
  match p with
  | PUndef => "undefined"
  | PNull => "null"
  | PBool true => "true"
  | PBool false => "false"
  | PNum n => pretty n
  | PStr s => s
  end.

(** Errors a method can throw.  [UnsupportedFormat] is
    [new Error('Unsupported data format')]; [TypeError] is the engine's own
    error on a property access or call on [null]/[undefined]. *)
Inductive error : Type :=
| UnsupportedFormat
| TypeError.

Inductive result (A : Type) : Type :=
| Ok (a : A)
| Err (e : error).
Arguments Ok {A} a.
Arguments Err {A} e.

Definition bind {A B : Type} (r : result A) (f : A -> result B) : result B :=
  match r with
  | Ok a => f a
  | Err e => Err e
  end.

(** The single characters of a string, each as a string of its own. *)
Fixpoint chars (s : string) : list string :=
  match s with
  | EmptyString => []
  | String c s' => String c EmptyString :: chars s'
  end.

(** The keys [for...in] gives for an array or a string of length [n]:
    "0", "1", ..., in ascending order. *)
Definition index_key (i : nat) : string := pretty i.

(** ** Property lists

    The own enumerable properties of an object, in the order [for...in]
    visits them.  [V] is the type of values. *)

Definition digit_of (c : ascii) : option N :=
  let n := N_of_ascii c in
  if (48 <=? n)%N && (n <=? 57)%N then Some (n - 48)%N else None.

Fixpoint parse_digits (s : string) (acc : N) : option N :=
  match s with
  | EmptyString => Some acc
  | String c s' =>
      match digit_of c with
      | Some d => parse_digits s' (10 * acc + d)%N
      | None => None
      end
  end.

(** A key is an array index when it is the canonical decimal form of an
    integer below 2^32 - 1.  Such keys come first, in ascending order, when
    the properties of an object are enumerated; the other keys follow in the
    order they were created. *)
Definition array_index (k : string) : option N :=
  match k with
  | EmptyString => None
  | _ =>
      match parse_digits k 0 with
      | Some n =>
          if String.eqb (pretty n) k && (n <? 4294967295)%N then Some n else None
      | None => None
      end
  end.

(** [props[key]]; [None] when there is no such property. *)
Fixpoint prop_lookup {V : Type} (props : list (string * V)) (key : string) : option V :=
  match props with
  | [] => None
  | (k, v) :: rest => if String.eqb k key then Some v else prop_lookup rest key
  end.

Fixpoint set_named {V : Type} (k : string) (v : V) (props : list (string * V))
    : list (string * V) :=
  match props with
  | [] => [(k, v)]
  | (k', v') :: rest =>
      if String.eqb k' k then (k, v) :: rest else (k', v') :: set_named k v rest
  end.

Fixpoint set_indexed {V : Type} (n : N) (k : string) (v : V) (props : list (string * V))
    : list (string * V) :=
  match props with
  | [] => [(k, v)]
  | (k', v') :: rest =>
      match array_index k' with
      | Some m =>
          if (n =? m)%N then (k, v) :: rest
          else if (n <? m)%N then (k, v) :: props
          else (k', v') :: set_indexed n k v rest
      | None => (k, v) :: props
      end
  end.

(** [objet[k] = v] on the property list of [objet]. *)
Definition obj_set {V : Type} (props : list (string * V)) (k : string) (v : V)
    : list (string * V) :=
  match array_index k with
  | Some n => set_indexed n k v props
  | None => set_named k v props
  end.

(** ** The node configuration

    [fields], [method] and [direction] are strings when set; [selfields] is
    an array of field names when set; [line] and [column] are the two header
    check boxes. *)
Record config : Type := mkConfig {
  fields : option string;
  selfields : option (list string);
  method : option string;
  line : bool;
  column : bool;
  direction : option string
}.

(** [o === s] for an optional string property *)
Definition is_string (o : option string) (s : string) : bool :=
  match o with
  | Some t => String.eqb t s
  | None => false
  end.

(** [(config.selfields && config.selfields[0]) ? Array.from(config.selfields)
    : undefined] *)
Definition selected_fields (cfg : config) : option (list string) :=
  match selfields cfg with
  | Some (f :: fs) => if String.eqb f "" then None else Some (f :: fs)
  | _ => None
  end.

(** [prefix ? `${prefix}.${key}` : key] *)
Definition full_key (prefix key : string) : string :=
  if String.eqb prefix "" then key else prefix +:+ "." +:+ key.

Module Pure.

(** ** Values as trees

    An object is the list of its own enumerable properties in the order
    [for...in] visits them; its keys are pairwise different. *)
#[warnings="-register-all"] Inductive value : Type :=
| Prim (p : prim)
| Arr (elems : list value)
| Obj (props : list (string * value)).

Definition undef : value := Prim PUndef.
Definition str (s : string) : value := Prim (PStr s).
Definition num (n : Z) : value := Prim (PNum n).

(** [typeof v === 'object'] *)
Definition typeof_object (v : value) : bool :=
  match v with
  | Prim PNull => true
  | Prim _ => false
  | Arr _ | Obj _ => true
  end.

(** [Array.isArray(v)] *)
Definition isArray (v : value) : bool :=
  match v with
  | Arr _ => true
  | _ => false
  end.

Definition is_undefined (v : value) : bool :=
  match v with
  | Prim PUndef => true
  | _ => false
  end.

(** [v === null || v === undefined] *)
Definition prim_null_or_undef (v : value) : bool :=
  match v with
  | Prim PUndef | Prim PNull => true
  | _ => false
  end.

(** Truthiness of a value in a condition. *)
Definition truthy (v : value) : bool :=
  match v with
  | Prim PUndef | Prim PNull => false
  | Prim (PBool b) => b
  | Prim (PNum n) => negb (Z.eqb n 0)
  | Prim (PStr s) => negb (String.eqb s "")
  | Arr _ | Obj _ => true
  end.

(** [props[key]] on the property list of an object. *)
Definition get_prop (props : list (string * value)) (key : string) : value :=
  default undef (prop_lookup props key).

(** [v.length]; [None] is the TypeError of reading a property of [null] or
    [undefined]. *)
Definition get_length (v : value) : option value :=
  match v with
  | Prim PUndef | Prim PNull => None
  | Prim (PStr s) => Some (num (Z.of_nat (String.length s)))
  | Prim _ => Some undef
  | Arr elems => Some (num (Z.of_nat (length elems)))
  | Obj props => Some (get_prop props "length")
  end.

(** [v.length === undefined], where [v] is known not to be [null] or
    [undefined] *)
Definition length_undefined (v : value) : bool :=
  match get_length v with
  | Some l => is_undefined l
  | None => false
  end.

(** ** extractObjectValues *)

Record extracted : Type := mkExtracted {
  keys : list string;
  values : list value
}.

(** [keys.push(fullKey); values.push(v)] *)
Definition push_leaf (acc : extracted) (fullKey : string) (v : value) : extracted :=
  {| keys := keys acc ++ [fullKey]; values := values acc ++ [v] |}.

(** The test that sends [extract] into a nested value:
    [typeof v === 'object' && v && v.length === undefined]. *)
Definition is_nested (v : value) : bool :=
  typeof_object v && truthy v && length_undefined v.

(** The closure [extract(current, prefix)], with the two arrays it pushes to
    as an accumulator.  [for (const key in current)] visits the properties of
    an object, the indices of an array and the indices of a string, and
    nothing on other primitives. *)
Fixpoint extract (current : value) (prefix : string) (acc : extracted)
  {struct current} : extracted :=
  match current with
  | Obj props =>
      (fix each (ps : list (string * value)) (acc : extracted) : extracted :=
         match ps with
         | [] => acc
         | (key, v) :: ps' =>
             let fullKey := full_key prefix key in
             each ps' (if is_nested v then extract v fullKey acc
                       else push_leaf acc fullKey v)
         end) props acc
  | Arr elems =>
      (fix each (i : nat) (es : list value) (acc : extracted) : extracted :=
         match es with
         | [] => acc
         | v :: es' =>
             let fullKey := full_key prefix (index_key i) in
             each (S i) es' (if is_nested v then extract v fullKey acc
                             else push_leaf acc fullKey v)
         end) 0%nat elems acc
  | Prim (PStr s) =>
      (fix each (i : nat) (cs : list string) (acc : extracted) : extracted :=
         match cs with
         | [] => acc
         | c :: cs' =>
             each (S i) cs' (push_leaf acc (full_key prefix (index_key i)) (str c))
         end) 0%nat (chars s) acc
  | Prim _ => acc
  end.

Definition extractObjectValues (obj : value) : extracted :=
  extract obj "" {| keys := []; values := [] |}.

(** The (key, value) pairs [for (const key in current)] goes through,
    [current[key]] being the value. *)
Definition entries_of (current : value) : list (string * value) :=
  match current with
  | Obj props => props
  | Arr elems => imap (fun i v => (index_key i, v)) elems
  | Prim (PStr s) => imap (fun i c => (index_key i, str c)) (chars s)
  | Prim _ => []
  end.

(** ** transform and its helpers *)

(** A 2D array as a value. *)
Definition grid_of (rows : list (list value)) : value := Arr (map Arr rows).

(** [keys.indexOf(field)]; [None] is -1. *)
Fixpoint indexOf (field : string) (ks : list string) : option nat :=
  match ks with
  | [] => None
  | k :: ks' =>
      if String.eqb k field then Some 0%nat
      else option_map S (indexOf field ks')
  end.

(** The row of the selected fields:
    [for (const field of fields) { const i = extracted.keys.indexOf(field);
    if (i > -1) row.push(extracted.values[i]); }] *)
Definition select_fields (e : extracted) (fs : list string) : list value :=
  fold_left
    (fun row field =>
       match indexOf field (keys e) with
       | Some i => row ++ [nth i (values e) undef]
       | None => row
       end)
    fs [].

Definition transformArrayOfObjects (rows : list value) (cfg : config)
    (fs : option (list string)) : list (list value) :=
  if is_string (fields cfg) "all" then
    let values := map (fun obj => values (extractObjectValues obj)) rows in
    if is_string (method cfg) "new" && line cfg then
      map str (keys (extractObjectValues (nth 0 rows undef))) :: values
    else values
  else
    match fs with
    | Some fs =>
        let values := map (fun obj => select_fields (extractObjectValues obj) fs) rows in
        if is_string (method cfg) "new" && line cfg then map str fs :: values
        else values
    | None => []
    end.

(** [values[i].unshift(x)]; the call on a missing row is a TypeError. *)
Definition unshift_row (values : list (list value)) (i : nat) (x : value)
    : result (list (list value)) :=
  match values !! i with
  | Some row => Ok (<[i := x :: row]> values)
  | None => Err TypeError
  end.

(** [for (let i = 0; i < labels.length; i++) values[i + off].unshift(labels[i])],
    with [i + off] as the running index [at]. *)
Fixpoint label_rows (values : list (list value)) (at_ : nat) (labels : list string)
    : result (list (list value)) :=
  match labels with
  | [] => Ok values
  | l :: ls =>
      bind (unshift_row values at_ (str l)) (fun vs => label_rows vs (S at_) ls)
  end.

Definition addColumnLabels (values : list (list value)) (labels : list string)
    (hasLineHeaders : bool) : result (list (list value)) :=
  if hasLineHeaders then
    bind (unshift_row values 0 (str "Elements")) (fun vs => label_rows vs 1 labels)
  else label_rows values 0 labels.

(** [data[labels[0]]]: with no label the key is the string "undefined". *)
Definition first_entry (data : value) (labels : list string) : value :=
  get_prop (entries_of data) (hd "undefined" labels).

Definition transformObjectOfObjects (data : value) (cfg : config)
    (fs : option (list string)) : result (list (list value)) :=
  let labels := map fst (entries_of data) in
  if is_string (fields cfg) "all" then
    let values := map (fun kv => values (extractObjectValues (snd kv))) (entries_of data) in
    if is_string (method cfg) "new" then
      let values :=
        if line cfg then map str (keys (extractObjectValues (first_entry data labels))) :: values
        else values in
      if column cfg then addColumnLabels values labels (line cfg) else Ok values
    else Ok values
  else
    match fs with
    | Some fs =>
        let values :=
          map (fun kv => select_fields (extractObjectValues (snd kv)) fs) (entries_of data) in
        if is_string (method cfg) "new" then
          let values := if line cfg then map str fs :: values else values in
          if column cfg then addColumnLabels values labels (line cfg) else Ok values
        else Ok values
    | None => Ok []
    end.

(** The elements of an array ([[]] for any other value). *)
Definition elems_of (v : value) : list value :=
  match v with
  | Arr es => es
  | _ => []
  end.

Definition transform (data : value) (cfg : config) : result value :=
  let fs := selected_fields cfg in
  (* primitive values: wrap in a 2D array *)
  if negb (prim_null_or_undef data) && negb (typeof_object data) then
    Ok (Arr [Arr [data]])
  (* array of arrays: pass through *)
  else if isArray data && (0 <? length (elems_of data))%nat
          && isArray (nth 0 (elems_of data) undef) then
    Ok data
  (* single-value array *)
  else if isArray data && (length (elems_of data) =? 1)%nat
          && negb (typeof_object (nth 0 (elems_of data) undef)) then
    Ok (Arr [Arr [nth 0 (elems_of data) undef]])
  (* array of objects *)
  else if isArray data && (0 <? length (elems_of data))%nat then
    Ok (grid_of (transformArrayOfObjects (elems_of data) cfg fs))
  (* object of objects *)
  else if typeof_object data then
    match get_length data with
    | None => Err TypeError
    | Some l =>
        if is_undefined l then
          bind (transformObjectOfObjects data cfg fs) (fun vs => Ok (grid_of vs))
        else Err UnsupportedFormat
    end
  else Err UnsupportedFormat.

(** ** Building objects: property keys and their order *)

(** [ToString(v)], which is how a cell becomes a property key.  An array
    joins its elements with a comma, [null] and [undefined] elements as the
    empty string. *)
Fixpoint to_string (v : value) : string :=
  match v with
  | Prim p => prim_to_string p
  | Arr elems =>
      String.concat ","
        (map (fun e => if prim_null_or_undef e then "" else to_string e) elems)
  | Obj _ => "[object Object]"
  end.

(** ** transformGetResponse and its helpers

    The response is a 2D array ([Array<Array>]): a list of rows, each a list
    of cells. *)

(** [Array.from(row)] for every row.  Which arrays are new is the business
    of the [Heap] embedding; as a value the copy is the grid itself. *)
Definition copyValuesArray (values : list (list value)) : list (list value) :=
  map (fun row => row) values.

(** [for (let i = 0; i < obj.length; i++) newl[line_labels[i]] = obj[i]],
    from index [i] on, [obj] being what is left of the row. *)
Fixpoint zip_labels (line_labels : list value) (i : nat) (obj : list value)
    (newl : list (string * value)) : list (string * value) :=
  match obj with
  | [] => newl
  | cell :: obj' =>
      zip_labels line_labels (S i) obj'
        (obj_set newl (to_string (nth i line_labels undef)) cell)
  end.

Definition _transformWithBothHeaders (response : list (list value)) : result value :=
  match response with
  | [] => Err TypeError   (* response.shift() is undefined *)
  | first :: response =>
      let line_labels := tl first in
      Ok (Obj (fold_left
                 (fun objet obj =>
                    let item := hd undef obj in
                    let newl := zip_labels line_labels 0 (tl obj) [] in
                    obj_set objet (to_string item) (Obj newl))
                 response []))
  end.

Definition _transformWithSingleHeader (response : list (list value)) : value :=
  Obj (fold_left
         (fun objet obj => obj_set objet (to_string (hd undef obj)) (Arr (tl obj)))
         response []).

Definition _transformToObjectArray (response : list (list value)) : value :=
  match response with
  | [] => Arr []
  | line_labels :: response =>
      Arr (map (fun obj => Obj (zip_labels line_labels 0 obj [])) response)
  end.

(** [majorDimension === s]: the argument is whatever the caller passes, a
    string from the API or [false] on a cache hit. *)
Definition is_str (v : value) (s : string) : bool :=
  match v with
  | Prim (PStr t) => String.eqb t s
  | _ => false
  end.

Definition transformGetResponse (values : list (list value)) (cfg : config)
    (majorDimension : value) : result value :=
  let response := copyValuesArray values in
  if negb (line cfg) && negb (column cfg) then
    match response with
    | [[cell]] => Ok cell
    | _ => Ok (grid_of response)
    end
  else if line cfg && column cfg then _transformWithBothHeaders response
  else if (column cfg && (is_str majorDimension "COLUMNS" || is_string (direction cfg) "column"))
          || (line cfg && (is_str majorDimension "ROWS" || is_string (direction cfg) "line"))
  then Ok (_transformWithSingleHeader response)
  else Ok (_transformToObjectArray response).

(** ** transformCellResponse

    [values] is a 2D array and the two labels are strings, as the JSDoc has
    them. *)





End Pure.

Module Heap.

(** ** Values as references into a store

    Arrays and records live in the store; a value is a primitive or the
    location of one of them.  A location is an index into the store and a
    new object goes at the end, so an object allocated during a call has a
    location at or above the length the store had when the call began. *)
Abbreviation loc := nat.

Inductive value : Type :=
| Prim (p : prim)
| Ref (l : loc).

Inductive object : Type :=
| OArr (elems : list value)
| ORec (props : list (string * value)).

Abbreviation heap := (list object).

Definition undef : value := Prim PUndef.
Definition str (s : string) : value := Prim (PStr s).
Definition num (n : Z) : value := Prim (PNum n).

(** How a call ends.  [OutOfFuel]: the recursion of [extract] went deeper
    than the fuel given.  [Unmodelled]: a reference to no object, or an
    operation whose JavaScript meaning is outside the embedding (the text of
    an array of objects used as a property key, a loop bound that is not a
    number). *)
Inductive outcome (A : Type) : Type :=
| Ret (a : A)
| Throw (e : error)
| OutOfFuel
| Unmodelled.
Arguments Ret {A} a.
Arguments Throw {A} e.
Arguments OutOfFuel {A}.
Arguments Unmodelled {A}.

(** Computations on the store. *)
Definition M (A : Type) : Type := heap -> heap * outcome A.

Definition ret {A : Type} (a : A) : M A := fun h => (h, Ret a).
Definition throw {A : Type} (e : error) : M A := fun h => (h, Throw e).
Definition unmodelled {A : Type} : M A := fun h => (h, Unmodelled).
Definition out_of_fuel {A : Type} : M A := fun h => (h, OutOfFuel).

Definition bind {A B : Type} (m : M A) (k : A -> M B) : M B :=
  fun h =>
    match m h with
    | (h', Ret a) => k a h'
    | (h', Throw e) => (h', Throw e)
    | (h', OutOfFuel) => (h', OutOfFuel)
    | (h', Unmodelled) => (h', Unmodelled)
    end.

Notation "'let*' x ':=' m 'in' k" := (bind m (fun x => k))
  (at level 10, x name, m at level 100, k at level 200).
Notation "'do' m 'then' k" := (bind m (fun _ => k))
  (at level 10, m at level 100, k at level 200).

(** [for (const x of xs) body(x)] over the elements read when the loop
    starts.  No loop of the class writes to the array it runs over. *)
Fixpoint for_each {A : Type} (xs : list A) (body : A -> M unit) : M unit :=
  match xs with
  | [] => ret tt
  | x :: xs' => do body x then for_each xs' body
  end.

(** *** The store *)

Definition alloc (o : object) : M value :=
  fun h => (h ++ [o], Ret (Ref (length h))).

Definition deref (l : loc) : M object :=
  fun h =>
    match h !! l with
    | Some o => (h, Ret o)
    | None => (h, Unmodelled)
    end.

Definition store (l : loc) (o : object) : M unit :=
  fun h => if (l <? length h)%nat then (<[l := o]> h, Ret tt) else (h, Unmodelled).

(** *** Tests and reads *)

(** [typeof v === 'object'] *)
Definition typeof_object (v : value) : bool :=
  match v with
  | Prim PNull => true
  | Prim _ => false
  | Ref _ => true
  end.

(** [v === null || v === undefined] *)
Definition prim_null_or_undef (v : value) : bool :=
  match v with
  | Prim PUndef | Prim PNull => true
  | _ => false
  end.

Definition is_undefined (v : value) : bool :=
  match v with
  | Prim PUndef => true
  | _ => false
  end.

Definition truthy (v : value) : bool :=
  match v with
  | Prim PUndef | Prim PNull => false
  | Prim (PBool b) => b
  | Prim (PNum n) => negb (Z.eqb n 0)
  | Prim (PStr s) => negb (String.eqb s "")
  | Ref _ => true
  end.

(** [a === b]: primitives by value, objects by identity. *)
Definition strict_eq (a b : value) : bool :=
  match a, b with
  | Prim p, Prim q => prim_eqb p q
  | Ref l, Ref l' => Nat.eqb l l'
  | _, _ => false
  end.

(** [Array.isArray(v)] *)
Definition isArray (v : value) : M bool :=
  match v with
  | Prim _ => ret false
  | Ref l =>
      let* o := deref l in
      ret match o with OArr _ => true | ORec _ => false end
  end.

(** [v.length] *)
Definition get_length (v : value) : M value :=
  match v with
  | Prim PUndef | Prim PNull => throw TypeError
  | Prim (PStr s) => ret (num (Z.of_nat (String.length s)))
  | Prim _ => ret undef
  | Ref l =>
      let* o := deref l in
      ret match o with
          | OArr elems => num (Z.of_nat (length elems))
          | ORec props => default undef (prop_lookup props "length")
          end
  end.

(** [v[i]] for a number [i] *)
Definition get_index (v : value) (i : nat) : M value :=
  match v with
  | Prim PUndef | Prim PNull => throw TypeError
  | Prim (PStr s) => ret (default undef (str <$> chars s !! i))
  | Prim _ => ret undef
  | Ref l =>
      let* o := deref l in
      ret match o with
          | OArr elems => default undef (elems !! i)
          | ORec props => default undef (prop_lookup props (index_key i))
          end
  end.

(** [v[key]] for a string [key] *)
Definition get (v : value) (key : string) : M value :=
  match v with
  | Prim PUndef | Prim PNull => throw TypeError
  | Prim (PStr s) =>
      ret match array_index key with
          | Some n => default undef (str <$> chars s !! N.to_nat n)
          | None =>
              if String.eqb key "length" then num (Z.of_nat (String.length s)) else undef
          end
  | Prim _ => ret undef
  | Ref l =>
      let* o := deref l in
      ret match o with
          | OArr elems =>
              match array_index key with
              | Some n => default undef (elems !! N.to_nat n)
              | None =>
                  if String.eqb key "length" then num (Z.of_nat (length elems)) else undef
              end
          | ORec props => default undef (prop_lookup props key)
          end
  end.

(** The keys of [for (const key in v)] *)
Definition for_in_keys (v : value) : M (list string) :=
  match v with
  | Prim (PStr s) => ret (map index_key (seq 0 (String.length s)))
  | Prim _ => ret []
  | Ref l =>
      let* o := deref l in
      ret match o with
          | OArr elems => map index_key (seq 0 (length elems))
          | ORec props => map fst props
          end
  end.

(** The elements of [for (const x of v)]; a value that is not iterable is a
    TypeError. *)
Definition elements (v : value) : M (list value) :=
  match v with
  | Prim (PStr s) => ret (map str (chars s))
  | Prim _ => throw TypeError
  | Ref l =>
      let* o := deref l in
      match o with
      | OArr elems => ret elems
      | ORec _ => throw TypeError
      end
  end.

(** *** Writes

    [push], [unshift] and [shift] change the array in place.  On a value
    that is not an array there is no such method to call: a TypeError. *)

Definition push (a x : value) : M unit :=
  match a with
  | Prim _ => throw TypeError
  | Ref l =>
      let* o := deref l in
      match o with
      | OArr elems => store l (OArr (elems ++ [x]))
      | ORec _ => throw TypeError
      end
  end.

Definition unshift (a x : value) : M unit :=
  match a with
  | Prim _ => throw TypeError
  | Ref l =>
      let* o := deref l in
      match o with
      | OArr elems => store l (OArr (x :: elems))
      | ORec _ => throw TypeError
      end
  end.

Definition shift (a : value) : M value :=
  match a with
  | Prim _ => throw TypeError
  | Ref l =>
      let* o := deref l in
      match o with
      | OArr [] => ret undef
      | OArr (x :: elems) => do store l (OArr elems) then ret x
      | ORec _ => throw TypeError
      end
  end.

(** The text of an array element inside [Array.prototype.join]. *)
Definition joined_part (e : value) : option string :=
  match e with
  | Prim PUndef | Prim PNull => Some ""
  | Prim p => Some (prim_to_string p)
  | Ref _ => None
  end.

(** [ToString(v)] for a property key.  An array of primitives is joined
    with commas; an array holding objects is outside the embedding. *)
Definition to_key (v : value) : M string :=
  match v with
  | Prim p => ret (prim_to_string p)
  | Ref l =>
      let* o := deref l in
      match o with
      | ORec _ => ret "[object Object]"
      | OArr elems =>
          match mapM joined_part elems with
          | Some parts => ret (String.concat "," parts)
          | None => unmodelled
          end
      end
  end.

(** [o[key] = x] on a record.  The class only assigns properties of records
    it has created itself. *)
Definition set_prop (o key x : value) : M unit :=
  let* k := to_key key in
  match o with
  | Prim _ => unmodelled
  | Ref l =>
      let* ob := deref l in
      match ob with
      | ORec props => store l (ORec (obj_set props k x))
      | OArr _ => unmodelled
      end
  end.

(** ** extractObjectValues *)

(** [typeof v === 'object' && v && v.length === undefined] *)
Definition is_nested (v : value) : M bool :=
  if typeof_object v && truthy v then
    let* len := get_length v in ret (is_undefined len)
  else ret false.

(** The closure [extract(current, prefix)]; [keys] and [values] are the two
    arrays of the enclosing call. *)
Fixpoint extract (fuel : nat) (keys values current : value) (prefix : string)
    : M unit :=
  match fuel with
  | O => out_of_fuel
  | S fuel' =>
      let* ks := for_in_keys current in
      for_each ks (fun key =>
        let fullKey := full_key prefix key in
        let* v := get current key in
        let* nested := is_nested v in
        if nested then extract fuel' keys values v fullKey
        else do push keys (str fullKey) then push values v)
  end.

(** The result [{ keys, values }] as the pair of its two arrays. *)
Definition extractObjectValues (fuel : nat) (obj : value) : M (value * value) :=
  let* keys := alloc (OArr []) in
  let* values := alloc (OArr []) in
  do extract fuel keys values obj "" then
  ret (keys, values).

(** ** transform and its helpers *)

(** [keys.indexOf(field)]; [None] is -1. *)
Fixpoint indexOf (field : value) (ks : list value) : option nat :=
  match ks with
  | [] => None
  | k :: ks' =>
      if strict_eq k field then Some 0%nat else option_map S (indexOf field ks')
  end.

(** [const row = []; for (const field of fields) { const i =
    extracted.keys.indexOf(field); if (i > -1) row.push(extracted.values[i]); }] *)
Definition select_fields (extracted : value * value) (fields : value) : M value :=
  let* row := alloc (OArr []) in
  let* fs := elements fields in
  do for_each fs (fun field =>
       let* ks := elements (fst extracted) in
       match indexOf field ks with
       | Some i => let* v := get_index (snd extracted) i in push row v
       | None => ret tt
       end) then
  ret row.

Definition transformArrayOfObjects (fuel : nat) (rows : value) (cfg : config)
    (fs : option value) : M value :=
  let* values := alloc (OArr []) in
  if is_string (fields cfg) "all" then
    let* objs := elements rows in
    do for_each objs (fun obj =>
         let* extracted := extractObjectValues fuel obj in
         push values (snd extracted)) then
    do (if is_string (method cfg) "new" && line cfg then
          let* first := get_index rows 0 in
          let* firstObj := extractObjectValues fuel first in
          unshift values (fst firstObj)
        else ret tt) then
    ret values
  else
    match fs with
    | Some fs =>
        let* objs := elements rows in
        do for_each objs (fun obj =>
             let* extracted := extractObjectValues fuel obj in
             let* row := select_fields extracted fs in
             push values row) then
        do (if is_string (method cfg) "new" && line cfg then unshift values fs
            else ret tt) then
        ret values
    | None => ret values
    end.

(** [for (let i = 0; i < labels.length; i++) values[i + off].unshift(labels[i])] *)
Definition label_rows (values : value) (off : nat) (labels : list value) : M unit :=
  for_each (imap (fun i l => (i, l)) labels) (fun il =>
    let* row := get_index values (fst il + off) in
    unshift row (snd il)).

Definition addColumnLabels (values labels : value) (hasLineHeaders : bool) : M unit :=
  if hasLineHeaders then
    let* first := get_index values 0 in
    do unshift first (str "Elements") then
    let* ls := elements labels in
    label_rows values 1 ls
  else
    let* ls := elements labels in
    label_rows values 0 ls.

Definition transformObjectOfObjects (fuel : nat) (data : value) (cfg : config)
    (fs : option value) : M value :=
  let* values := alloc (OArr []) in
  let* labels := alloc (OArr []) in
  if is_string (fields cfg) "all" then
    let* ks := for_in_keys data in
    do for_each ks (fun key =>
         let* entry := get data key in
         let* extracted := extractObjectValues fuel entry in
         do push values (snd extracted) then
         push labels (str key)) then
    do (if is_string (method cfg) "new" then
          do (if line cfg then
                let* l0 := get_index labels 0 in
                let* k0 := to_key l0 in
                let* entry := get data k0 in
                let* firstExtracted := extractObjectValues fuel entry in
                unshift values (fst firstExtracted)
              else ret tt) then
          if column cfg then addColumnLabels values labels (line cfg) else ret tt
        else ret tt) then
    ret values
  else
    match fs with
    | Some fs =>
        let* ks := for_in_keys data in
        do for_each ks (fun key =>
             let* entry := get data key in
             let* extracted := extractObjectValues fuel entry in
             let* row := select_fields extracted fs in
             do push values row then
             push labels (str key)) then
        do (if is_string (method cfg) "new" then
              do (if line cfg then unshift values fs else ret tt) then
              if column cfg then addColumnLabels values labels (line cfg) else ret tt
            else ret tt) then
        ret values
    | None => ret values
    end.

(** [v === n] for a number [n] *)
Definition is_num (v : value) (n : Z) : bool := strict_eq v (num n).

(** [0 < v] for a length [v] that is a number *)
Definition positive_length (v : value) : bool :=
  match v with
  | Prim (PNum n) => (0 <? n)%Z
  | _ => false
  end.

Definition transform (fuel : nat) (data : value) (cfg : config) : M value :=
  let* fs :=
    match selected_fields cfg with
    | Some fs => let* a := alloc (OArr (map str fs)) in ret (Some a)
    | None => ret None
    end in
  (* primitive values: wrap in a 2D array *)
  if negb (prim_null_or_undef data) && negb (typeof_object data) then
    let* inner := alloc (OArr [data]) in
    alloc (OArr [inner])
  else
    let* isArr := isArray data in
    let* len := (if isArr then get_length data else ret undef) in
    let* first := (if isArr then get_index data 0 else ret undef) in
    let* firstIsArr := (if isArr then isArray first else ret false) in
    (* array of arrays: pass through *)
    if isArr && positive_length len && firstIsArr then ret data
    (* single-value array *)
    else if isArr && is_num len 1 && negb (typeof_object first) then
      let* inner := alloc (OArr [first]) in
      alloc (OArr [inner])
    (* array of objects *)
    else if isArr && positive_length len then transformArrayOfObjects fuel data cfg fs
    (* object of objects *)
    else if typeof_object data then
      let* len := get_length data in
      if is_undefined len then transformObjectOfObjects fuel data cfg fs
      else throw UnsupportedFormat
    else throw UnsupportedFormat.

(** ** transformGetResponse and its helpers *)

Definition copyValuesArray (values : value) : M value :=
  let* result := alloc (OArr []) in
  let* rows := elements values in
  do for_each rows (fun row =>
       let* isArr := isArray row in
       if isArr then
         let* cells := elements row in
         let* copy := alloc (OArr cells) in
         push result copy
       else push result row) then
  ret result.

(** [for (let i = 0; i < obj.length; i++) newl[line_labels[i]] = obj[i]].
    The bound is read once: the body writes to [newl] only, which is a new
    record.  A bound that is neither a number nor undefined would be
    converted to a number, which is outside the embedding. *)
Definition zip_labels (line_labels obj newl : value) : M unit :=
  let* len := get_length obj in
  match len with
  | Prim (PNum n) =>
      for_each (seq 0 (Z.to_nat n)) (fun i =>
        let* label := get_index line_labels i in
        let* cell := get_index obj i in
        set_prop newl label cell)
  | Prim PUndef => ret tt
  | _ => unmodelled
  end.

Definition _transformWithBothHeaders (response : value) : M value :=
  let* objet := alloc (ORec []) in
  let* line_labels := shift response in
  do shift line_labels then
  let* rows := elements response in
  do for_each rows (fun obj =>
       let* newl := alloc (ORec []) in
       let* item := shift obj in
       do zip_labels line_labels obj newl then
       set_prop objet item newl) then
  ret objet.

Definition _transformWithSingleHeader (response : value) : M value :=
  let* objet := alloc (ORec []) in
  let* rows := elements response in
  do for_each rows (fun obj =>
       let* label := shift obj in
       set_prop objet label obj) then
  ret objet.

Definition _transformToObjectArray (response : value) : M value :=
  let* array := alloc (OArr []) in
  let* line_labels := shift response in
  let* rows := elements response in
  do for_each rows (fun obj =>
       let* newl := alloc (ORec []) in
       do zip_labels line_labels obj newl then
       push array newl) then
  ret array.

(** [majorDimension === s] *)
Definition is_str (v : value) (s : string) : bool := strict_eq v (str s).

Definition transformGetResponse (values : value) (cfg : config) (majorDimension : value)
    : M value :=
  let* response := copyValuesArray values in
  if negb (line cfg) && negb (column cfg) then
    let* len := get_length response in
    if is_num len 1 then
      let* first := get_index response 0 in
      let* len0 := get_length first in
      if is_num len0 1 then get_index first 0 else ret response
    else ret response
  else if line cfg && column cfg then _transformWithBothHeaders response
  else if (column cfg && (is_str majorDimension "COLUMNS" || is_string (direction cfg) "column"))
          || (line cfg && (is_str majorDimension "ROWS" || is_string (direction cfg) "line"))
  then _transformWithSingleHeader response
  else _transformToObjectArray response.

(** ** Between the two embeddings *)

(** The tree a value stands for in a store, read to depth [fuel]. *)
Fixpoint reify (fuel : nat) (h : heap) (v : value) : option Pure.value :=
  match v with
  | Prim p => Some (Pure.Prim p)
  | Ref l =>
      match fuel with
      | O => None
      | S fuel' =>
          match h !! l with
          | Some (OArr elems) => Pure.Arr <$> mapM (reify fuel' h) elems
          | Some (ORec props) =>
              Pure.Obj <$> mapM (fun kv => pair (fst kv) <$> reify fuel' h (snd kv)) props
          | None => None
          end
      end
  end.

(** A tree built in the store, every array and object of it a new one. *)
Fixpoint inject (v : Pure.value) : M value :=
  match v with
  | Pure.Prim p => ret (Prim p)
  | Pure.Arr elems =>
      let* es :=
        (fix all (vs : list Pure.value) : M (list value) :=
           match vs with
           | [] => ret []
           | v :: vs' =>
               let* x := inject v in
               let* xs := all vs' in
               ret (x :: xs)
           end) elems in
      alloc (OArr es)
  | Pure.Obj props =>
      let* ps :=
        (fix all (kvs : list (string * Pure.value)) : M (list (string * value)) :=
           match kvs with
           | [] => ret []
           | (k, v) :: kvs' =>
               let* x := inject v in
               let* xs := all kvs' in
               ret ((k, x) :: xs)
           end) props in
      alloc (ORec ps)
  end.

End Heap.

(** * What the properties are stated with *)

Module PureSpec.
Import Pure.

(** One turn of the [for...in] loop of [extract]. *)
Definition visit (prefix : string) (acc : extracted) (kv : string * value) : extracted :=
  let fullKey := full_key prefix (fst kv) in
  if is_nested (snd kv) then extract (snd kv) fullKey acc
  else push_leaf acc fullKey (snd kv).

(** The two arrays as [extractObjectValues] starts with them. *)
Definition empty : extracted := {| keys := []; values := [] |}.

(** What [b] holds, pushed after what [a] holds. *)
Definition append (a b : extracted) : extracted :=
  {| keys := keys a ++ keys b; values := values a ++ values b |}.

(** [row.unshift(label)] for a label and a row. *)
Definition labelled (l : string) (row : list value) : list value := str l :: row.

(** The rows of the entries, before any header or label. *)
Definition entry_rows (data : value) (cfg : config) (fs : option (list string))
    : option (list (list value)) :=
  if is_string (fields cfg) "all" then
    Some (map (fun kv => values (extractObjectValues (snd kv))) (entries_of data))
  else
    match fs with
    | Some fs =>
        Some (map (fun kv => select_fields (extractObjectValues (snd kv)) fs)
                (entries_of data))
    | None => None
    end.

(** The header row, before the corner label. *)
Definition header_names (data : value) (cfg : config) (fs : option (list string))
    : list value :=
  if is_string (fields cfg) "all" then
    map str (keys (extractObjectValues (first_entry data (map fst (entries_of data)))))
  else map str (default [] fs).

(** The grid of [entries] has a label in front of every data row: it is a
    header part followed by one row per entry, in order, each with its
    mapping key as element 0; with [line] set the header part is one row
    starting with the corner label, without it there is none. *)
Definition rows_carry_keys (entries : list (string * value)) (cfg : config) : Prop :=
  exists header body,
    transform (Obj entries) cfg = Ok (Arr (header ++ body))
    /\ Forall2 (fun kv row => exists cells, row = Arr (str (fst kv) :: cells))
         entries body
    /\ (if line cfg then exists names, header = [Arr (str "Elements" :: names)]
        else header = []).

(** *** Flat records *)

(** A record array whose records all have the fields [ks], in this order,
    record [i] holding the values [rows !! i]. *)
Definition records (ks : list string) (rows : list (list value)) : list value :=
  map (fun vs => Obj (zip ks vs)) rows.

(** The values of such a record: as many as there are fields, none of them
    a nested record. *)
Definition flat_row (ks : list string) (vs : list value) : Prop :=
  length vs = length ks /\ Forall (fun v => is_nested v = false) vs.

(** *** Sample data *)

(** [{user1: {name: "John", age: 30}}] *)
Definition user1 : list (string * value) :=
  [("user1", Obj [("name", str "John"); ("age", num 30)])].

(** [[{name:"John",age:30},{name:"Jane",age:25}]] *)
Definition john_jane : value :=
  Arr [Obj [("name", str "John"); ("age", num 30)];
       Obj [("name", str "Jane"); ("age", num 25)]].

(** [[["name","age"],["John",30],["Jane",25]]] *)
Definition john_jane_grid : list (list value) :=
  [[str "name"; str "age"]; [str "John"; num 30]; [str "Jane"; num 25]].

(** [{fields: "all", method: "new", line: true}] *)
Definition all_new_line : config := mkConfig (Some "all") None (Some "new") true false None.

(** [{line: true}] *)
Definition line_only : config := mkConfig None None None true false None.

(** [{}]: no header set *)
Definition no_headers : config := mkConfig None None None false false None.

(** *** The cases of a point lookup *)

Section PointLookup.
Variable values : list (list value).
Variables rowLabel columnLabel : string.









End PointLookup.


End PureSpec.

Module HeapSpec.
Import Heap.

(** *** The caller's store and what a call adds to it *)

(** [l] holds an array in [h]. *)
Definition is_arr (h : heap) (l : loc) : Prop := exists elems, h !! l = Some (OArr elems).

Section frame.
Variable h0 : heap.

(** A value that is not one of the arrays of the caller's store. *)
Definition no_caller_array (v : value) : Prop :=
  forall l elems, v = Ref l -> h0 !! l = Some (OArr elems) -> False.

(** A value that is not an object of the caller's store at all. *)
Definition fresh (v : value) : Prop := forall l, v = Ref l -> length h0 <= l.

(** Run from [h], a store that extends the caller's, [m] leaves the caller's
    store as it is however it ends, and [Q] holds when it returns. *)
Definition wp {A : Type} (m : M A) (Q : A -> heap -> Prop) (h : heap) : Prop :=
  h0 `prefix_of` h ->
  h0 `prefix_of` fst (m h) /\ forall a, snd (m h) = Ret a -> Q a (fst (m h)).

(** A computation that only reads the store. *)
Definition reads {A : Type} (m : M A) : Prop := forall h, fst (m h) = h.

(** A row of the copy at [c]: not an array of the caller's store, and not
    the copy itself. *)
Definition own_row (c : loc) (row : value) : Prop :=
  no_caller_array row /\ row <> Ref c.

(** [response] is an array made by the call, and all its rows are such. *)
Definition own_grid (response : value) (h : heap) : Prop :=
  exists c rows,
    response = Ref c /\ length h0 <= c /\ h !! c = Some (OArr rows)
    /\ Forall (own_row c) rows.

End frame.

(** The two arrays of an extraction are new, and they are arrays. *)
Definition new_pair (h : heap) (kv : value * value) (h' : heap) : Prop :=
  exists lk lv,
    kv = (Ref lk, Ref lv) /\ length h <= lk /\ length h <= lv
    /\ is_arr h' lk /\ is_arr h' lv.

(** A new array. *)
Definition new_array (h : heap) (v : value) (h' : heap) : Prop :=
  exists l, v = Ref l /\ length h <= l /\ is_arr h' l.

(** [row] is an array made since the call began, and not the outer array. *)
Definition new_row (h0 : heap) (lv : loc) (h : heap) (row : value) : Prop :=
  exists l, row = Ref l /\ length h0 <= l /\ l <> lv /\ is_arr h l.

(** The outer array at [lv] holds such rows only. *)
Definition rows_at (h0 : heap) (lv : loc) (h : heap) : Prop :=
  length h0 <= lv
  /\ exists rows, h !! lv = Some (OArr rows) /\ Forall (new_row h0 lv h) rows.

(** What the loops of the encoder keep true: the outer array holds new rows
    only, and the other arrays of the call ([aux]: the selected field names,
    the labels) are still there. *)
Definition building (h0 : heap) (lv : loc) (aux : list value) (h : heap) : Prop :=
  rows_at h0 lv h /\ Forall (new_row h0 lv h) aux.

(** The array of selected field names as [transform] hands it over. *)
Definition fields_given (h0 : heap) (h : heap) (fs : option value) : Prop :=
  match fs with
  | Some f => exists lf, f = Ref lf /\ length h0 <= lf /\ is_arr h lf
  | None => True
  end.

(** The result of the two builders: a new outer array of new rows. *)
Definition new_grid (h0 : heap) (r : value) (h : heap) : Prop :=
  exists lv, r = Ref lv /\ rows_at h0 lv h.

(** *** Sharing between the result and the input *)

(** The objects of the input value: those reached from it in the caller's
    store. *)
Inductive reachable (h : heap) : value -> loc -> Prop :=
| reach_self l o :
    h !! l = Some o -> reachable h (Ref l) l
| reach_elem l elems v l' :
    h !! l = Some (OArr elems) -> v ∈ elems -> reachable h v l' ->
    reachable h (Ref l) l'
| reach_prop l props k v l' :
    h !! l = Some (ORec props) -> (k, v) ∈ props -> reachable h v l' ->
    reachable h (Ref l) l'.

(** An array whose first element is an array. *)
Definition array_of_arrays (h : heap) (data : value) : Prop :=
  exists l lf rest, data = Ref l /\ h !! l = Some (OArr (Ref lf :: rest)) /\ is_arr h lf.

(** The outer array of the result [r], or one of its row arrays. *)
Definition outer_or_row (h' : heap) (r : value) (l : loc) : Prop :=
  r = Ref l
  \/ exists lo rows, r = Ref lo /\ h' !! lo = Some (OArr rows) /\ Ref l ∈ rows.

(** An array held in a cell of the result. *)
Definition array_cell (h' : heap) (r : value) (l : loc) : Prop :=
  exists lo rows lr cells,
    r = Ref lo /\ h' !! lo = Some (OArr rows) /\ Ref lr ∈ rows
    /\ h' !! lr = Some (OArr cells) /\ Ref l ∈ cells /\ is_arr h' l.

(** The result shares none of its arrays with the input: neither the outer
    array, nor a row array, nor an array-valued cell is an object of the
    input value. *)
Definition shares_nothing (h : heap) (data : value) (h' : heap) (r : value) : Prop :=
  forall l, outer_or_row h' r l \/ array_cell h' r l -> ~ reachable h data l.

(** *** Sample stores *)

(** The grid [[["name","age"],["John",30]]] in a store of three arrays. *)
Definition grid_store : heap :=
  [OArr [str "name"; str "age"]; OArr [str "John"; num 30]; OArr [Ref 0; Ref 1]].

(** The record array [[{name:"John",age:30}]] in a store of two objects. *)
Definition john_store : heap :=
  [ORec [("name", str "John"); ("age", num 30)]; OArr [Ref 0]].

(** The record array [[{items:[1,2,3]}]] in a store of three objects. *)
Definition items_store : heap :=
  [OArr [num 1; num 2; num 3]; ORec [("items", Ref 0)]; OArr [Ref 1]].

(** *** From trees to stores and back *)

(** [f] run on the tree [v] built in an empty store, and its result read
    back as a tree. *)
Definition run_on_tree (v : Pure.value) (f : value -> M value) : option Pure.value :=
  match (let* x := inject v in f x) [] with
  | (h, Ret r) => reify (length h) h r
  | _ => None
  end.

(** The value of a call that returned. *)
Definition returned (r : result Pure.value) : option Pure.value :=
  match r with
  | Ok v => Some v
  | Err _ => None
  end.

End HeapSpec.

(** * Dotted paths: the cache, the helpers and the record builder

    [CacheService.get]/[set], [helpers.getByString]/[setByString] and
    [DataTransformer.setNestedProperty] walk an object along the parts of a
    dotted key.  They are embedded on the trees of [Pure]: the object a call
    changes in place is handed back as the changed tree. *)

Module Dotted.
Import Pure.

(** What a call throws: [new Error(message)], or the engine's TypeError. *)
Inductive thrown : Type :=
| Error (message : string)
| TypeErr.

(** How a call ends.  [NotModelled]: the call leaves the embedding (a
    function found on a prototype, the [__proto__] accessor, a hole or a
    named property in an array, a property written on a primitive). *)
Inductive completion (A : Type) : Type :=
| Value (a : A)
| Raise (e : thrown)
| NotModelled.
Arguments Value {A} a.
Arguments Raise {A} e.
Arguments NotModelled {A}.

Definition and_then {A B : Type} (m : completion A) (k : A -> completion B)
    : completion B :=
  match m with
  | Value a => k a
  | Raise e => Raise e
  | NotModelled => NotModelled
  end.

Notation "'let!' x ':=' m 'in' k" := (and_then m (fun x => k))
  (at level 10, x name, m at level 200, k at level 200).

(** [s.split(sep)] for a one-character separator: the parts between the
    separators, one part more than there are separators. *)
Fixpoint split_on (sep : ascii) (s : string) : list string :=
  match s with
  | EmptyString => [EmptyString]
  | String c s' =>
      if Ascii.eqb c sep then EmptyString :: split_on sep s'
      else match split_on sep s' with
           | [] => [String c EmptyString]
           | part :: parts => String c part :: parts
           end
  end.

(** [path.split('.')]; a TypeError when [path] is no string (it has no
    [split]). *)
Definition split_path (path : value) : completion (list string) :=
  match path with
  | Prim (PStr s) => Value (split_on "." s)
  | _ => Raise TypeErr
  end.

(** The property names every object inherits from [Object.prototype]. *)
Definition object_prototype_names : list string :=
  ["constructor"; "hasOwnProperty"; "isPrototypeOf"; "propertyIsEnumerable";
   "toLocaleString"; "toString"; "valueOf"; "__proto__";
   "__defineGetter__"; "__defineSetter__"; "__lookupGetter__"; "__lookupSetter__"].

Definition inherited (k : string) : bool :=
  existsb (String.eqb k) object_prototype_names.

(** [current[k]] as a read.  An object gives its own property, [undefined]
    when it has none and inherits none; an array and a string give their
    elements and their length. *)
Definition read (current : value) (k : string) : completion value :=
  match current with
  | Prim PUndef | Prim PNull => Raise TypeErr
  | Obj props =>
      match prop_lookup props k with
      | Some v => Value v
      | None => if inherited k then NotModelled else Value undef
      end
  | Arr elems =>
      match array_index k with
      | Some n => Value (nth (N.to_nat n) elems undef)
      | None =>
          if String.eqb k "length" then Value (num (Z.of_nat (length elems)))
          else NotModelled
      end
  | Prim (PStr s) =>
      match array_index k with
      | Some n => Value (nth (N.to_nat n) (map str (chars s)) undef)
      | None =>
          if String.eqb k "length" then Value (num (Z.of_nat (String.length s)))
          else NotModelled
      end
  | Prim _ => NotModelled
  end.

(** [current[k] = v]; the result is [current] after the write. *)
Definition assign (current : value) (k : string) (v : value) : completion value :=
  match current with
  | Prim PUndef | Prim PNull => Raise TypeErr
  | Prim _ => NotModelled
  | Obj props =>
      if String.eqb k "__proto__" then NotModelled
      else Value (Obj (obj_set props k v))
  | Arr elems =>
      match array_index k with
      | Some n =>
          let i := N.to_nat n in
          if (i <? length elems)%nat then Value (Arr (<[i := v]> elems))
          else if (i =? length elems)%nat then Value (Arr (elems ++ [v]))
          else NotModelled
      | None => NotModelled
      end
  end.

(** [delete current[k]]; the result is [current] after it. *)
Definition remove (current : value) (k : string) : completion value :=
  match current with
  | Prim PUndef | Prim PNull => Raise TypeErr
  | Obj props => Value (Obj (filter (fun kv => fst kv <> k) props))
  | _ => NotModelled
  end.

(** [v === null] *)
Definition is_null (v : value) : bool :=
  match v with
  | Prim PNull => true
  | _ => false
  end.

(** The loop of [get] and [getByString]:
    [for (const k of keys) { if (current === null || current === undefined)
    return undefined; current = current[k]; } return current;] *)
Fixpoint get_loop (keys : list string) (current : value) : completion value :=
  match keys with
  | [] => Value current
  | k :: keys' =>
      if prim_null_or_undef current then Value undef
      else let! next := read current k in get_loop keys' next
  end.

(** The loop of [set], [setByString] and [setNestedProperty], followed by
    what they do at the last key ([final]):
    [for (const k of keys) { if (current[k] === null || typeof current[k] !==
    'object') current[k] = {}; current = current[k]; }].
    The result is [current] as the loop found it, after the writes: the
    object under [k] is the one the rest of the loop has changed. *)
Fixpoint walk (keys : list string) (final : value -> completion value)
    (current : value) : completion value :=
  match keys with
  | [] => final current
  | k :: keys' =>
      let! old := read current k in
      let! current := (if is_null old || negb (typeof_object old)
                  then assign current k (Obj []) else Value current) in
      let! child := read current k in
      let! child' := walk keys' final child in
      assign current k child'
  end.

(** [keys.pop()] on the parts of a key: the last part, and the parts before
    it. *)
Definition lastKey (keys : list string) : string := List.last keys "".
Definition before_last (keys : list string) : list string := removelast keys.

(** What [set] and [setByString] do at the last key:
    [if (value === undefined) delete current[lastKey];
     else current[lastKey] = value;] *)
Definition set_or_delete (k : string) (v : value) (current : value) : completion value :=
  if is_undefined v then remove current k else assign current k v.

End Dotted.

(** ** lib/services/CacheService.js *)

Module CacheService.
Import Pure Dotted.

Definition get (storage key : value) : completion value :=
  if negb (truthy storage) then Raise (Error "Storage is required")
  else if negb (truthy key) then Raise (Error "Key is required")
  else
    let! keys := split_path key in
    get_loop keys storage.

(** The result is [storage] after the call. *)
Definition set (storage key v : value) : completion value :=
  if negb (truthy storage) then Raise (Error "Storage is required")
  else if negb (truthy key) then Raise (Error "Key is required")
  else
    let! keys := split_path key in
    walk (before_last keys) (set_or_delete (lastKey keys) v) storage.

Definition invalidate (storage key : value) : completion value :=
  set storage key undef.

(** [value !== undefined && (Array.isArray(value) ? value.length > 0 : true)] *)
Definition has (storage key : value) : completion bool :=
  let! v := get storage key in
  Value (negb (is_undefined v)
         && (if isArray v then (0 <? length (elems_of v))%nat else true)).

End CacheService.

(** ** lib/helpers.js *)

Module helpers.
Import Pure Dotted.

Definition getByString (obj path : value) : completion value :=
  if negb (truthy obj) || negb (truthy path) then Value undef
  else
    let! keys := split_path path in
    get_loop keys obj.

(** The result is [obj] after the call. *)
Definition setByString (obj path v : value) : completion value :=
  if negb (truthy obj) || negb (truthy path) then Value obj
  else
    let! keys := split_path path in
    walk (before_last keys) (set_or_delete (lastKey keys) v) obj.

End helpers.

(** ** DataTransformer.transformToObjects and setNestedProperty *)

Module ToObjects.
Import Pure Dotted.

(** The result is [obj] after the call. *)
Definition setNestedProperty (obj path v : value) : completion value :=
  let! keys := split_path path in
  walk (before_last keys) (fun current => assign current (lastKey keys) v) obj.

(** [fields[i]] *)
Definition field_at (fields : list string) (i : nat) : value :=
  match fields !! i with
  | Some f => str f
  | None => undef
  end.

(** [for (let i = 0; i < row.length; i++)
      this.setNestedProperty(obj, fields[i], row[i]);], from index [i] on. *)
Fixpoint fill (fields : list string) (i : nat) (row : list value) (obj : value)
    : completion value :=
  match row with
  | [] => Value obj
  | cell :: row' =>
      let! obj := setNestedProperty obj (field_at fields i) cell in
      fill fields (S i) row' obj
  end.

(** [for (const row of values) { const obj = {}; ...; result.push(obj); }] *)
Fixpoint each_row (fields : list string) (values : list (list value))
    : completion (list value) :=
  match values with
  | [] => Value []
  | row :: values' =>
      let! obj := fill fields 0 row (Obj []) in
      let! result := each_row fields values' in
      Value (obj :: result)
  end.

(** [values] is a 2D array and [fields] an array of strings when they are
    given; [None] is [undefined]. *)
Definition transformToObjects (values : option (list (list value)))
    (fields : option (list string)) : completion value :=
  match values with
  | None | Some [] => Value (Arr [])
  | Some values =>
      match fields with
      | None | Some [] => Value (grid_of values)
      | Some fields =>
          let! result := each_row fields values in
          Value (Arr result)
      end
  end.

End ToObjects.

(** * Strings and patterns

    A string is the list of its code units, each below 256. *)

Module Text.

(** [s.includes(pattern)] *)
Fixpoint starts_with (pattern s : string) : bool :=
  match pattern, s with
  | EmptyString, _ => true
  | String p pattern', String c s' => Ascii.eqb p c && starts_with pattern' s'
  | String _ _, EmptyString => false
  end.

Fixpoint includes (s pattern : string) : bool :=
  starts_with pattern s
  || match s with
     | EmptyString => false
     | String _ s' => includes s' pattern
     end.

(** The code units [trim] strips: tab, line feed, vertical tab, form feed,
    carriage return, space and no-break space. *)
Definition white_space (c : ascii) : bool :=
  let n := nat_of_ascii c in
  ((9 <=? n) && (n <=? 13) || (n =? 32) || (n =? 160))%nat.

Fixpoint trim_start (s : string) : string :=
  match s with
  | EmptyString => EmptyString
  | String c s' => if white_space c then trim_start s' else s
  end.

(** What is left of [s] once the white space at its end is gone. *)
Fixpoint trim_end (s : string) : string :=
  match s with
  | EmptyString => EmptyString
  | String c s' =>
      match trim_end s' with
      | EmptyString => if white_space c then EmptyString else String c EmptyString
      | rest => String c rest
      end
  end.

(** [s.trim()] *)
Definition trim (s : string) : string := trim_end (trim_start s).

(** [c] is one of the code units from [lo] to [hi]. *)
Definition between (lo hi c : ascii) : bool :=
  ((nat_of_ascii lo <=? nat_of_ascii c) && (nat_of_ascii c <=? nat_of_ascii hi))%nat.

(** Regular expressions, as far as the patterns of the library go. *)
Inductive regex : Type :=
| Nothing
| Empty
| Class (member : ascii -> bool)
| Seq (r1 r2 : regex)
| Alt (r1 r2 : regex)
| Star (r : regex).

(** [r+] *)
Definition Plus (r : regex) : regex := Seq r (Star r).

Fixpoint nullable (r : regex) : bool :=
  match r with
  | Nothing => false
  | Empty => true
  | Class _ => false
  | Seq r1 r2 => nullable r1 && nullable r2
  | Alt r1 r2 => nullable r1 || nullable r2
  | Star _ => true
  end.

(** What [r] has to match after the code unit [c]. *)
Fixpoint derivative (c : ascii) (r : regex) : regex :=
  match r with
  | Nothing | Empty => Nothing
  | Class member => if member c then Empty else Nothing
  | Seq r1 r2 =>
      if nullable r1 then Alt (Seq (derivative c r1) r2) (derivative c r2)
      else Seq (derivative c r1) r2
  | Alt r1 r2 => Alt (derivative c r1) (derivative c r2)
  | Star r1 => Seq (derivative c r1) (Star r1)
  end.

(** [/^r$/.test(s)]: the whole of [s] matches [r]. *)
Fixpoint test (r : regex) (s : string) : bool :=
  match s with
  | EmptyString => nullable r
  | String c s' => test (derivative c r) s'
  end.

(** [s.replace(/[...]/g, by)] for a class of code units and a replacement
    of one code unit. *)
Fixpoint replace_all (member : ascii -> bool) (by_ : ascii) (s : string) : string :=
  match s with
  | EmptyString => EmptyString
  | String c s' => String (if member c then by_ else c) (replace_all member by_ s')
  end.

End Text.

(** ** lib/validators.js *)

Module validators.
Import Pure Text.

(** [{ valid, error }]; [None] is [null]. *)
Record validation : Type := mkValidation {
  valid : bool;
  error : option string
}.

Definition invalid (message : string) : validation :=
  {| valid := false; error := Some message |}.

Definition ok : validation := {| valid := true; error := None |}.

(** [/^[a-zA-Z0-9_-]+$/] *)
Definition id_unit (c : ascii) : bool :=
  between "a" "z" c || between "A" "Z" c || between "0" "9" c
  || Ascii.eqb c "_" || Ascii.eqb c "-".

Definition idPattern : regex := Plus (Class id_unit).

Definition validateSpreadsheetId (spreadsheetId : value) : validation :=
  if negb (truthy spreadsheetId) then invalid "Spreadsheet ID is required"
  else
    match spreadsheetId with
    | Prim (PStr s) =>
        if negb (test idPattern s) then
          invalid "Invalid spreadsheet ID format. Should contain only letters, numbers, hyphens, and underscores"
        else if (String.length s <? 20)%nat || (100 <? String.length s)%nat then
          invalid "Spreadsheet ID length is unusual. Please verify the ID"
        else ok
    | _ => invalid "Spreadsheet ID must be a string"
    end.

(** [/^([A-Z]+[0-9]+|[A-Z]+:[A-Z]+|[0-9]+:[0-9]+|[A-Z]+[0-9]+:[A-Z]+[0-9]+)$/] *)
Definition upper : regex := Class (between "A" "Z").
Definition digit : regex := Class (between "0" "9").
Definition colon : regex := Class (Ascii.eqb ":").

Definition cellPattern : regex :=
  Alt (Seq (Plus upper) (Plus digit))
    (Alt (Seq (Plus upper) (Seq colon (Plus upper)))
       (Alt (Seq (Plus digit) (Seq colon (Plus digit)))
          (Seq (Plus upper) (Seq (Plus digit) (Seq colon (Seq (Plus upper) (Plus digit))))))).

Definition validateRange (range : value) : validation :=
  if negb (truthy range) then invalid "Range is required (at minimum, provide sheet name)"
  else
    match range with
    | Prim (PStr s) =>
        if includes s "!" then
          match Dotted.split_on "!" s with
          | [sheetName; cellRange] =>
              if String.eqb sheetName "" || String.eqb (trim sheetName) "" then
                invalid "Sheet name cannot be empty"
              else if negb (String.eqb cellRange "")
                      && negb (String.eqb (trim cellRange) "")
                      && negb (test cellPattern cellRange) then
                invalid "Invalid cell range format. Use A1 notation (e.g., A1:B10, A:D, 1:10)"
              else ok
          | _ => invalid "Invalid range format. Use format: SheetName!A1:B10"
          end
        else ok
    | _ => invalid "Range must be a string"
    end.

(** The [params] object of [validateRequiredFields]; a property that is not
    there reads as [undefined]. *)
Record params : Type := mkParams {
  action : value;
  spreadsheetId : value;
  range : value;
  data : value;
  cell_l : value;
  cell_c : value
}.

(** [{ valid, errors }] *)
Record required : Type := mkRequired {
  all_valid : bool;
  errors : list string
}.

Definition validateRequiredFields (p : params) : required :=
  let errors := [] in
  let errors :=
    if negb (truthy (spreadsheetId p)) then errors ++ ["Spreadsheet ID is required"]
    else errors in
  let errors :=
    if negb (truthy (range p)) then errors ++ ["Range is required"] else errors in
  let errors :=
    if is_str (action p) "set" then
      if prim_null_or_undef (data p)
      then errors ++ ["Input data is required for set operation"] else errors
    else errors in
  let errors :=
    if is_str (action p) "cell" then
      let errors :=
        if negb (truthy (cell_l p))
        then errors ++ ["Line/row label is required for cell operation"] else errors in
      if negb (truthy (cell_c p))
      then errors ++ ["Column label is required for cell operation"] else errors
    else errors in
  {| all_valid := (length errors =? 0)%nat; errors := errors |}.

End validators.

(** ** lib/utils/ErrorHandler.js *)

Module ErrorHandler.
Import Text.

(** A thrown value as [getUserFriendlyMessage] looks at it: its [message]
    when there is one, and what [String(error)] gives. *)
Record thrown_value : Type := mkThrown {
  message : option string;
  as_string : string
}.

(** [error.message || String(error)] *)
Definition message_of (error : thrown_value) : string :=
  match message error with
  | Some m => if String.eqb m "" then as_string error else m
  | None => as_string error
  end.

Definition getUserFriendlyMessage (error : thrown_value) : string :=
  let message := message_of error in
  if includes message "invalid_grant" then
    "Authentication failed: Invalid or expired credentials. Please check your service account credentials."
  else if includes message "403" || includes message "PERMISSION_DENIED" then
    "Permission denied: Check that the service account has access to this spreadsheet."
  else if includes message "404" || includes message "NOT_FOUND" then
    "Spreadsheet not found: Check the spreadsheet ID and ensure it exists."
  else if includes message "429" || includes message "RATE_LIMIT" then
    "Rate limit exceeded: Too many requests. Please slow down your operations."
  else if includes message "Invalid spreadsheet ID" then
    "Invalid spreadsheet ID format. Please check the ID."
  else if includes message "Invalid range" then
    "Invalid range format. Use A1 notation (e.g., Sheet1!A1:B10)."
  else "Operation failed: " +:+ message.

End ErrorHandler.

(** ** nodes/google-spreadsheet.js

    The parts of the node that are computations on values: the cache key of
    a range, the read path with its cache, the parameters handed to the
    validator and the message of a failed operation.  The call to the Sheets
    API is an argument of the embedding. *)

Module Node.
Import Pure Dotted.

(** The units the cache key replaces by an underscore: the exclamation
    mark, the colon, the single and the double quote and the space. *)
Definition key_unit (c : ascii) : bool :=
  Ascii.eqb c "!" || Ascii.eqb c ":" || Ascii.eqb c "'"
  || Ascii.eqb c (ascii_of_nat 34) || Ascii.eqb c " ".

(** [range.replace(/[...]/g, "_")] over that class *)
Definition saveField (range : string) : string := Text.replace_all key_unit "_" range.

(** [responseData]: what [sheetsService.getValues] resolves to.  [values]
    is not there when the range holds no cell. *)
Record response : Type := mkResponse {
  response_values : option (list (list value));
  response_majorDimension : value
}.

(** A value read as a 2D array. *)
Definition as_rows (v : value) : option (list (list value)) :=
  match v with
  | Arr rows =>
      mapM (fun row => match row with Arr cells => Some cells | _ => None end) rows
  | _ => None
  end.

(** An error of the transformer as a thrown value. *)
Definition thrown_of (e : error) : thrown :=
  match e with
  | UnsupportedFormat => Error "Unsupported data format"
  | TypeError => TypeErr
  end.

Definition lift {A : Type} (r : result A) : completion A :=
  match r with
  | Ok a => Value a
  | Err e => Raise (thrown_of e)
  end.

(** [queryGet].  [getValues majorDimension] is the response of
    [sheetsService.getValues(auth, spreadsheetId, range, { majorDimension })].
    The result is [saveLoc] after the call and the value written to the
    output property. *)
Definition queryGet (cfg : config) (saveLoc : value) (saveField : string)
    (getValues : string -> response) : completion (value * value) :=
  let! cached := CacheService.has saveLoc (str saveField) in
  if cached : bool then
    let! cachedValues := CacheService.get saveLoc (str saveField) in
    match as_rows cachedValues with
    | Some rows =>
        let! transformedData := lift (transformGetResponse rows cfg (Prim (PBool false))) in
        Value (saveLoc, transformedData)
    | None => NotModelled
    end
  else
    let majorDimension := if is_string (direction cfg) "column" then "COLUMNS" else "ROWS" in
    let responseData := getValues majorDimension in
    match response_values responseData with
    | None => Value (saveLoc, str "")
    | Some values =>
        let result := copyValuesArray values in
        let! saveLoc := CacheService.set saveLoc (str saveField) (grid_of result) in
        let! transformedData :=
          lift (transformGetResponse values cfg (response_majorDimension responseData)) in
        Value (saveLoc, transformedData)
    end.

(** The object [input] hands to [validators.validateRequiredFields]:
    [{ action, spreadsheetId, range, data: inputData, inputField }]. *)
Definition required_params (action spreadsheetId range inputData : value)
    : validators.params :=
  validators.mkParams action spreadsheetId range inputData undef undef.

(** [`Spreadsheet operation failed: ${err.message}`], the message of the
    error [input] throws in place of [err]. *)
Definition operation_failed (err : ErrorHandler.thrown_value) : ErrorHandler.thrown_value :=
  let text := "Spreadsheet operation failed: "
              +:+ default "undefined" (ErrorHandler.message err) in
  ErrorHandler.mkThrown (Some text) ("Error: " +:+ text).

End Node.

(** ** What the properties of the dotted paths are stated with *)

Module DottedSpec.
Import Pure Dotted ToObjects.

(** A key that is one part of a dotted path and the name of a property of
    its own: not empty, without a dot, no array index and no name of
    [Object.prototype]. *)
Definition plain_key (k : string) : bool :=
  negb (String.eqb k "")
  && bool_decide (split_on "." k = [k])
  && bool_decide (array_index k = None)
  && negb (inherited k).

(** A record [transformToObjects] can build again from what
    [extractObjectValues] gives for it: it has a property, its keys are
    plain and pairwise different, and so it is with every record nested in
    it. *)
Fixpoint rebuildable (v : value) : bool :=
  match v with
  | Obj props =>
      match props with [] => false | _ :: _ => true end
      && bool_decide (NoDup (map fst props))
      && (fix each (ps : list (string * value)) : bool :=
            match ps with
            | [] => true
            | (k, v) :: ps' =>
                plain_key k && (if is_nested v then rebuildable v else true) && each ps'
            end) props
  | _ => false
  end.

(** The leaves of a record, each with the keys that lead to it. *)
Fixpoint leaf_paths (v : value) : list (list string * value) :=
  match v with
  | Obj props =>
      (fix each (ps : list (string * value)) : list (list string * value) :=
         match ps with
         | [] => []
         | (k, v) :: ps' =>
             (if is_nested v then map (fun pv => (k :: fst pv, snd pv)) (leaf_paths v)
              else [([k], v)]) ++ each ps'
         end) props
  | _ => []
  end.

(** The leaves under one property. *)
Definition entry_paths (kv : string * value) : list (list string * value) :=
  if is_nested (snd kv) then map (fun pv => (fst kv :: fst pv, snd pv)) (leaf_paths (snd kv))
  else [([fst kv], snd kv)].

Definition entry_ok (kv : string * value) : bool :=
  plain_key (fst kv) && (if is_nested (snd kv) then rebuildable (snd kv) else true).

(** [setNestedProperty] with the key given by its parts. *)
Definition set_path (obj : value) (path : list string) (v : value) : completion value :=
  walk (before_last path) (fun current => assign current (lastKey path) v) obj.

Fixpoint set_paths (l : list (list string * value)) (obj : value) : completion value :=
  match l with
  | [] => Value obj
  | (path, v) :: l' => let! obj := set_path obj path v in set_paths l' obj
  end.

(** The dotted key of a path. *)
Definition dotted (path : list string) : string := String.concat "." path.

(** [{user: {name: "John", address: {city: "Paris"}}, id: 7}] *)
Definition nested_user : value :=
  Obj [("user", Obj [("name", str "John"); ("address", Obj [("city", str "Paris")])]);
       ("id", num 7)].

End DottedSpec.

(** ** What the further properties of the transformer are stated with *)

Module GridSpec.
Import Pure PureSpec.



(** The cells of a flat record under the selected fields: one cell for
    every field the record has, none for a field it does not have. *)
Definition selected (fs : list string) (props : list (string * value)) : list value :=
  omap (prop_lookup props) fs.

(** The row written for a primitive taken as a record: the characters of a
    string, nothing for any other primitive. *)
Definition spelled (p : prim) : list value :=
  match p with
  | PStr s => map str (chars s)
  | _ => []
  end.





(** [{ fields: "all", method: "new", line: true, column: true }] *)
Definition all_new_both : config :=
  mkConfig (Some "all") None (Some "new") true true None.

(** [{ fields: "selected", selfields: ["name", "email"] }] *)
Definition name_email : config :=
  mkConfig (Some "selected") (Some ["name"; "email"]) None false false None.

End GridSpec.

(** ** What the properties of the validators and of the node are stated with *)

Module TextSpec.
Import Text.

(** Every code unit of [s] is in the class. *)
Fixpoint every (member : ascii -> bool) (s : string) : bool :=
  match s with
  | EmptyString => true
  | String c s' => member c && every member s'
  end.

(** The code units other than [c]. *)
Definition other_than (c : ascii) (x : ascii) : bool := negb (Ascii.eqb x c).

(** The nine texts [getUserFriendlyMessage] looks for. *)
Definition known_patterns : list string :=
  ["invalid_grant"; "403"; "PERMISSION_DENIED"; "404"; "NOT_FOUND"; "429";
   "RATE_LIMIT"; "Invalid spreadsheet ID"; "Invalid range"].

(** [message] holds one of them. *)
Definition recognised (message : string) : bool :=
  existsb (includes message) known_patterns.

End TextSpec.

Module NodeSpec.
Import Pure Dotted Node.

(** A key the cache keeps right under the storage object: one part, and no
    name of [Object.prototype]. *)
Definition top_level_key (k : string) : bool :=
  negb (String.eqb k "") && bool_decide (split_on "." k = [k]) && negb (inherited k).

(** The Sheets API, answering with the grid [values] in whatever major
    dimension it is asked for. *)
Definition sheet_with (values : list (list value)) (majorDimension : string) : response :=
  mkResponse (Some values) (str majorDimension).

(** A storage that holds nothing under [k]. *)
Definition not_cached (props : list (string * value)) (k : string) : Prop :=
  prop_lookup props k = None.

End NodeSpec.

(** * Properties of the tree embedding *)

Module PureFacts.
Import Pure PureSpec.

(** ** Induction on values *)

Section value_induction.
Variable P : value -> Prop.
Hypothesis HPrim : forall p, P (Prim p).
Hypothesis HArr : forall elems, Forall P elems -> P (Arr elems).
Hypothesis HObj : forall props, Forall (fun kv => P (snd kv)) props -> P (Obj props).

Lemma value_nested_ind (v : value) : P v.
Proof.
  revert v. fix IH 1. intros [p | elems | props].
  - apply HPrim.
  - apply HArr. induction elems as [| e es IHes]; constructor; [apply IH | exact IHes].
  - apply HObj. induction props as [| [k w] ps IHps]; constructor; [apply IH | exact IHps].
Qed.
End value_induction.

(** ** extract as a loop over the entries of [current] *)

Lemma extract_unfold current prefix acc :
  extract current prefix acc = fold_left (visit prefix) (entries_of current) acc.
Proof.
  destruct current as [p | elems | props]; simpl.
  - destruct p; try reflexivity.
    unfold entries_of.
    assert (G : forall cs i acc0 (f : nat -> nat),
      (forall j, f j = (i + j)%nat) ->
      (fix each (i : nat) (cs : list string) (acc : extracted) {struct cs} : extracted :=
         match cs with
         | [] => acc
         | c :: cs' =>
             each (S i) cs' (push_leaf acc (full_key prefix (index_key i)) (str c))
         end) i cs acc0
      = fold_left (visit prefix) (imap (fun j c => (index_key (f j), str c)) cs) acc0).
    { induction cs as [| c cs IH]; intros i acc0 f Hf; [reflexivity |].
      cbn [imap fold_left]. rewrite (IH (S i) _ (f ∘ S)).
      - unfold visit at 2. cbn [fst snd]. rewrite Hf, Nat.add_0_r. reflexivity.
      - intros j. unfold compose. rewrite Hf. lia. }
    apply (G _ 0%nat acc (fun j => j)). reflexivity.
  - assert (G : forall es i acc0 (f : nat -> nat),
      (forall j, f j = (i + j)%nat) ->
      (fix each (i : nat) (es : list value) (acc : extracted) {struct es} : extracted :=
         match es with
         | [] => acc
         | v :: es' =>
             let fullKey := full_key prefix (index_key i) in
             each (S i) es' (if is_nested v then extract v fullKey acc
                             else push_leaf acc fullKey v)
         end) i es acc0
      = fold_left (visit prefix) (imap (fun j v => (index_key (f j), v)) es) acc0).
    { induction es as [| v es IH]; intros i acc0 f Hf; [reflexivity |].
      cbn [imap fold_left]. rewrite (IH (S i) _ (f ∘ S)).
      - unfold visit at 2. cbn [fst snd]. rewrite Hf, Nat.add_0_r. reflexivity.
      - intros j. unfold compose. rewrite Hf. lia. }
    apply (G _ 0%nat acc (fun j => j)). reflexivity.
  - revert acc. induction props as [| [k v] props IH]; intros acc; [reflexivity |].
    cbn [fold_left]. rewrite <- IH. reflexivity.
Qed.

Lemma append_empty_r a : append a empty = a.
Proof. destruct a as [ks vs]. unfold append; simpl. by rewrite !app_nil_r. Qed.

Lemma append_assoc a b c : append (append a b) c = append a (append b c).
Proof. unfold append; simpl. by rewrite !app_assoc. Qed.

(** The values [extract] can descend into are among the entries the
    induction hypothesis covers. *)
Lemma entries_of_nested (R : value -> Prop) current :
  match current with
  | Prim _ => True
  | Arr elems => Forall R elems
  | Obj props => Forall (fun kv => R (snd kv)) props
  end ->
  Forall (fun kv => is_nested (snd kv) = true -> R (snd kv)) (entries_of current).
Proof.
  destruct current as [p | elems | props]; simpl; intros H.
  - destruct p; try constructor.
    apply Forall_forall. intros [k v] Hin.
    apply elem_of_lookup_imap in Hin as (i & c & Heq & _).
    injection Heq as -> ->. discriminate.
  - apply Forall_forall. intros [k v] Hin.
    apply elem_of_lookup_imap in Hin as (i & c & Heq & Hc).
    injection Heq as -> ->. intros _.
    rewrite Forall_lookup in H. eauto.
  - eapply Forall_impl; [exact H |]. auto.
Qed.

(** An invariant of the accumulator is kept by the loop when every push and
    every nested call keeps it. *)
Lemma fold_visit_invariant (Q : extracted -> Prop) prefix l :
  Forall (fun kv => is_nested (snd kv) = true ->
                    forall p acc, Q acc -> Q (extract (snd kv) p acc)) l ->
  (forall acc k v, Q acc -> Q (push_leaf acc k v)) ->
  forall acc, Q acc -> Q (fold_left (visit prefix) l acc).
Proof.
  intros Hl Hpush. induction Hl as [| kv l Hkv _ IH]; intros acc Hacc; [exact Hacc |].
  cbn [fold_left]. apply IH. unfold visit.
  destruct (is_nested (snd kv)) eqn:E; auto.
Qed.

Lemma extract_invariant (Q : extracted -> Prop) :
  (forall acc k v, Q acc -> Q (push_leaf acc k v)) ->
  forall current prefix acc, Q acc -> Q (extract current prefix acc).
Proof.
  intros Hpush current.
  induction current as [p | elems IH | props IH] using value_nested_ind;
    intros prefix acc Hacc; rewrite extract_unfold;
    apply fold_visit_invariant; auto;
    apply (entries_of_nested (fun v => forall p acc, Q acc -> Q (extract v p acc)));
    simpl; auto.
Qed.

(** The accumulator is only ever pushed to: what a call adds does not depend
    on what was there. *)
Lemma fold_visit_append prefix l :
  Forall (fun kv => is_nested (snd kv) = true ->
                    forall p acc, extract (snd kv) p acc
                                  = append acc (extract (snd kv) p empty)) l ->
  forall acc, fold_left (visit prefix) l acc
              = append acc (fold_left (visit prefix) l empty).
Proof.
  induction 1 as [| kv l Hkv _ IH]; intros acc.
  - by rewrite append_empty_r.
  - cbn [fold_left]. rewrite IH, (IH (visit prefix empty kv)), <- append_assoc.
    f_equal. unfold visit. destruct (is_nested (snd kv)) eqn:E; [by apply Hkv | reflexivity].
Qed.

Lemma extract_append current prefix acc :
  extract current prefix acc = append acc (extract current prefix empty).
Proof.
  revert prefix acc.
  induction current as [p | elems IH | props IH] using value_nested_ind;
    intros prefix acc; rewrite !extract_unfold;
    apply fold_visit_append;
    apply (entries_of_nested
             (fun v => forall p acc, extract v p acc = append acc (extract v p empty)));
    simpl; auto.
Qed.

(** A property that is not descended into is pushed as it is, between what
    the properties before it and after it give. *)
Lemma extract_leaf_entry pre key v post prefix acc :
  is_nested v = false ->
  extract (Obj (pre ++ (key, v) :: post)) prefix acc
  = extract (Obj post) prefix
      (push_leaf (extract (Obj pre) prefix acc) (full_key prefix key) v).
Proof.
  intros Hv. rewrite !extract_unfold. cbn [entries_of].
  rewrite fold_left_app. cbn [fold_left]. f_equal.
  unfold visit at 1. cbn [fst snd]. by rewrite Hv.
Qed.

Lemma extractObjectValues_leaf_entry pre key v post :
  is_nested v = false ->
  extractObjectValues (Obj (pre ++ (key, v) :: post))
  = append (push_leaf (extractObjectValues (Obj pre)) key v)
      (extractObjectValues (Obj post)).
Proof.
  intros Hv. unfold extractObjectValues.
  rewrite extract_leaf_entry by exact Hv. by rewrite extract_append.
Qed.

Lemma extract_balanced current prefix acc :
  length (keys acc) = length (values acc) ->
  length (keys (extract current prefix acc)) = length (values (extract current prefix acc)).
Proof.
  apply (extract_invariant (fun e => length (keys e) = length (values e))).
  intros e k v He. unfold push_leaf; simpl. rewrite !length_app, He. reflexivity.
Qed.

(** ** FlatRecordExtractor *)

(** C7. Flattening a nested record gives dotted-path keys, and an array is a
    leaf: [{user:{name:"John",age:30}}] gives keys [user.name], [user.age]
    and values ["John"], [30]; [{items:[1,2,3]}] gives the key [items] and
    the array itself as the one value; at any depth a property holding an
    array is pushed as it is, never descended into; and keys and values
    always have the same length. *)
Theorem extract_dotted_paths_and_array_leaves :
  extractObjectValues (Obj [("user", Obj [("name", str "John"); ("age", num 30)])])
    = {| keys := ["user.name"; "user.age"]; values := [str "John"; num 30] |}
  /\ extractObjectValues (Obj [("items", Arr [num 1; num 2; num 3])])
    = {| keys := ["items"]; values := [Arr [num 1; num 2; num 3]] |}
  /\ (forall pre key elems post prefix acc,
        extract (Obj (pre ++ (key, Arr elems) :: post)) prefix acc
        = extract (Obj post) prefix
            (push_leaf (extract (Obj pre) prefix acc) (full_key prefix key) (Arr elems)))
  /\ (forall obj,
        length (keys (extractObjectValues obj)) = length (values (extractObjectValues obj))).
Proof.
  split; [reflexivity |]. split; [reflexivity |]. split.
  - intros. by apply extract_leaf_entry.
  - intros obj. by apply extract_balanced.
Qed.

(** C10. What makes a property a leaf is that its value has a [length], not
    that it is an array: in every record, a property holding a non-array
    object with a [length] property that is not undefined is pushed as it is
    under its own key, at top level and under any prefix, and none of its
    fields is flattened into a dotted path. *)
Theorem extract_object_with_length_is_leaf pre key inner post :
  is_undefined (get_prop inner "length") = false ->
  extractObjectValues (Obj (pre ++ (key, Obj inner) :: post))
    = append (push_leaf (extractObjectValues (Obj pre)) key (Obj inner))
        (extractObjectValues (Obj post))
  /\ (forall prefix acc,
        extract (Obj (pre ++ (key, Obj inner) :: post)) prefix acc
        = extract (Obj post) prefix
            (push_leaf (extract (Obj pre) prefix acc) (full_key prefix key) (Obj inner))).
Proof.
  intros Hlen.
  assert (Hleaf : is_nested (Obj inner) = false).
  { unfold is_nested, length_undefined; simpl. by rewrite Hlen. }
  split.
  - by apply extractObjectValues_leaf_entry.
  - intros. by apply extract_leaf_entry.
Qed.

Lemma extract_object_with_length_is_leaf_witness :
  is_undefined (get_prop [("length", num 2); ("x", num 1)] "length") = false
  /\ extractObjectValues (Obj [("a", Obj [("length", num 2); ("x", num 1)])])
     = {| keys := ["a"]; values := [Obj [("length", num 2); ("x", num 1)]] |}.
Proof.
  split; [reflexivity |].
  exact (proj1 (extract_object_with_length_is_leaf
                  [] "a" [("length", num 2); ("x", num 1)] [] eq_refl)).
Defined.

(** ** GridWriteEncoder: row labels *)

Lemma unshift_row_middle pre row rows x :
  unshift_row (pre ++ row :: rows) (length pre) x = Ok (pre ++ (x :: row) :: rows).
Proof.
  unfold unshift_row. rewrite list_lookup_middle by reflexivity.
  f_equal. rewrite <- (Nat.add_0_r (length pre)). by rewrite insert_app_r.
Qed.

Lemma label_rows_ok labels : forall rows pre,
  length rows = length labels ->
  label_rows (pre ++ rows) (length pre) labels
  = Ok (pre ++ zip_with labelled labels rows).
Proof.
  induction labels as [| l labels IH]; intros [| row rows] pre Hlen;
    simpl in Hlen; try discriminate.
  - reflexivity.
  - cbn [label_rows zip_with]. rewrite unshift_row_middle. cbn [bind].
    replace (pre ++ (str l :: row) :: rows) with ((pre ++ [str l :: row]) ++ rows)
      by (by rewrite <- app_assoc).
    replace (S (length pre)) with (length (pre ++ [str l :: row]))
      by (rewrite length_app; simpl; lia).
    rewrite IH by lia. by rewrite <- app_assoc.
Qed.

Lemma addColumnLabels_no_header rows labels :
  length rows = length labels ->
  addColumnLabels rows labels false = Ok (zip_with labelled labels rows).
Proof. intros H. unfold addColumnLabels. by apply (label_rows_ok labels rows []). Qed.

Lemma addColumnLabels_header hdr rows labels :
  length rows = length labels ->
  addColumnLabels (hdr :: rows) labels true
  = Ok ((str "Elements" :: hdr) :: zip_with labelled labels rows).
Proof.
  intros H. unfold addColumnLabels.
  rewrite (unshift_row_middle [] hdr rows). cbn [bind app].
  by apply (label_rows_ok labels rows [str "Elements" :: hdr]).
Qed.

(** [transformObjectOfObjects] never throws, and this is what it returns. *)
Lemma transformObjectOfObjects_closed data cfg fs :
  transformObjectOfObjects data cfg fs
  = Ok match entry_rows data cfg fs with
       | None => []
       | Some rows =>
           if is_string (method cfg) "new" then
             (if line cfg then
                [(if column cfg then [str "Elements"] else []) ++ header_names data cfg fs]
              else [])
             ++ (if column cfg then zip_with labelled (map fst (entries_of data)) rows
                 else rows)
           else rows
       end.
Proof.
  unfold transformObjectOfObjects, entry_rows, header_names.
  destruct (is_string (fields cfg) "all");
    [| destruct fs as [fs |]; [| reflexivity]];
    (destruct (is_string (method cfg) "new"); [| reflexivity]);
    destruct (line cfg), (column cfg); try reflexivity;
    (rewrite addColumnLabels_header by (by rewrite !length_map))
    || (rewrite addColumnLabels_no_header by (by rewrite !length_map));
    reflexivity.
Qed.

Lemma labelled_rows_Forall2 (f : string * value -> list value) entries :
  Forall2 (fun kv row => exists cells, row = Arr (str (fst kv) :: cells))
    entries (map Arr (zip_with labelled (map fst entries) (map f entries))).
Proof.
  induction entries as [| kv entries IH]; simpl; constructor; [| exact IH].
  by exists (f kv).
Qed.

(** [transform] on a record-like object without a [length]. *)
Lemma transform_object props cfg :
  is_undefined (get_prop props "length") = true ->
  transform (Obj props) cfg
  = bind (transformObjectOfObjects (Obj props) cfg (selected_fields cfg))
      (fun vs => Ok (grid_of vs)).
Proof. intros H. unfold transform. simpl. by rewrite H. Qed.

(** C5, as the code has it.  For every mapping of key to record (with no
    [length] entry of its own) encoded with method "new", [column] set and a
    field selection ("all" or a list), the grid is a header part followed by
    one row per entry, in order, and every such row has its mapping key as
    element 0; with [line] also set the header part is one row whose
    element 0 is the corner label "Elements", so that the label of entry
    [i] is in row [i + 1]; without [line] there is no header row. *)
Theorem object_rows_carry_their_keys entries cfg :
  is_undefined (get_prop entries "length") = true ->
  is_string (method cfg) "new" = true ->
  column cfg = true ->
  (is_string (fields cfg) "all" = true \/ selected_fields cfg <> None) ->
  rows_carry_keys entries cfg.
Proof.
  intros Hlen Hnew Hcol Hsel. unfold rows_carry_keys.
  rewrite transform_object by exact Hlen.
  rewrite transformObjectOfObjects_closed. cbn [bind].
  rewrite Hnew, Hcol. unfold entry_rows, grid_of. cbn [entries_of].
  destruct (is_string (fields cfg) "all") eqn:Hall.
  - destruct (line cfg); eexists _, _; rewrite map_app;
      (split; [reflexivity |]); (split; [apply labelled_rows_Forall2 |]);
      [by eexists | reflexivity].
  - destruct Hsel as [? | Hsel]; [discriminate |].
    destruct (selected_fields cfg) as [fs |]; [| done].
    destruct (line cfg); eexists _, _; rewrite map_app;
      (split; [reflexivity |]); (split; [apply labelled_rows_Forall2 |]);
      [by eexists | reflexivity].
Qed.

Lemma object_rows_carry_their_keys_witness :
  let cfg := mkConfig (Some "all") None (Some "new") true true None in
  (is_undefined (get_prop user1 "length") = true
   /\ is_string (method cfg) "new" = true
   /\ column cfg = true)
  /\ rows_carry_keys user1 cfg.
Proof.
  split; [repeat split |].
  apply object_rows_carry_their_keys; try reflexivity. by left.
Defined.

(** C5 as it is written fails: [column] alone does not label the rows.  With
    method "append" the one row of [{user1:{name:"John",age:30}}] is
    [["John",30]], whose element 0 is not the key. *)
Lemma column_without_new_has_no_labels :
  let cfg := mkConfig (Some "all") None (Some "append") false true None in
  column cfg = true
  /\ transform (Obj user1) cfg = Ok (Arr [Arr [str "John"; num 30]])
  /\ ~ rows_carry_keys user1 cfg.
Proof.
  split; [reflexivity |]. split; [reflexivity |].
  intros (header & body & Heq & Hrows & Hhdr). simpl in Hhdr. subst header.
  injection Heq as Heq. simpl in Heq. subst body.
  apply Forall2_cons_1 in Hrows as [[cells Hrow] _]. discriminate.
Qed.

(** ** GridWriteEncoder: unsupported input *)

Lemma transform_array_nonempty x xs cfg : exists g, transform (Arr (x :: xs)) cfg = Ok g.
Proof.
  unfold transform. simpl.
  destruct (isArray x); [by eexists |]. simpl.
  destruct ((length xs =? 0)%nat && negb (typeof_object x)); by eexists.
Qed.

(** C3, as the code has it.  For an input other than [null], the encoder
    throws 'Unsupported data format' exactly when the input is [undefined],
    the empty array, or a non-array object whose [length] is not undefined.
    The empty plain object is none of these: it is encoded as a mapping with
    no entries and a grid is returned. *)
Theorem unsupported_format_cases data cfg :
  data <> Prim PNull ->
  (transform data cfg = Err UnsupportedFormat
   <-> data = undef \/ data = Arr []
       \/ exists props, data = Obj props /\ is_undefined (get_prop props "length") = false)
  /\ (data = Obj [] -> exists rows, transform data cfg = Ok (grid_of rows)).
Proof.
  intros Hnull. split.
  - destruct data as [p | [| x xs] | props].
    + destruct p; try done;
        [split; [intros _; by left | reflexivity] | ..];
        (split; [discriminate |]);
        intros [H | [H | (props & H & _)]]; discriminate.
    + split; [intros _; right; by left | reflexivity].
    + destruct (transform_array_nonempty x xs cfg) as [g Hg]. rewrite Hg.
      split; [discriminate |].
      intros [H | [H | (props & H & _)]]; discriminate.
    + destruct (is_undefined (get_prop props "length")) eqn:Hlen.
      * rewrite transform_object, transformObjectOfObjects_closed by exact Hlen.
        split; [discriminate |].
        intros [H | [H | (props' & H & Hl)]]; try discriminate.
        injection H as <-. congruence.
      * split.
        -- intros _. right; right. by exists props.
        -- intros _. unfold transform. simpl. by rewrite Hlen.
  - intros ->. rewrite transform_object, transformObjectOfObjects_closed by reflexivity.
    by eexists.
Qed.

Lemma unsupported_format_cases_witness :
  Arr [] <> Prim PNull
  /\ transform (Arr []) (mkConfig (Some "all") None None false false None)
     = Err UnsupportedFormat.
Proof.
  assert (H : Arr [] <> Prim PNull) by discriminate.
  split; [exact H |].
  apply (proj1 (unsupported_format_cases (Arr []) _ H)). right. by left.
Defined.

(** C3 as it is written fails on its own example: the empty plain object is
    accepted.  With [fields] "all" the result is the empty grid. *)
Lemma empty_object_is_encoded :
  let cfg := mkConfig (Some "all") None None false false None in
  transform (Obj []) cfg = Ok (Arr [])
  /\ transform (Obj []) cfg <> Err UnsupportedFormat.
Proof. split; [reflexivity | discriminate]. Qed.

(** ** GridReadDecoder *)

(** *** The round trip in general *)

Lemma extract_flat props : forall acc,
  Forall (fun kv => is_nested (snd kv) = false) props ->
  extract (Obj props) "" acc
  = {| keys := keys acc ++ map fst props; values := values acc ++ map snd props |}.
Proof.
  induction props as [| [k v] props IH]; intros acc Hflat.
  - simpl. rewrite !app_nil_r. by destruct acc.
  - apply Forall_cons_1 in Hflat as [Hv Hflat]. simpl in Hv.
    change (extract (Obj ((k, v) :: props)) "" acc)
      with (extract (Obj props) ""
              (if is_nested v then extract v (full_key "" k) acc
               else push_leaf acc (full_key "" k) v)).
    rewrite Hv, IH by exact Hflat. unfold push_leaf, full_key; simpl.
    by rewrite <- !app_assoc.
Qed.

Lemma extractObjectValues_flat ks vs :
  flat_row ks vs ->
  extractObjectValues (Obj (zip ks vs)) = {| keys := ks; values := vs |}.
Proof.
  intros [Hlen Hflat]. unfold extractObjectValues. rewrite extract_flat.
  - simpl. rewrite fst_zip, snd_zip by lia. reflexivity.
  - apply Forall_forall. intros [k v] Hin. apply elem_of_zip_r in Hin.
    rewrite Forall_forall in Hflat. by apply Hflat.
Qed.

Lemma set_named_new (k : string) (v : value) props :
  k ∉ map fst props -> set_named k v props = props ++ [(k, v)].
Proof.
  induction props as [| [k' v'] props IH]; intros Hk; [reflexivity |].
  simpl in *. apply not_elem_of_cons in Hk as [Hne Hk].
  destruct (String.eqb k' k) eqn:E; [apply String.eqb_eq in E; congruence |].
  by rewrite IH.
Qed.

Lemma zip_labels_flat ks : forall vs ks1 vs1,
  NoDup (ks1 ++ ks) ->
  Forall (fun k => array_index k = None) ks ->
  length ks1 = length vs1 ->
  length vs = length ks ->
  zip_labels (map str (ks1 ++ ks)) (length ks1) vs (zip ks1 vs1)
  = zip (ks1 ++ ks) (vs1 ++ vs).
Proof.
  induction ks as [| k ks IH]; intros [| v vs] ks1 vs1 Hnd Hidx Hlen1 Hlen;
    simpl in Hlen; try discriminate.
  - simpl. by rewrite !app_nil_r.
  - apply Forall_cons_1 in Hidx as [Hk Hidx]. cbn [zip_labels].
    assert (Hnth : nth (length ks1) (map str (ks1 ++ k :: ks)) undef = str k).
    { rewrite map_app, app_nth2 by (rewrite length_map; lia).
      rewrite length_map, Nat.sub_diag. reflexivity. }
    rewrite Hnth. change (to_string (str k)) with k. unfold obj_set. rewrite Hk.
    rewrite set_named_new.
    + replace (zip ks1 vs1 ++ [(k, v)]) with (zip (ks1 ++ [k]) (vs1 ++ [v]))
        by (by rewrite zip_with_app).
      replace (S (length ks1)) with (length (ks1 ++ [k]))
        by (rewrite length_app; simpl; lia).
      replace (ks1 ++ k :: ks) with ((ks1 ++ [k]) ++ ks) by (by rewrite <- app_assoc).
      replace (vs1 ++ v :: vs) with ((vs1 ++ [v]) ++ vs) by (by rewrite <- app_assoc).
      apply IH; [by rewrite <- app_assoc | exact Hidx | | lia].
      rewrite !length_app; simpl; lia.
    + rewrite fst_zip by lia. apply NoDup_app in Hnd as (_ & Hnd & _).
      intros Hin. apply (Hnd k Hin). apply list_elem_of_here.
Qed.

(** The round trip for every array of flat records with the same fields:
    when the field names are pairwise different and none is an array index,
    encoding with fields "all", line header and method "new" gives the
    header row followed by the rows of values, and decoding that grid with
    only the line header set and a major dimension other than "ROWS" gives
    the record array back. *)
Lemma roundtrip_flat_records ks row rows majorDimension :
  NoDup ks ->
  Forall (fun k => array_index k = None) ks ->
  Forall (flat_row ks) (row :: rows) ->
  is_str majorDimension "ROWS" = false ->
  transform (Arr (records ks (row :: rows))) all_new_line
    = Ok (grid_of (map str ks :: row :: rows))
  /\ transformGetResponse (map str ks :: row :: rows) line_only majorDimension
     = Ok (Arr (records ks (row :: rows))).
Proof.
  intros Hnd Hidx Hflat Hmd. split.
  - unfold transform, all_new_line. cbn -[extractObjectValues zip grid_of].
    rewrite andb_false_r.
    rewrite extractObjectValues_flat by (by apply Forall_cons_1 in Hflat as [? _]).
    cbn [keys values]. do 4 f_equal.
    apply Forall_cons_1 in Hflat as [_ Hflat]. rewrite map_map.
    induction Hflat as [| vs rows' Hvs _ IH]; [reflexivity |].
    simpl. by rewrite extractObjectValues_flat, IH.
  - unfold transformGetResponse, copyValuesArray, line_only.
    cbn [line column direction negb andb orb is_string]. rewrite Hmd, map_id.
    cbn [orb andb _transformToObjectArray]. do 2 f_equal. unfold records.
    apply map_ext_Forall. eapply Forall_impl; [exact Hflat |].
    intros vs [Hlen _]. f_equal.
    apply (zip_labels_flat ks vs [] []); try done.
Qed.

(** C1, as the code has it.  Encoding
    [[{name:"John",age:30},{name:"Jane",age:25}]] with fields "all", line
    header and method "new" gives
    [[["name","age"],["John",30],["Jane",25]]]; decoding that grid with only
    the line header set gives back the record array whenever the major
    dimension passed is not "ROWS" (and no direction is given), as with
    "COLUMNS". *)
Theorem roundtrip_records_line_header majorDimension :
  is_str majorDimension "ROWS" = false ->
  transform john_jane all_new_line = Ok (grid_of john_jane_grid)
  /\ transformGetResponse john_jane_grid line_only majorDimension = Ok john_jane.
Proof.
  intros Hmd. split; [reflexivity |].
  unfold transformGetResponse, line_only; cbn [line column direction negb andb orb].
  rewrite Hmd. reflexivity.
Qed.

Lemma roundtrip_records_line_header_witness :
  is_str (str "COLUMNS") "ROWS" = false
  /\ transform john_jane all_new_line = Ok (grid_of john_jane_grid)
  /\ transformGetResponse john_jane_grid line_only (str "COLUMNS") = Ok john_jane.
Proof.
  split; [reflexivity |].
  exact (roundtrip_records_line_header (str "COLUMNS") eq_refl).
Defined.

(** C1 as it is written fails: with the major dimension "ROWS", the one the
    grid was written in, the line-header-only decode gives the mapping from
    each row's first cell to the rest of the row, not the record array. *)
Lemma roundtrip_rows_gives_mapping :
  transform john_jane all_new_line = Ok (grid_of john_jane_grid)
  /\ transformGetResponse john_jane_grid line_only (str "ROWS")
     = Ok (Obj [("name", Arr [str "age"]); ("John", Arr [num 30]); ("Jane", Arr [num 25])])
  /\ transformGetResponse john_jane_grid line_only (str "ROWS") <> Ok john_jane.
Proof. split; [reflexivity |]. split; [reflexivity | discriminate]. Qed.

(** C2. The grid [[["name","age"],["John",30],["Jane",25]]] decoded with only
    the line header set: with major dimension "COLUMNS" the first row is
    zipped as field names against every later row, giving
    [[{name:"John",age:30},{name:"Jane",age:25}]]; with "ROWS" the result
    maps each row's first cell to the array of its remaining cells.  The
    write-side settings of the configuration play no part. *)
Theorem decode_orientation_fallback fs sel m :
  let cfg := mkConfig fs sel m true false None in
  transformGetResponse john_jane_grid cfg (str "COLUMNS") = Ok john_jane
  /\ transformGetResponse john_jane_grid cfg (str "ROWS")
     = Ok (Obj [("name", Arr [str "age"]); ("John", Arr [num 30]); ("Jane", Arr [num 25])]).
Proof. split; reflexivity. Qed.

(** C8. With neither header set, a grid of exactly one row of one cell
    decodes to that cell ([[[42]]] to [42]), and every other grid decodes to
    the grid itself, row by row and cell by cell. *)
Theorem decode_no_headers values cfg majorDimension :
  line cfg = false ->
  column cfg = false ->
  (forall cell, values = [[cell]] ->
     transformGetResponse values cfg majorDimension = Ok cell)
  /\ ((forall cell, values <> [[cell]]) ->
      transformGetResponse values cfg majorDimension = Ok (grid_of values)).
Proof.
  intros Hl Hc. unfold transformGetResponse, copyValuesArray.
  rewrite Hl, Hc, map_id. cbn [negb andb]. split.
  - by intros cell ->.
  - intros Hne. destruct values as [| [| cell [| c2 row]] [| r2 rows]]; try reflexivity.
    by destruct (Hne cell).
Qed.

Lemma decode_no_headers_witness :
  (line no_headers = false /\ column no_headers = false)
  /\ transformGetResponse [[num 42]] no_headers (str "ROWS") = Ok (num 42)
  /\ transformGetResponse [[num 1; num 2]; [num 3; num 4]] no_headers (str "ROWS")
     = Ok (Arr [Arr [num 1; num 2]; Arr [num 3; num 4]]).
Proof.
  split; [split; reflexivity |]. split.
  - exact (proj1 (decode_no_headers [[num 42]] no_headers (str "ROWS") eq_refl eq_refl)
             (num 42) eq_refl).
  - apply (proj2 (decode_no_headers [[num 1; num 2]; [num 3; num 4]] no_headers
                    (str "ROWS") eq_refl eq_refl)).
    intros cell H. discriminate.
Defined.

(** ** PointLookup *)













End PureFacts.

(** * Properties of the store embedding *)

Module HeapFacts.
Import Heap HeapSpec.

(** ** The caller's store stays as it is *)

(** *** Running the primitives *)

Lemma run_bind {A B} (m : M A) (k : A -> M B) h h1 a :
  m h = (h1, Ret a) -> bind m k h = k a h1.
Proof. intros H. unfold bind. by rewrite H. Qed.

Lemma run_deref h l o : h !! l = Some o -> deref l h = (h, Ret o).
Proof. intros H. unfold deref. by rewrite H. Qed.

Lemma run_store h l o : l < length h -> store l o h = (<[l := o]> h, Ret tt).
Proof. intros H. unfold store. apply Nat.ltb_lt in H. by rewrite H. Qed.

Lemma run_push h l elems x :
  h !! l = Some (OArr elems) ->
  push (Ref l) x h = (<[l := OArr (elems ++ [x])]> h, Ret tt).
Proof.
  intros H. unfold push. rewrite (run_bind _ _ _ _ _ (run_deref _ _ _ H)).
  apply run_store. by eapply lookup_lt_Some.
Qed.

Lemma run_isArray_prim h p : isArray (Prim p) h = (h, Ret false).
Proof. reflexivity. Qed.

Lemma run_isArray_ref h l o :
  h !! l = Some o ->
  isArray (Ref l) h = (h, Ret match o with OArr _ => true | ORec _ => false end).
Proof.
  intros H. unfold isArray. by rewrite (run_bind _ _ _ _ _ (run_deref _ _ _ H)).
Qed.

Lemma run_elements h l elems :
  h !! l = Some (OArr elems) -> elements (Ref l) h = (h, Ret elems).
Proof.
  intros H. unfold elements. by rewrite (run_bind _ _ _ _ _ (run_deref _ _ _ H)).
Qed.

Lemma is_arr_insert h l l' elems :
  is_arr h l' -> is_arr (<[l := OArr elems]> h) l'.
Proof.
  intros [es Hl']. destruct (decide (l = l')) as [-> | Hne].
  - exists elems. apply list_lookup_insert_eq. by eapply lookup_lt_Some.
  - exists es. by rewrite list_lookup_insert_ne.
Qed.

Lemma is_arr_app h k l : is_arr h l -> is_arr (h ++ k) l.
Proof. intros [es Hl]. exists es. by apply lookup_app_l_Some. Qed.

Section frame.
Variable h0 : heap.

Lemma wp_mono {A} (m : M A) (Q Q' : A -> heap -> Prop) h :
  (forall a h', h0 `prefix_of` h' -> Q a h' -> Q' a h') -> wp h0 m Q h -> wp h0 m Q' h.
Proof. intros HQ Hm Hh. destruct (Hm Hh) as [Hpre Hret]. split; auto. Qed.

Lemma wp_ret {A} (a : A) (Q : A -> heap -> Prop) h : Q a h -> wp h0 (ret a) Q h.
Proof. intros HQ Hh. split; [exact Hh |]. by intros a' [= <-]. Qed.

Lemma wp_throw {A} e (Q : A -> heap -> Prop) h : wp h0 (throw e) Q h.
Proof. intros Hh. split; [exact Hh | discriminate]. Qed.

Lemma wp_unmodelled {A} (Q : A -> heap -> Prop) h : wp h0 unmodelled Q h.
Proof. intros Hh. split; [exact Hh | discriminate]. Qed.

Lemma wp_out_of_fuel {A} (Q : A -> heap -> Prop) h : wp h0 out_of_fuel Q h.
Proof. intros Hh. split; [exact Hh | discriminate]. Qed.

Lemma wp_bind {A B} (m : M A) (k : A -> M B) (Q : B -> heap -> Prop) h :
  wp h0 m (fun a h' => wp h0 (k a) Q h') h -> wp h0 (bind m k) Q h.
Proof.
  intros Hm Hh. destruct (Hm Hh) as [Hpre Hret]. unfold bind.
  destruct (m h) as [h1 [a | e | |]]; simpl in *;
    try (split; [exact Hpre | discriminate]).
  by apply (Hret a).
Qed.

Lemma wp_alloc o (Q : value -> heap -> Prop) h :
  Q (Ref (length h)) (h ++ [o]) -> wp h0 (alloc o) Q h.
Proof.
  intros HQ Hh. split; [by apply prefix_app_r |]. by intros a [= <-].
Qed.

Lemma wp_deref l (Q : object -> heap -> Prop) h :
  (forall o, h !! l = Some o -> Q o h) -> wp h0 (deref l) Q h.
Proof.
  intros HQ Hh. unfold deref. destruct (h !! l) as [o |] eqn:E; simpl.
  - split; [exact Hh |]. intros a [= <-]. by apply HQ.
  - split; [exact Hh | discriminate].
Qed.

(** A write at or above the length of the caller's store leaves it alone. *)
Lemma prefix_insert_outside (h : heap) l o :
  length h0 <= l -> h0 `prefix_of` h -> h0 `prefix_of` <[l := o]> h.
Proof.
  intros Hl [k ->]. exists (<[l - length h0 := o]> k).
  replace l with (length h0 + (l - length h0)) at 1 by lia.
  by rewrite insert_app_r.
Qed.

Lemma wp_store l o (Q : unit -> heap -> Prop) h :
  length h0 <= l ->
  (l < length h -> Q tt (<[l := o]> h)) ->
  wp h0 (store l o) Q h.
Proof.
  intros Hl HQ Hh. unfold store. destruct (l <? length h)%nat eqn:E; simpl.
  - split; [by apply prefix_insert_outside |]. intros [] _.
    apply HQ. by apply Nat.ltb_lt.
  - split; [exact Hh | discriminate].
Qed.

(** An array of the caller's store is still there, as it was. *)
Lemma caller_lookup (h : heap) l o :
  h0 `prefix_of` h -> l < length h0 -> h !! l = Some o -> h0 !! l = Some o.
Proof. intros [k ->] Hl. by rewrite lookup_app_l. Qed.

Lemma no_caller_array_outside (h : heap) v l elems :
  no_caller_array h0 v -> h0 `prefix_of` h -> v = Ref l -> h !! l = Some (OArr elems) ->
  length h0 <= l.
Proof.
  intros Hv Hh -> Hl. destruct (Nat.le_gt_cases (length h0) l) as [H | H]; [exact H |].
  destruct (Hv l elems eq_refl). by eapply caller_lookup.
Qed.

Lemma fresh_no_caller_array v : fresh h0 v -> no_caller_array h0 v.
Proof.
  intros Hv l elems -> Hl. apply lookup_lt_Some in Hl. specialize (Hv l eq_refl). lia.
Qed.

Lemma wp_intact {A} (m : M A) (Q : A -> heap -> Prop) h :
  (h0 `prefix_of` h -> wp h0 m Q h) -> wp h0 m Q h.
Proof. intros H Hh. exact (H Hh Hh). Qed.

Lemma wp_for_each {A} (xs : list A) (body : A -> M unit) (I : heap -> Prop) h :
  (forall x h', x ∈ xs -> I h' -> wp h0 (body x) (fun _ => I) h') ->
  I h -> wp h0 (for_each xs body) (fun _ => I) h.
Proof.
  revert h. induction xs as [| x xs IH]; intros h Hbody HI; simpl.
  - by apply wp_ret.
  - apply wp_bind.
    eapply wp_mono; [| apply Hbody; [apply list_elem_of_here | exact HI]].
    intros [] h' _ HI'. apply IH; [| exact HI'].
    intros y h'' Hy. apply Hbody. by apply list_elem_of_further.
Qed.

(** *** Reads *)

Lemma wp_reads {A} (m : M A) (Q : A -> heap -> Prop) h :
  reads m -> (forall a, m h = (h, Ret a) -> Q a h) -> wp h0 m Q h.
Proof.
  intros Hm HQ Hh. specialize (Hm h). destruct (m h) as [h1 out]; simpl in *. subst h1.
  split; [exact Hh |]. intros a ->. by apply HQ.
Qed.

Lemma reads_ret {A} (a : A) : reads (ret a).
Proof. by intros h. Qed.

Lemma reads_throw {A} e : reads (@throw A e).
Proof. by intros h. Qed.

Lemma reads_unmodelled {A} : reads (@unmodelled A).
Proof. by intros h. Qed.

Lemma reads_deref l : reads (deref l).
Proof. intros h. unfold deref. by destruct (h !! l). Qed.

Lemma reads_bind {A B} (m : M A) (k : A -> M B) :
  reads m -> (forall a, reads (k a)) -> reads (bind m k).
Proof.
  intros Hm Hk h. unfold bind. specialize (Hm h).
  destruct (m h) as [h1 [a | e | |]]; simpl in *; subst; try reflexivity. apply Hk.
Qed.

Lemma reads_isArray v : reads (isArray v).
Proof.
  destruct v as [p | l]; simpl; [apply reads_ret |].
  apply reads_bind; [apply reads_deref | intros o; apply reads_ret].
Qed.

Lemma reads_get_length v : reads (get_length v).
Proof.
  destruct v as [[| | | |] | l]; simpl;
    try apply reads_ret; try apply reads_throw.
  apply reads_bind; [apply reads_deref | intros o; apply reads_ret].
Qed.

Lemma reads_get_index v i : reads (get_index v i).
Proof.
  destruct v as [[| | | |] | l]; simpl;
    try apply reads_ret; try apply reads_throw.
  apply reads_bind; [apply reads_deref | intros o; apply reads_ret].
Qed.

Lemma reads_get v key : reads (get v key).
Proof.
  destruct v as [[| | | |] | l]; simpl;
    try apply reads_ret; try apply reads_throw.
  apply reads_bind; [apply reads_deref | intros o; apply reads_ret].
Qed.

Lemma reads_for_in_keys v : reads (for_in_keys v).
Proof.
  destruct v as [[| | | |] | l]; simpl; try apply reads_ret.
  apply reads_bind; [apply reads_deref | intros o; apply reads_ret].
Qed.

Lemma reads_elements v : reads (elements v).
Proof.
  destruct v as [[| | | |] | l]; simpl;
    try apply reads_ret; try apply reads_throw.
  apply reads_bind; [apply reads_deref |].
  intros [elems | props]; [apply reads_ret | apply reads_throw].
Qed.

Lemma reads_to_key v : reads (to_key v).
Proof.
  destruct v as [p | l]; simpl; [apply reads_ret |].
  apply reads_bind; [apply reads_deref |].
  intros [elems | props]; [| apply reads_ret].
  destruct (mapM joined_part elems); [apply reads_ret | apply reads_unmodelled].
Qed.

Lemma reads_is_nested v : reads (is_nested v).
Proof.
  unfold is_nested. destruct (typeof_object v && truthy v); [| apply reads_ret].
  apply reads_bind; [apply reads_get_length | intros a; apply reads_ret].
Qed.

(** What a read returned, in terms of the store. *)
Lemma isArray_false v h h' :
  h0 `prefix_of` h -> isArray v h = (h', Ret false) -> no_caller_array h0 v.
Proof.
  intros Hh Hrun l elems -> Hl. unfold isArray, bind, deref in Hrun.
  rewrite (prefix_lookup_Some _ _ _ _ Hl Hh) in Hrun. discriminate.
Qed.

Lemma elements_ref l h h' rows :
  elements (Ref l) h = (h', Ret rows) -> h !! l = Some (OArr rows).
Proof.
  unfold elements, bind, deref, ret, throw.
  destruct (h !! l) as [[elems | props] |]; congruence.
Qed.

Lemma get_index_ref l i h h' v rows :
  h !! l = Some (OArr rows) -> get_index (Ref l) i h = (h', Ret v) ->
  v = undef \/ v ∈ rows.
Proof.
  intros Hl. unfold get_index, bind, deref, ret. rewrite Hl. intros [= _ <-].
  destruct (rows !! i) as [r |] eqn:E; simpl; [right | by left].
  by eapply list_elem_of_lookup_2.
Qed.

(** *** Writes *)

Lemma wp_push a x (Q : unit -> heap -> Prop) h :
  no_caller_array h0 a ->
  (forall l elems, a = Ref l -> h !! l = Some (OArr elems) ->
     Q tt (<[l := OArr (elems ++ [x])]> h)) ->
  wp h0 (push a x) Q h.
Proof.
  intros Ha HQ. apply wp_intact; intros Hh.
  destruct a as [p | l]; simpl; [apply wp_throw |].
  apply wp_bind, wp_deref. intros [elems | props] Hl; [| apply wp_throw].
  apply wp_store; [by eapply no_caller_array_outside | intros _; by apply HQ].
Qed.

Lemma wp_unshift a x (Q : unit -> heap -> Prop) h :
  no_caller_array h0 a ->
  (forall l elems, a = Ref l -> h !! l = Some (OArr elems) ->
     Q tt (<[l := OArr (x :: elems)]> h)) ->
  wp h0 (unshift a x) Q h.
Proof.
  intros Ha HQ. apply wp_intact; intros Hh.
  destruct a as [p | l]; simpl; [apply wp_throw |].
  apply wp_bind, wp_deref. intros [elems | props] Hl; [| apply wp_throw].
  apply wp_store; [by eapply no_caller_array_outside | intros _; by apply HQ].
Qed.

Lemma wp_shift a (Q : value -> heap -> Prop) h :
  no_caller_array h0 a ->
  (forall l, a = Ref l -> h !! l = Some (OArr []) -> Q undef h) ->
  (forall l x elems, a = Ref l -> h !! l = Some (OArr (x :: elems)) ->
     Q x (<[l := OArr elems]> h)) ->
  wp h0 (shift a) Q h.
Proof.
  intros Ha Hnil Hcons. apply wp_intact; intros Hh.
  destruct a as [p | l]; simpl; [apply wp_throw |].
  apply wp_bind, wp_deref. intros [[| x elems] | props] Hl; [| | apply wp_throw].
  - apply wp_ret. by apply (Hnil l).
  - apply wp_bind, wp_store; [by eapply no_caller_array_outside |].
    intros _. apply wp_ret. by apply Hcons.
Qed.

Lemma wp_set_prop o key x (Q : unit -> heap -> Prop) h :
  fresh h0 o ->
  (forall l props k, o = Ref l -> h !! l = Some (ORec props) ->
     Q tt (<[l := ORec (obj_set props k x)]> h)) ->
  wp h0 (set_prop o key x) Q h.
Proof.
  intros Ho HQ. unfold set_prop. apply wp_bind, wp_reads; [apply reads_to_key |].
  intros k _. destruct o as [p | l]; [apply wp_unmodelled |].
  apply wp_bind, wp_deref. intros [elems | props] Hl; [apply wp_unmodelled |].
  apply wp_store; [by apply Ho | intros _; by apply HQ].
Qed.

(** ** GridCopier and GridReadDecoder *)

Lemma own_grid_fresh response h : own_grid h0 response h -> fresh h0 response.
Proof. intros (c & rows & -> & Hc & _) l [= <-]. exact Hc. Qed.

Lemma own_grid_alloc response h o : own_grid h0 response h -> own_grid h0 response (h ++ [o]).
Proof.
  intros (c & rows & -> & Hc & Hl & Hrows). exists c, rows.
  repeat split; try done. rewrite lookup_app_l; [done | by eapply lookup_lt_Some].
Qed.

Lemma own_grid_insert_other response h l o :
  response <> Ref l -> own_grid h0 response h -> own_grid h0 response (<[l := o]> h).
Proof.
  intros Hne (c & rows & -> & Hc & Hl & Hrows). exists c, rows.
  repeat split; try done. rewrite list_lookup_insert_ne; [done | congruence].
Qed.

(** [result.push(row)] keeps [result] the call's own grid. *)
Lemma own_grid_push c h row :
  own_grid h0 (Ref c) h -> own_row h0 c row ->
  forall elems, h !! c = Some (OArr elems) ->
  own_grid h0 (Ref c) (<[c := OArr (elems ++ [row])]> h).
Proof.
  intros (c' & rows & [= <-] & Hc & Hl & Hrows) Hrow elems Hl'.
  exists c, (rows ++ [row]). repeat split; [exact Hc | |].
  - rewrite list_lookup_insert_eq by (by eapply lookup_lt_Some). congruence.
  - apply Forall_app. split; [exact Hrows | by apply Forall_singleton].
Qed.

Lemma copyValuesArray_wp values h :
  wp h0 (copyValuesArray values) (fun r h' => own_grid h0 r h') h.
Proof.
  apply wp_intact; intros Hh. pose proof (prefix_length _ _ Hh) as Hlen.
  unfold copyValuesArray. apply wp_bind, wp_alloc.
  apply wp_bind, wp_reads; [apply reads_elements |]. intros rows _.
  set (c := length h).
  apply wp_bind.
  eapply wp_mono;
    [| apply (wp_for_each _ _ (fun h' => own_grid h0 (Ref c) h'))].
  - intros [] h' _ Hown. by apply wp_ret.
  - intros row h' _ Hown. apply wp_intact; intros Hh'.
    assert (Hc : exists elems, h' !! c = Some (OArr elems)).
    { destruct Hown as (c' & rows' & [= <-] & _ & Hl & _). by exists rows'. }
    destruct Hc as [elems0 Hc].
    apply wp_bind, wp_reads; [apply reads_isArray |]. intros [|] HisArr.
    + apply wp_bind, wp_reads; [apply reads_elements |]. intros cells _.
      apply wp_bind, wp_alloc.
      apply wp_push; [by eapply fresh_no_caller_array, own_grid_fresh |].
      intros l elems [= <-] Hl.
      apply own_grid_push; [by apply own_grid_alloc | | exact Hl].
      apply lookup_lt_Some in Hc. split.
      * apply fresh_no_caller_array. intros l' [= <-]. by apply prefix_length.
      * intros [= Heq]. lia.
    + apply wp_push; [by eapply fresh_no_caller_array, own_grid_fresh |].
      intros l elems [= <-] Hl.
      apply own_grid_push; [exact Hown | | exact Hl].
      split; [by eapply isArray_false |].
      intros ->. unfold isArray, bind, deref in HisArr. rewrite Hc in HisArr. discriminate.
  - exists c, []. repeat split; [exact Hlen | | constructor].
    by apply list_lookup_middle.
Qed.

Lemma zip_labels_wp line_labels obj newl h :
  fresh h0 newl -> wp h0 (zip_labels line_labels obj newl) (fun _ _ => True) h.
Proof.
  intros Hnewl. unfold zip_labels.
  apply wp_bind, wp_reads; [apply reads_get_length |]. intros len _.
  destruct len as [[| | | n |] |]; try apply wp_unmodelled; [by apply wp_ret |].
  apply (wp_for_each _ _ (fun _ => True)); [| done].
  intros i h' _ _.
  apply wp_bind, wp_reads; [apply reads_get_index |]. intros label _.
  apply wp_bind, wp_reads; [apply reads_get_index |]. intros cell _.
  by apply wp_set_prop.
Qed.

(** What [response.shift()] leaves behind is still the call's own grid, and
    what it returns is not an array of the caller's. *)
Lemma shift_own_grid_wp response (Q : value -> heap -> Prop) h :
  own_grid h0 response h ->
  (forall v h', no_caller_array h0 v -> v <> response -> own_grid h0 response h' -> Q v h') ->
  wp h0 (shift response) Q h.
Proof.
  intros Hown HQ. pose proof Hown as (c & rows & -> & Hc & Hl & Hrows).
  apply wp_shift; [by eapply fresh_no_caller_array, own_grid_fresh | |].
  - intros l [= <-] _. apply HQ; [by intros ? ? [=] | done | exact Hown].
  - intros l x elems [= <-] Hl'.
    assert (rows = x :: elems) as -> by congruence.
    apply Forall_cons_1 in Hrows as [[Hx Hne] Helems].
    apply HQ; [exact Hx | exact Hne |].
    exists c, elems. repeat split; [exact Hc | | exact Helems].
    rewrite list_lookup_insert_eq by (by eapply lookup_lt_Some). done.
Qed.

Lemma elements_own_grid_wp response (Q : list value -> heap -> Prop) h :
  own_grid h0 response h ->
  (forall rows, Forall (no_caller_array h0) rows -> Q rows h) ->
  wp h0 (elements response) Q h.
Proof.
  intros (c & rows & -> & Hc & Hl & Hrows) HQ.
  apply wp_reads; [apply reads_elements |]. intros rows' Hrun.
  apply elements_ref in Hrun. apply HQ.
  assert (rows' = rows) as -> by congruence.
  eapply Forall_impl; [exact Hrows |]. by intros r [Hr _].
Qed.

Lemma _transformWithBothHeaders_wp response h :
  own_grid h0 response h -> wp h0 (_transformWithBothHeaders response) (fun _ _ => True) h.
Proof.
  intros Hown. apply wp_intact; intros Hh.
  assert (Hobjet : fresh h0 (Ref (length h))) by (intros ? [= <-]; by apply prefix_length).
  unfold _transformWithBothHeaders. apply wp_bind, wp_alloc.
  apply wp_bind, shift_own_grid_wp; [by apply own_grid_alloc |].
  intros line_labels h1 Hlabels Hne Hown1.
  assert (Hrest : forall h2, own_grid h0 response h2 ->
    wp h0 (let* rows := elements response in
        do for_each rows (fun obj =>
             let* newl := alloc (ORec []) in
             let* item := shift obj in
             do zip_labels line_labels obj newl then
             set_prop (Ref (length h)) item newl) then
        ret (Ref (length h))) (fun _ _ => True) h2).
  { intros h2 Hown2. apply wp_bind, elements_own_grid_wp; [exact Hown2 |].
    intros rows Hrows. apply wp_bind.
    eapply wp_mono; [| apply (wp_for_each _ _ (fun _ => True)); [| done]].
    - intros [] h' _ _. by apply wp_ret.
    - intros obj h' Hobj _.
      apply wp_intact; intros Hh'.
      assert (Hnewl : fresh h0 (Ref (length h'))) by (intros ? [= <-]; by apply prefix_length).
      apply wp_bind, wp_alloc.
      apply wp_bind, wp_shift; [by eapply Forall_forall in Hrows | |]; intros;
        apply wp_bind; (eapply wp_mono; [| by apply zip_labels_wp]);
        intros [] h'' _ _; by apply wp_set_prop. }
  apply wp_bind, wp_shift; [exact Hlabels | |].
  - intros l _ _. by apply Hrest.
  - intros l x elems -> _. apply Hrest. apply own_grid_insert_other; [congruence | exact Hown1].
Qed.

Lemma _transformWithSingleHeader_wp response h :
  own_grid h0 response h -> wp h0 (_transformWithSingleHeader response) (fun _ _ => True) h.
Proof.
  intros Hown. apply wp_intact; intros Hh.
  assert (Hobjet : fresh h0 (Ref (length h))) by (intros ? [= <-]; by apply prefix_length).
  unfold _transformWithSingleHeader. apply wp_bind, wp_alloc.
  apply wp_bind, elements_own_grid_wp; [by apply own_grid_alloc |].
  intros rows Hrows. apply wp_bind.
  eapply wp_mono; [| apply (wp_for_each _ _ (fun _ => True)); [| done]].
  - intros [] h' _ _. by apply wp_ret.
  - intros obj h' Hobj _.
    apply wp_bind, wp_shift; [by eapply Forall_forall in Hrows | |]; intros;
      by apply wp_set_prop.
Qed.

Lemma _transformToObjectArray_wp response h :
  own_grid h0 response h -> wp h0 (_transformToObjectArray response) (fun _ _ => True) h.
Proof.
  intros Hown. apply wp_intact; intros Hh.
  assert (Harray : fresh h0 (Ref (length h))) by (intros ? [= <-]; by apply prefix_length).
  unfold _transformToObjectArray. apply wp_bind, wp_alloc.
  apply wp_bind, shift_own_grid_wp; [by apply own_grid_alloc |].
  intros line_labels h1 _ _ Hown1.
  apply wp_bind, elements_own_grid_wp; [exact Hown1 |].
  intros rows Hrows. apply wp_bind.
  eapply wp_mono; [| apply (wp_for_each _ _ (fun _ => True)); [| done]].
  - intros [] h' _ _. by apply wp_ret.
  - intros obj h' Hobj _. apply wp_intact; intros Hh'.
    assert (Hnewl : fresh h0 (Ref (length h'))) by (intros ? [= <-]; by apply prefix_length).
    apply wp_bind, wp_alloc. apply wp_bind.
    eapply wp_mono; [| by apply zip_labels_wp].
    intros [] h'' _ _. apply wp_push; [by apply fresh_no_caller_array | done].
Qed.

Lemma transformGetResponse_wp values cfg majorDimension h :
  wp h0 (transformGetResponse values cfg majorDimension) (fun _ _ => True) h.
Proof.
  unfold transformGetResponse. apply wp_bind.
  eapply wp_mono; [| apply copyValuesArray_wp].
  intros response h1 _ Hown.
  destruct (negb (line cfg) && negb (column cfg)).
  - apply wp_bind, wp_reads; [apply reads_get_length |]. intros len _.
    destruct (is_num len 1); [| by apply wp_ret].
    apply wp_bind, wp_reads; [apply reads_get_index |]. intros first _.
    apply wp_bind, wp_reads; [apply reads_get_length |]. intros len0 _.
    destruct (is_num len0 1); [| by apply wp_ret].
    apply wp_reads; [apply reads_get_index | done].
  - destruct (line cfg && column cfg); [by apply _transformWithBothHeaders_wp |].
    match goal with |- wp h0 (if ?b then _ else _) _ _ => destruct b end.
    + by apply _transformWithSingleHeader_wp.
    + by apply _transformToObjectArray_wp.
Qed.

End frame.

(** ** GridWriteEncoder: what is new in the result *)

(** A callee leaves the whole store of its call as it is, hence the
    caller's. *)
Lemma wp_call h0 {A} (m : M A) (Q' Q : A -> heap -> Prop) h :
  wp h m Q' h ->
  (forall a h', h `prefix_of` h' -> Q' a h' -> Q a h') ->
  wp h0 m Q h.
Proof.
  intros Hm HQ Hh. destruct (Hm (reflexivity h)) as [Hpre Hret].
  split; [by transitivity h | auto].
Qed.

Lemma fresh_ref h0 l : length h0 <= l -> fresh h0 (Ref l).
Proof. by intros H ? [= <-]. Qed.

Lemma is_arr_prefix h h' l : h `prefix_of` h' -> is_arr h l -> is_arr h' l.
Proof. intros Hh [es Hl]. exists es. by eapply prefix_lookup_Some. Qed.

Lemma extract_wp h0 lk lv :
  length h0 <= lk -> length h0 <= lv ->
  forall fuel current prefix h,
    is_arr h lk /\ is_arr h lv ->
    wp h0 (extract fuel (Ref lk) (Ref lv) current prefix)
      (fun _ h' => is_arr h' lk /\ is_arr h' lv) h.
Proof.
  intros Hlk Hlv. induction fuel as [| fuel IH]; intros current prefix h HJ;
    cbn [extract].
  - apply wp_out_of_fuel.
  - apply wp_bind, wp_reads; [apply reads_for_in_keys |]. intros ks _.
    apply (wp_for_each h0 ks _ (fun h' => is_arr h' lk /\ is_arr h' lv)); [| exact HJ].
    intros key h' _ HJ'.
    apply wp_bind, wp_reads; [apply reads_get |]. intros v _.
    apply wp_bind, wp_reads; [apply reads_is_nested |]. intros [|] _.
    + by apply IH.
    + apply wp_bind, wp_push; [by apply fresh_no_caller_array, fresh_ref |].
      intros l elems [= <-] _.
      apply wp_push; [by apply fresh_no_caller_array, fresh_ref |].
      intros l elems' [= <-] _. destruct HJ' as [Hk Hv].
      split; by do 2 apply is_arr_insert.
Qed.

Lemma extractObjectValues_wp h fuel obj :
  wp h (extractObjectValues fuel obj) (new_pair h) h.
Proof.
  unfold extractObjectValues. apply wp_bind, wp_alloc, wp_bind, wp_alloc, wp_bind.
  rewrite length_app; cbn [length].
  eapply wp_mono; [| apply (extract_wp h (length h) (length h + 1)); [lia | lia |]].
  - intros [] h' _ [Hk Hv]. apply wp_ret.
    exists (length h), (length h + 1). repeat split; try done; lia.
  - split.
    + exists []. rewrite <- app_assoc. by apply list_lookup_middle.
    + exists []. apply list_lookup_middle. rewrite length_app; simpl; lia.
Qed.

Lemma select_fields_wp h extracted fs :
  wp h (select_fields extracted fs) (new_array h) h.
Proof.
  unfold select_fields. apply wp_bind, wp_alloc.
  apply wp_bind, wp_reads; [apply reads_elements |]. intros fl _.
  apply wp_bind.
  eapply wp_mono; [| apply (wp_for_each h fl _ (fun h' => is_arr h' (length h)))].
  - intros [] h' _ Harr. apply wp_ret. by exists (length h).
  - intros field h' _ Harr.
    apply wp_bind, wp_reads; [apply reads_elements |]. intros ks _.
    destruct (indexOf field ks) as [i |]; [| by apply wp_ret].
    apply wp_bind, wp_reads; [apply reads_get_index |]. intros v _.
    apply wp_push; [by apply fresh_no_caller_array, fresh_ref |].
    intros l elems [= <-] _. by apply is_arr_insert.
  - exists []. by apply list_lookup_middle.
Qed.

(** *** The grid under construction *)

Lemma new_row_prefix h0 lv h h' row :
  h `prefix_of` h' -> new_row h0 lv h row -> new_row h0 lv h' row.
Proof.
  intros Hh (l & -> & Hl & Hne & Harr). exists l. repeat split; try done.
  by eapply is_arr_prefix.
Qed.

Lemma new_row_insert h0 lv h row l elems :
  new_row h0 lv h row -> new_row h0 lv (<[l := OArr elems]> h) row.
Proof.
  intros (l' & -> & Hl & Hne & Harr). exists l'. repeat split; try done.
  by apply is_arr_insert.
Qed.

Lemma rows_at_prefix h0 lv h h' :
  h `prefix_of` h' -> rows_at h0 lv h -> rows_at h0 lv h'.
Proof.
  intros Hh (Hlen & rows & Hlv & Hrows). split; [exact Hlen |]. exists rows.
  split; [by eapply prefix_lookup_Some |].
  eapply Forall_impl; [exact Hrows |]. intros row. by apply new_row_prefix.
Qed.

Lemma rows_at_insert_other h0 lv h l elems :
  l <> lv -> rows_at h0 lv h -> rows_at h0 lv (<[l := OArr elems]> h).
Proof.
  intros Hne (Hlen & rows & Hlv & Hrows). split; [exact Hlen |]. exists rows.
  split; [by rewrite list_lookup_insert_ne |].
  eapply Forall_impl; [exact Hrows |]. intros row. by apply new_row_insert.
Qed.

Lemma rows_at_push h0 lv h row elems :
  rows_at h0 lv h -> new_row h0 lv h row -> h !! lv = Some (OArr elems) ->
  rows_at h0 lv (<[lv := OArr (elems ++ [row])]> h).
Proof.
  intros (Hlen & rows & Hlv & Hrows) Hrow Hlv'.
  assert (rows = elems) as -> by congruence.
  split; [exact Hlen |]. exists (elems ++ [row]).
  split; [apply list_lookup_insert_eq; by eapply lookup_lt_Some |].
  apply Forall_app. split; [| apply Forall_singleton; by apply new_row_insert].
  eapply Forall_impl; [exact Hrows |]. intros r. by apply new_row_insert.
Qed.

Lemma rows_at_unshift h0 lv h row elems :
  rows_at h0 lv h -> new_row h0 lv h row -> h !! lv = Some (OArr elems) ->
  rows_at h0 lv (<[lv := OArr (row :: elems)]> h).
Proof.
  intros (Hlen & rows & Hlv & Hrows) Hrow Hlv'.
  assert (rows = elems) as -> by congruence.
  split; [exact Hlen |]. exists (row :: elems).
  split; [apply list_lookup_insert_eq; by eapply lookup_lt_Some |].
  apply Forall_cons. split; [by apply new_row_insert |].
  eapply Forall_impl; [exact Hrows |]. intros r. by apply new_row_insert.
Qed.

Lemma new_row_no_caller_array h0 lv h row :
  new_row h0 lv h row -> no_caller_array h0 row.
Proof. intros (l & -> & Hl & _). by apply fresh_no_caller_array, fresh_ref. Qed.

Lemma building_prefix h0 lv aux h h' :
  h `prefix_of` h' -> building h0 lv aux h -> building h0 lv aux h'.
Proof.
  intros Hh [Hr Hf]. split; [by eapply rows_at_prefix |].
  eapply Forall_impl; [exact Hf |]. intros r. by apply new_row_prefix.
Qed.

Lemma building_lv h0 lv aux h : building h0 lv aux h -> lv < length h.
Proof. intros [(_ & rows & Hlv & _) _]. by eapply lookup_lt_Some. Qed.

Lemma building_insert_other h0 lv aux h l elems :
  l <> lv -> building h0 lv aux h -> building h0 lv aux (<[l := OArr elems]> h).
Proof.
  intros Hne [Hr Hf]. split; [by apply rows_at_insert_other |].
  eapply Forall_impl; [exact Hf |]. intros r. by apply new_row_insert.
Qed.

(** A row made by a callee and pushed to the outer array. *)
Lemma new_array_new_row h0 lv aux h h' row :
  h0 `prefix_of` h -> building h0 lv aux h -> new_array h row h' ->
  new_row h0 lv h' row.
Proof.
  intros Hh Hb (l & -> & Hl & Harr). apply building_lv in Hb.
  apply prefix_length in Hh. exists l. repeat split; [lia | lia | exact Harr].
Qed.

Lemma push_row_wp h0 lv aux row h :
  building h0 lv aux h -> new_row h0 lv h row ->
  wp h0 (push (Ref lv) row) (fun _ h' => building h0 lv aux h') h.
Proof.
  intros [Hr Hf] Hrow. apply wp_push.
  - apply fresh_no_caller_array, fresh_ref. by destruct Hr.
  - intros l elems [= <-] Hl. split; [by apply rows_at_push |].
    eapply Forall_impl; [exact Hf |]. intros r. by apply new_row_insert.
Qed.

Lemma unshift_row_wp h0 lv aux row h :
  building h0 lv aux h -> new_row h0 lv h row ->
  wp h0 (unshift (Ref lv) row) (fun _ h' => building h0 lv aux h') h.
Proof.
  intros [Hr Hf] Hrow. apply wp_unshift.
  - apply fresh_no_caller_array, fresh_ref. by destruct Hr.
  - intros l elems [= <-] Hl. split; [by apply rows_at_unshift |].
    eapply Forall_impl; [exact Hf |]. intros r. by apply new_row_insert.
Qed.

(** A write to one of the other arrays of the call, or to a row. *)
Lemma push_other_wp h0 lv aux a x h :
  building h0 lv aux h -> new_row h0 lv h a ->
  wp h0 (push a x) (fun _ h' => building h0 lv aux h') h.
Proof.
  intros Hb Ha. apply wp_push; [by eapply new_row_no_caller_array |].
  intros l elems -> _. destruct Ha as (l' & [= <-] & _ & Hne & _).
  by apply building_insert_other.
Qed.

Lemma unshift_other_wp h0 lv aux a x h :
  building h0 lv aux h -> (a = undef \/ new_row h0 lv h a) ->
  wp h0 (unshift a x) (fun _ h' => building h0 lv aux h') h.
Proof.
  intros Hb [-> | Ha]; [apply wp_throw |].
  apply wp_unshift; [by eapply new_row_no_caller_array |].
  intros l elems -> _. destruct Ha as (l' & [= <-] & _ & Hne & _).
  by apply building_insert_other.
Qed.

(** [values[i]] is a row of the grid, or undefined. *)
Lemma get_row_wp h0 lv aux i (Q : value -> heap -> Prop) h :
  building h0 lv aux h ->
  (forall row, row = undef \/ new_row h0 lv h row -> Q row h) ->
  wp h0 (get_index (Ref lv) i) Q h.
Proof.
  intros [(_ & rows & Hlv & Hrows) _] HQ.
  apply wp_reads; [apply reads_get_index |]. intros row Hrun.
  apply HQ. destruct (get_index_ref _ _ _ _ _ _ Hlv Hrun) as [-> | Hin]; [by left | right].
  by eapply Forall_forall in Hrows.
Qed.

(** [values.push(extracted.values)] after an extraction, and
    [values.unshift(extracted.keys)] likewise. *)
Lemma extract_then_wp h0 lv aux fuel obj (k : value * value -> M unit) h :
  building h0 lv aux h ->
  (forall kv h', building h0 lv aux h' ->
     new_row h0 lv h' (fst kv) -> new_row h0 lv h' (snd kv) ->
     wp h0 (k kv) (fun _ h'' => building h0 lv aux h'') h') ->
  wp h0 (let* extracted := extractObjectValues fuel obj in k extracted)
    (fun _ h' => building h0 lv aux h') h.
Proof.
  intros Hb Hk. apply wp_intact; intros Hh. apply wp_bind.
  eapply wp_call; [apply extractObjectValues_wp |].
  intros kv h' Hh' (lk & lv' & -> & Hlk & Hlv' & Hk' & Hv').
  apply Hk; [by eapply building_prefix | |].
  - eapply (new_array_new_row h0 lv aux h h'); [done | done |]. by exists lk.
  - eapply (new_array_new_row h0 lv aux h h'); [done | done |]. by exists lv'.
Qed.

Lemma select_then_wp h0 lv aux extracted f (k : value -> M unit) h :
  building h0 lv aux h ->
  (forall row h', building h0 lv aux h' -> new_row h0 lv h' row ->
     wp h0 (k row) (fun _ h'' => building h0 lv aux h'') h') ->
  wp h0 (let* row := select_fields extracted f in k row)
    (fun _ h' => building h0 lv aux h') h.
Proof.
  intros Hb Hk. apply wp_intact; intros Hh. apply wp_bind.
  eapply wp_call; [apply select_fields_wp |].
  intros row h' Hh' Hrow.
  apply Hk; [by eapply building_prefix |].
  by eapply (new_array_new_row h0 lv aux h h').
Qed.

Lemma fields_given_new_row h0 h fs k :
  fields_given h0 h fs ->
  Forall (new_row h0 (length h) (h ++ k)) (option_list fs).
Proof.
  destruct fs as [f |]; [| constructor]. intros (lf & -> & Hlf & Harr).
  apply Forall_singleton. exists lf. repeat split; [exact Hlf | | by apply is_arr_app].
  destruct Harr as [es Hes]. apply lookup_lt_Some in Hes. lia.
Qed.

Lemma building_start h0 h fs :
  h0 `prefix_of` h -> fields_given h0 h fs ->
  building h0 (length h) (option_list fs) (h ++ [OArr []]).
Proof.
  intros Hh Hfs. split; [| by apply fields_given_new_row].
  split; [by apply prefix_length |]. exists [].
  split; [by apply list_lookup_middle | constructor].
Qed.

Lemma transformArrayOfObjects_wp h0 fuel rows cfg fs h :
  fields_given h0 h fs ->
  wp h0 (transformArrayOfObjects fuel rows cfg fs) (new_grid h0) h.
Proof.
  intros Hfs. apply wp_intact; intros Hh.
  pose proof (building_start h0 h fs Hh Hfs) as Hstart.
  unfold transformArrayOfObjects. apply wp_bind, wp_alloc.
  set (lv := length h) in *. set (aux := option_list fs) in *.
  assert (Hdone : forall h', building h0 lv aux h' -> wp h0 (ret (Ref lv)) (new_grid h0) h').
  { intros h' [Hr _]. apply wp_ret. by exists lv. }
  destruct (is_string (fields cfg) "all").
  - apply wp_bind, wp_reads; [apply reads_elements |]. intros objs _.
    apply wp_bind.
    eapply wp_mono; [| apply (wp_for_each h0 objs _ (building h0 lv aux)); [| exact Hstart]].
    + intros [] h1 _ Hb1. apply wp_bind.
      destruct (is_string (method cfg) "new" && line cfg).
      * apply wp_bind, wp_reads; [apply reads_get_index |]. intros first _.
        eapply wp_mono; [| apply (extract_then_wp h0 lv aux); [exact Hb1 |]].
        -- intros [] h2 _ Hb2. by apply Hdone.
        -- intros kv h2 Hb2 Hkeys _. by apply unshift_row_wp.
      * apply wp_ret. by apply Hdone.
    + intros obj h1 _ Hb1. apply extract_then_wp; [exact Hb1 |].
      intros kv h2 Hb2 _ Hvals. by apply push_row_wp.
  - destruct fs as [f |]; [| by apply Hdone].
    apply wp_bind, wp_reads; [apply reads_elements |]. intros objs _.
    apply wp_bind.
    eapply wp_mono; [| apply (wp_for_each h0 objs _ (building h0 lv aux)); [| exact Hstart]].
    + intros [] h1 _ Hb1. apply wp_bind.
      destruct (is_string (method cfg) "new" && line cfg).
      * eapply wp_mono; [| apply unshift_row_wp; [exact Hb1 |]].
        -- intros [] h2 _ Hb2. by apply Hdone.
        -- destruct Hb1 as [_ Haux]. unfold aux in Haux; simpl in Haux.
           by apply Forall_inv in Haux.
      * apply wp_ret. by apply Hdone.
    + intros obj h1 _ Hb1. apply extract_then_wp; [exact Hb1 |].
      intros kv h2 Hb2 _ _. apply select_then_wp; [exact Hb2 |].
      intros row h3 Hb3 Hrow. by apply push_row_wp.
Qed.

Lemma label_rows_wp h0 lv aux off labels h :
  building h0 lv aux h ->
  wp h0 (label_rows (Ref lv) off labels) (fun _ h' => building h0 lv aux h') h.
Proof.
  intros Hb. unfold label_rows. apply wp_for_each; [| exact Hb].
  intros il h' _ Hb'. apply wp_bind, (get_row_wp h0 lv aux); [exact Hb' |].
  intros row Hrow. by apply unshift_other_wp.
Qed.

Lemma addColumnLabels_wp h0 lv aux labels hasLineHeaders h :
  building h0 lv aux h ->
  wp h0 (addColumnLabels (Ref lv) labels hasLineHeaders)
    (fun _ h' => building h0 lv aux h') h.
Proof.
  intros Hb. unfold addColumnLabels. destruct hasLineHeaders.
  - apply wp_bind, (get_row_wp h0 lv aux); [exact Hb |]. intros first Hfirst.
    apply wp_bind.
    eapply wp_mono; [| by apply unshift_other_wp].
    intros [] h1 _ Hb1.
    apply wp_bind, wp_reads; [apply reads_elements |]. intros ls _.
    by apply label_rows_wp.
  - apply wp_bind, wp_reads; [apply reads_elements |]. intros ls _.
    by apply label_rows_wp.
Qed.

Lemma transformObjectOfObjects_wp h0 fuel data cfg fs h :
  fields_given h0 h fs ->
  wp h0 (transformObjectOfObjects fuel data cfg fs) (new_grid h0) h.
Proof.
  intros Hfs. apply wp_intact; intros Hh. pose proof (prefix_length _ _ Hh) as Hlen.
  unfold transformObjectOfObjects. apply wp_bind, wp_alloc, wp_bind, wp_alloc.
  rewrite length_app; cbn [length].
  set (lv := length h) in *. set (labels := Ref (lv + 1)).
  set (aux := labels :: option_list fs).
  assert (Hlabels : forall h', building h0 lv aux h' -> new_row h0 lv h' labels).
  { intros h' [_ Haux]. by apply Forall_cons_1 in Haux as [? _]. }
  assert (Hstart : building h0 lv aux ((h ++ [OArr []]) ++ [OArr []])).
  { split.
    - split; [exact Hlen |]. exists [].
      split; [| constructor]. rewrite <- app_assoc. by apply list_lookup_middle.
    - apply Forall_cons. split.
      + exists (lv + 1). repeat split; [lia | lia |].
        exists []. apply list_lookup_middle. rewrite length_app; simpl; lia.
      + rewrite <- app_assoc. by apply fields_given_new_row. }
  assert (Hdone : forall h', building h0 lv aux h' -> wp h0 (ret (Ref lv)) (new_grid h0) h').
  { intros h' [Hr _]. apply wp_ret. by exists lv. }
  assert (Hcolumn : forall h', building h0 lv aux h' ->
    wp h0 (if column cfg then addColumnLabels (Ref lv) labels (line cfg) else ret tt)
      (fun _ h'' => building h0 lv aux h'') h').
  { intros h' Hb. destruct (column cfg); [by apply addColumnLabels_wp | by apply wp_ret]. }
  destruct (is_string (fields cfg) "all").
  - apply wp_bind, wp_reads; [apply reads_for_in_keys |]. intros ks _.
    apply wp_bind.
    eapply wp_mono; [| apply (wp_for_each h0 ks _ (building h0 lv aux)); [| exact Hstart]].
    + intros [] h1 _ Hb1. apply wp_bind.
      eapply wp_mono with (Q := fun _ h' => building h0 lv aux h');
        [intros [] h2 _ Hb2; by apply Hdone |].
      destruct (is_string (method cfg) "new"); [| by apply wp_ret].
      apply wp_bind.
      eapply wp_mono with (Q := fun _ h' => building h0 lv aux h');
        [intros [] h2 _ Hb2; by apply Hcolumn |].
      destruct (line cfg); [| by apply wp_ret].
      apply wp_bind, wp_reads; [apply reads_get_index |]. intros l0 _.
      apply wp_bind, wp_reads; [apply reads_to_key |]. intros k0 _.
      apply wp_bind, wp_reads; [apply reads_get |]. intros entry _.
      apply extract_then_wp; [exact Hb1 |].
      intros kv h2 Hb2 Hkeys _. by apply unshift_row_wp.
    + intros key h1 _ Hb1.
      apply wp_bind, wp_reads; [apply reads_get |]. intros entry _.
      apply extract_then_wp; [exact Hb1 |].
      intros kv h2 Hb2 _ Hvals. apply wp_bind.
      eapply wp_mono; [| by apply push_row_wp].
      intros [] h3 _ Hb3. apply push_other_wp; [exact Hb3 | by apply Hlabels].
  - destruct fs as [f |]; [| by apply Hdone].
    assert (Hf : forall h', building h0 lv aux h' -> new_row h0 lv h' f).
    { intros h' [_ Haux]. apply Forall_cons_1 in Haux as [_ Haux].
      simpl in Haux. by apply Forall_inv in Haux. }
    apply wp_bind, wp_reads; [apply reads_for_in_keys |]. intros ks _.
    apply wp_bind.
    eapply wp_mono; [| apply (wp_for_each h0 ks _ (building h0 lv aux)); [| exact Hstart]].
    + intros [] h1 _ Hb1. apply wp_bind.
      eapply wp_mono with (Q := fun _ h' => building h0 lv aux h');
        [intros [] h2 _ Hb2; by apply Hdone |].
      destruct (is_string (method cfg) "new"); [| by apply wp_ret].
      apply wp_bind.
      eapply wp_mono with (Q := fun _ h' => building h0 lv aux h');
        [intros [] h2 _ Hb2; by apply Hcolumn |].
      destruct (line cfg); [| by apply wp_ret].
      apply unshift_row_wp; [exact Hb1 | by apply Hf].
    + intros key h1 _ Hb1.
      apply wp_bind, wp_reads; [apply reads_get |]. intros entry _.
      apply extract_then_wp; [exact Hb1 |].
      intros kv h2 Hb2 _ _. apply select_then_wp; [exact Hb2 |].
      intros row h3 Hb3 Hrow. apply wp_bind.
      eapply wp_mono; [| by apply push_row_wp].
      intros [] h4 _ Hb4. apply push_other_wp; [exact Hb4 | by apply Hlabels].
Qed.

Lemma reads_if {A} (b : bool) (m1 m2 : M A) :
  reads m1 -> reads m2 -> reads (if b then m1 else m2).
Proof. by destruct b. Qed.

(** [[[v]]]: two new arrays. *)
Lemma wrap_wp h0 v h :
  wp h0 (let* inner := alloc (OArr [v]) in alloc (OArr [inner])) (new_grid h0) h.
Proof.
  apply wp_intact; intros Hh. pose proof (prefix_length _ _ Hh) as Hlen.
  apply wp_bind, wp_alloc, wp_alloc.
  exists (length (h ++ [OArr [v]])). split; [reflexivity |].
  rewrite length_app; cbn [length]. split; [lia |].
  exists [Ref (length h)]. split.
  - apply list_lookup_middle. rewrite length_app; simpl; lia.
  - apply Forall_singleton. exists (length h). repeat split; [lia | lia |].
    exists [v]. rewrite <- app_assoc. by apply list_lookup_middle.
Qed.

Lemma isArray_true v h h' :
  isArray v h = (h', Ret true) -> exists l elems, v = Ref l /\ h !! l = Some (OArr elems).
Proof.
  destruct v as [p | l]; [discriminate |]. unfold isArray, bind, deref, ret.
  destruct (h !! l) as [[elems | props] |] eqn:E; try discriminate. intros _. eauto.
Qed.

(** What [transform] returns is its argument itself, when that is an array
    of arrays, or a new grid. *)
Lemma transform_wp h fuel data cfg :
  wp h (transform fuel data cfg)
    (fun r h' => (r = data /\ array_of_arrays h' data) \/ new_grid h r h') h.
Proof.
  unfold transform. apply wp_bind.
  apply (wp_mono h _ (fun fs h' => fields_given h h' fs)).
  - intros fs h1 _ Hfs.
    destruct (negb (prim_null_or_undef data) && negb (typeof_object data)).
    { eapply wp_mono; [| apply wrap_wp]. intros r h2 _ Hr. by right. }
    apply wp_bind, wp_reads; [apply reads_isArray |]. intros isArr HisArr.
    apply wp_bind, wp_reads;
      [apply reads_if; [apply reads_get_length | apply reads_ret] |]. intros len _.
    apply wp_bind, wp_reads;
      [apply reads_if; [apply reads_get_index | apply reads_ret] |]. intros first Hfirst.
    apply wp_bind, wp_reads;
      [apply reads_if; [apply reads_isArray | apply reads_ret] |].
    intros firstIsArr HfirstIsArr.
    destruct (isArr && positive_length len && firstIsArr) eqn:Hpass.
    { apply wp_ret. left. split; [reflexivity |].
      apply andb_prop in Hpass as [Hpass ->]. apply andb_prop in Hpass as [-> _].
      destruct (isArray_true _ _ _ HisArr) as (l & elems & -> & Hl).
      destruct (isArray_true _ _ _ HfirstIsArr) as (lf & es & -> & Hlf).
      unfold get_index in Hfirst. rewrite (run_bind _ _ _ _ _ (run_deref _ _ _ Hl)) in Hfirst.
      injection Hfirst as Hfirst.
      destruct elems as [| e rest]; [discriminate |]. simpl in Hfirst. subst e.
      exists l, lf, rest. repeat split; [exact Hl | by exists es]. }
    destruct (isArr && is_num len 1 && negb (typeof_object first)).
    { eapply wp_mono; [| apply wrap_wp]. intros r h2 _ Hr. by right. }
    destruct (isArr && positive_length len).
    { eapply wp_mono; [| by apply transformArrayOfObjects_wp]. intros r h2 _ Hr. by right. }
    destruct (typeof_object data); [| apply wp_throw].
    apply wp_bind, wp_reads; [apply reads_get_length |]. intros len' _.
    destruct (is_undefined len'); [| apply wp_throw].
    eapply wp_mono; [| by apply transformObjectOfObjects_wp]. intros r h2 _ Hr. by right.
  - destruct (selected_fields cfg) as [fs |]; [| by apply wp_ret].
    apply wp_bind, wp_alloc, wp_ret. exists (length h).
    repeat split; [lia |]. eexists. by apply list_lookup_middle.
Qed.

(** ** GridWriteEncoder and the caller's input *)

Lemma reachable_allocated h v l : reachable h v l -> l < length h.
Proof. induction 1; [by eapply lookup_lt_Some | done | done]. Qed.

(** C4, as the code has it.  The encoder never writes to an object of the
    caller's store.  It returns its argument itself only when that is an
    array whose first element is an array.  Whenever it returns something
    else, the outer array and every row array of the result are new: they
    are no objects of the caller's store, so none of them is part of the
    input value, and writing to any of them leaves every object of the
    caller's store as it is. *)
Theorem encoded_rows_are_new fuel data cfg h h' r :
  transform fuel data cfg h = (h', Ret r) ->
  (forall l o, h !! l = Some o -> h' !! l = Some o)
  /\ (r = data -> (forall l, data = Ref l -> l < length h) -> array_of_arrays h' data)
  /\ (r <> data ->
      forall l, outer_or_row h' r l ->
        h !! l = None
        /\ ~ reachable h data l
        /\ forall o l' o', h !! l' = Some o' -> <[l := o]> h' !! l' = Some o').
Proof.
  intros Hrun.
  destruct (transform_wp h fuel data cfg (reflexivity h)) as [Hpre Hret].
  rewrite Hrun in Hpre, Hret. simpl in Hpre, Hret.
  split; [intros l o Hl; by eapply prefix_lookup_Some |]. split.
  { intros -> Hdata.
    destruct (Hret data eq_refl) as [[_ H] | (lv & -> & Hlen & _)]; [exact H |].
    specialize (Hdata lv eq_refl). lia. }
  intros Hne l Hl.
  destruct (Hret r eq_refl) as [[-> _] | (lv & -> & Hlen & rows & Hlv & Hrows)]; [done |].
  assert (Hnew : length h <= l).
  { destruct Hl as [[= <-] | (lo & rows' & [= <-] & Hlo & Hin)]; [exact Hlen |].
    assert (rows' = rows) as -> by congruence.
    rewrite Forall_forall in Hrows.
    by destruct (Hrows _ Hin) as (l' & [= <-] & Hl' & _). }
  split; [by apply lookup_ge_None_2 |]. split.
  - intros Hreach. apply reachable_allocated in Hreach. lia.
  - intros o l' o' Hl'. eapply prefix_lookup_Some; [exact Hl' |].
    by apply prefix_insert_outside.
Qed.

Lemma encoded_rows_are_new_witness :
  let cfg := mkConfig (Some "all") None (Some "append") false false None in
  let h' := john_store ++ [OArr [Ref 4]; OArr [str "name"; str "age"];
                           OArr [str "John"; num 30]] in
  transform 2 (Ref 1) cfg john_store = (h', Ret (Ref 2))
  /\ john_store !! 4 = None
  /\ ~ reachable john_store (Ref 1) 4
  /\ forall o l' o', john_store !! l' = Some o' -> <[4 := o]> h' !! l' = Some o'.
Proof.
  split; [reflexivity |].
  apply (proj2 (proj2 (encoded_rows_are_new 2 (Ref 1)
                  (mkConfig (Some "all") None (Some "append") false false None)
                  john_store _ (Ref 2) eq_refl))); [discriminate |].
  right. exists 2, [Ref 4]. repeat split. apply list_elem_of_here.
Defined.

(** C4 as it is written fails twice over.  An array whose first element is
    an array is returned as it is: the outer array of the result is the
    input itself.  And a field that holds an array is pushed as it is: the
    cell of the result is the array of the input record. *)
Lemma encoder_shares_with_input :
  let cfg := mkConfig (Some "all") None (Some "append") false false None in
  (transform 2 (Ref 2) cfg grid_store = (grid_store, Ret (Ref 2))
   /\ ~ shares_nothing grid_store (Ref 2) grid_store (Ref 2))
  /\ (let h' := items_store ++ [OArr [Ref 5]; OArr [str "items"]; OArr [Ref 0]] in
      transform 2 (Ref 2) cfg items_store = (h', Ret (Ref 3))
      /\ ~ shares_nothing items_store (Ref 2) h' (Ref 3)).
Proof.
  split; (split; [reflexivity |]); intros H.
  - apply (H 2); [by left; left |]. by eapply reach_self.
  - apply (H 0).
    + right. exists 3, [Ref 5], 5, [Ref 0].
      repeat split; try reflexivity; try apply list_elem_of_here. by eexists.
    + eapply reach_elem; [reflexivity | apply list_elem_of_here |].
      eapply reach_prop; [reflexivity | apply list_elem_of_here |].
      by eapply reach_self.
Qed.

(** The copy is made whenever the argument is an array whose rows are values
    of the store. *)
Lemma copy_loop_returns c rows : forall h,
  is_arr h c ->
  Forall (fun row => forall l, row = Ref l -> l < length h) rows ->
  exists h',
    for_each rows (fun row =>
      let* isArr := isArray row in
      if isArr then
        let* cells := elements row in
        let* copy := alloc (OArr cells) in
        push (Ref c) copy
      else push (Ref c) row) h = (h', Ret tt).
Proof.
  induction rows as [| row rows IH]; intros h [elems Hc] Hrows; [by eexists |].
  apply Forall_cons_1 in Hrows as [Hrow Hrows].
  pose proof (lookup_lt_Some _ _ _ Hc) as Hlt.
  assert (Hstep : exists h1,
    (let* isArr := isArray row in
     if isArr then
       let* cells := elements row in
       let* copy := alloc (OArr cells) in
       push (Ref c) copy
     else push (Ref c) row) h = (h1, Ret tt)
    /\ is_arr h1 c /\ length h <= length h1).
  { assert (Hpush : forall x, exists h1,
      push (Ref c) x h = (h1, Ret tt) /\ is_arr h1 c /\ length h <= length h1).
    { intros x. eexists. split; [by apply run_push |].
      split; [by apply is_arr_insert; exists elems | by rewrite length_insert]. }
    destruct row as [p | l].
    - rewrite (run_bind _ _ _ _ _ (run_isArray_prim h p)). apply Hpush.
    - destruct (lookup_lt_is_Some_2 h l (Hrow l eq_refl)) as [[cells | props] Hl];
        rewrite (run_bind _ _ _ _ _ (run_isArray_ref _ _ _ Hl)); [| apply Hpush].
      rewrite (run_bind _ _ _ _ _ (run_elements _ _ _ Hl)).
      unfold bind at 1, alloc.
      eexists. split; [apply run_push; by apply lookup_app_l_Some |].
      split; [apply is_arr_insert, is_arr_app; by exists elems |].
      rewrite length_insert, length_app. lia. }
  destruct Hstep as (h1 & Hrun & Harr & Hlen).
  destruct (IH h1 Harr) as [h' Hrest].
  { eapply Forall_impl; [exact Hrows |]. intros r Hr l ->. specialize (Hr l eq_refl). lia. }
  exists h'. cbn [for_each]. by rewrite (run_bind _ _ _ _ _ Hrun).
Qed.

Lemma copyValuesArray_returns h g rows :
  h !! g = Some (OArr rows) ->
  Forall (fun row => forall l, row = Ref l -> l < length h) rows ->
  exists h1, copyValuesArray (Ref g) h = (h1, Ret (Ref (length h))).
Proof.
  intros Hg Hrows.
  destruct (copy_loop_returns (length h) rows (h ++ [OArr []])) as [h1 Hloop].
  - exists []. by apply list_lookup_middle.
  - eapply Forall_impl; [exact Hrows |]. intros r Hr l ->.
    specialize (Hr l eq_refl). rewrite length_app. lia.
  - exists h1. unfold copyValuesArray, bind at 1, alloc.
    rewrite (run_bind _ _ _ _ _ (run_elements _ g rows (lookup_app_l_Some _ _ _ _ Hg))).
    by rewrite (run_bind _ _ _ _ _ Hloop).
Qed.

(** ** GridReadDecoder leaves the grid it is given as it is *)

(** C6. For every grid in the store, every header configuration and every
    major dimension, after the decode call the grid has the same rows, and
    every row array the same length and the same cells, as before; indeed
    every object of the caller's store is as it was, however the call ends.
    The reason is the first step: the copy is a new outer array, no array
    among its rows is one of the caller's, and only objects made during the
    call are written to. *)
Theorem decode_leaves_grid_unchanged h g rows cfg majorDimension :
  h !! g = Some (OArr rows) ->
  Forall (fun row => forall l, row = Ref l -> l < length h) rows ->
  let h' := fst (transformGetResponse (Ref g) cfg majorDimension h) in
  h' !! g = Some (OArr rows)
  /\ (forall l cells, Ref l ∈ rows -> h !! l = Some (OArr cells) ->
        h' !! l = Some (OArr cells))
  /\ (forall l o, h !! l = Some o -> h' !! l = Some o)
  /\ (exists h1 c copies,
        copyValuesArray (Ref g) h = (h1, Ret (Ref c))
        /\ h !! c = None
        /\ h1 !! c = Some (OArr copies)
        /\ Forall (fun row => forall l, row = Ref l -> is_arr h1 l -> h !! l = None) copies).
Proof.
  intros Hg Hrows h'.
  assert (Hframe : forall l o, h !! l = Some o -> h' !! l = Some o).
  { intros l o Hl. eapply prefix_lookup_Some; [exact Hl |].
    by apply (transformGetResponse_wp h (Ref g) cfg majorDimension h). }
  split; [by apply Hframe |]. split; [intros l cells _; by apply Hframe |].
  split; [exact Hframe |].
  destruct (copyValuesArray_returns h g rows Hg Hrows) as [h1 Hcopy].
  destruct (copyValuesArray_wp h (Ref g) h) as [Hpre Hret]; [done |].
  rewrite Hcopy in Hpre, Hret. simpl in Hpre, Hret.
  destruct (Hret _ eq_refl) as (c & copies & [= <-] & Hc & Hl & Hown).
  exists h1, (length h), copies. split; [exact Hcopy |].
  split; [by apply lookup_ge_None_2 |]. split; [exact Hl |].
  eapply Forall_impl; [exact Hown |]. intros row [Hrow _] l -> [cells Hcells].
  apply lookup_ge_None_2. by eapply (no_caller_array_outside h h1).
Qed.

Lemma decode_leaves_grid_unchanged_witness :
  let cfg := mkConfig None None None true false None in
  let run := transformGetResponse (Ref 2) cfg (str "ROWS") grid_store in
  (grid_store !! 2 = Some (OArr [Ref 0; Ref 1])
   /\ Forall (fun row => forall l, row = Ref l -> l < length grid_store) [Ref 0; Ref 1])
  /\ snd run = Ret (Ref 6)
  /\ fst run !! 6 = Some (ORec [("name", Ref 4); ("John", Ref 5)])
  /\ fst run !! 2 = Some (OArr [Ref 0; Ref 1])
  /\ fst run !! 0 = Some (OArr [str "name"; str "age"])
  /\ fst run !! 1 = Some (OArr [str "John"; num 30]).
Proof.
  assert (Hrows : Forall (fun row => forall l, row = Ref l -> l < length grid_store)
                    [Ref 0; Ref 1]).
  { repeat (apply List.Forall_cons; [intros l [= <-]; simpl; lia |]). apply List.Forall_nil. }
  pose proof (decode_leaves_grid_unchanged grid_store 2 [Ref 0; Ref 1]
                (mkConfig None None None true false None) (str "ROWS") eq_refl Hrows)
    as (Hg & _ & Hall & _).
  split; [split; [reflexivity | exact Hrows] |].
  split; [reflexivity |]. split; [reflexivity |]. split; [exact Hg |].
  split; apply Hall; reflexivity.
Defined.

End HeapFacts.

(** * The two embeddings on the same inputs *)

Module Agreement.
Import Heap HeapSpec.

(** On the inputs of the examples above, the store embedding returns what
    the tree embedding returns. *)

Example encode_records_agree :
  run_on_tree PureSpec.john_jane (fun x => transform 2 x PureSpec.all_new_line)
  = returned (Pure.transform PureSpec.john_jane PureSpec.all_new_line).
Proof. reflexivity. Qed.

Example encode_mapping_agree :
  let cfg := mkConfig (Some "all") None (Some "new") true true None in
  run_on_tree (Pure.Obj PureSpec.user1) (fun x => transform 2 x cfg)
  = returned (Pure.transform (Pure.Obj PureSpec.user1) cfg).
Proof. reflexivity. Qed.

Example encode_selected_agree :
  let cfg := mkConfig None (Some ["age"; "name"]) (Some "new") true true None in
  run_on_tree (Pure.Obj PureSpec.user1) (fun x => transform 2 x cfg)
  = returned (Pure.transform (Pure.Obj PureSpec.user1) cfg).
Proof. reflexivity. Qed.

Example encode_nested_agree :
  let data :=
    Pure.Arr [Pure.Obj [("user", Pure.Obj [("name", Pure.str "John");
                                            ("tags", Pure.Arr [Pure.num 1; Pure.num 2])]);
                        ("a", Pure.Obj [("length", Pure.num 2); ("x", Pure.num 1)])]] in
  run_on_tree data (fun x => transform 3 x PureSpec.all_new_line)
  = returned (Pure.transform data PureSpec.all_new_line).
Proof. reflexivity. Qed.

Example decode_rows_agree :
  run_on_tree (Pure.grid_of PureSpec.john_jane_grid)
    (fun x => transformGetResponse x PureSpec.line_only (str "ROWS"))
  = returned (Pure.transformGetResponse PureSpec.john_jane_grid PureSpec.line_only
                (Pure.str "ROWS")).
Proof. reflexivity. Qed.

Example decode_columns_agree :
  run_on_tree (Pure.grid_of PureSpec.john_jane_grid)
    (fun x => transformGetResponse x PureSpec.line_only (str "COLUMNS"))
  = returned (Pure.transformGetResponse PureSpec.john_jane_grid PureSpec.line_only
                (Pure.str "COLUMNS")).
Proof. reflexivity. Qed.

Example decode_both_headers_agree :
  let cfg := mkConfig None None None true true None in
  let grid := [[Pure.str ""; Pure.str "col1"; Pure.str "col2"];
               [Pure.str "row1"; Pure.num 1; Pure.num 2];
               [Pure.str "row2"; Pure.num 3; Pure.num 4]] in
  run_on_tree (Pure.grid_of grid) (fun x => transformGetResponse x cfg (str "ROWS"))
  = returned (Pure.transformGetResponse grid cfg (Pure.str "ROWS")).
Proof. reflexivity. Qed.

Example decode_single_cell_agree :
  run_on_tree (Pure.grid_of [[Pure.num 42]])
    (fun x => transformGetResponse x PureSpec.no_headers (str "ROWS"))
  = returned (Pure.transformGetResponse [[Pure.num 42]] PureSpec.no_headers
                (Pure.str "ROWS")).
Proof. reflexivity. Qed.

End Agreement.

(** * Properties of the dotted paths *)

Module DottedFacts.
Import Pure Dotted.

(** ** Property lists *)

Lemma array_index_canonical k n : array_index k = Some n -> k = pretty n.
Proof.
  unfold array_index. destruct k as [| c k]; [discriminate |].
  destruct (parse_digits (String c k) 0) as [m |]; [| discriminate].
  destruct (String.eqb (pretty m) (String c k)) eqn:E; [| discriminate].
  destruct (m <? 4294967295)%N; [| discriminate].
  apply String.eqb_eq in E. cbn [andb]. intros [= <-]. by symmetry.
Qed.

Lemma prop_lookup_set_named {V} (k : string) (v : V) props k' :
  prop_lookup (set_named k v props) k'
  = if String.eqb k k' then Some v else prop_lookup props k'.
Proof.
  induction props as [| [k1 v1] props IH]; simpl.
  - reflexivity.
  - destruct (String.eqb k1 k) eqn:E1; simpl.
    + apply String.eqb_eq in E1 as ->. by destruct (String.eqb k k').
    + rewrite IH. destruct (String.eqb k1 k') eqn:E2; [| reflexivity].
      apply String.eqb_eq in E2 as ->. by rewrite String.eqb_sym, E1.
Qed.

Lemma prop_lookup_set_indexed {V} n (k : string) (v : V) props k' :
  array_index k = Some n ->
  prop_lookup (set_indexed n k v props) k'
  = if String.eqb k k' then Some v else prop_lookup props k'.
Proof.
  intros Hk. induction props as [| [k1 v1] props IH]; simpl.
  - reflexivity.
  - destruct (array_index k1) as [m |] eqn:E1; [| reflexivity].
    destruct (n =? m)%N eqn:Enm.
    + apply N.eqb_eq in Enm as <-. simpl.
      apply array_index_canonical in E1, Hk. subst k1 k.
      by destruct (String.eqb (pretty n) k').
    + destruct (n <? m)%N; [reflexivity |]. simpl. rewrite IH.
      destruct (String.eqb k1 k') eqn:E2; [| reflexivity].
      apply String.eqb_eq in E2 as <-.
      destruct (String.eqb k k1) eqn:E3; [| reflexivity].
      apply String.eqb_eq in E3 as ->. rewrite Hk in E1. injection E1 as ->.
      by rewrite N.eqb_refl in Enm.
Qed.

(** A property read after it was written is the value written; the other
    properties read as before. *)
Lemma prop_lookup_obj_set {V} props (k : string) (v : V) k' :
  prop_lookup (obj_set props k v) k'
  = if String.eqb k k' then Some v else prop_lookup props k'.
Proof.
  unfold obj_set. destruct (array_index k) as [n |] eqn:E.
  - by apply prop_lookup_set_indexed.
  - apply prop_lookup_set_named.
Qed.

Lemma prop_lookup_filter_ne {V} (props : list (string * V)) k k' :
  prop_lookup (filter (fun kv => fst kv <> k) props) k'
  = if String.eqb k k' then None else prop_lookup props k'.
Proof.
  induction props as [| [k1 v1] props IH]; simpl.
  - by destruct (String.eqb k k').
  - rewrite filter_cons. simpl. destruct (decide (k1 <> k)) as [Hne | Heq]; simpl.
    + rewrite IH. destruct (String.eqb k1 k') eqn:E1; [| reflexivity].
      apply String.eqb_eq in E1 as <-.
      destruct (String.eqb k k1) eqn:E2; [| reflexivity].
      apply String.eqb_eq in E2. congruence.
    + apply dec_stable in Heq as ->. rewrite IH.
      by destruct (String.eqb k k').
Qed.

(** ** Reads after writes *)

Lemma and_then_Value {A B} (m : completion A) (k : A -> completion B) b :
  and_then m k = Value b -> exists a, m = Value a /\ k a = Value b.
Proof. destruct m; simpl; [eauto | discriminate | discriminate]. Qed.

(** One turn of the loop of [walk] that returned. *)
Lemma walk_cons_Value k keys final current r :
  walk (k :: keys) final current = Value r ->
  exists old current1 child child',
    read current k = Value old
    /\ (if is_null old || negb (typeof_object old)
        then assign current k (Obj []) else Value current) = Value current1
    /\ read current1 k = Value child
    /\ walk keys final child = Value child'
    /\ assign current1 k child' = Value r.
Proof.
  cbn [walk]. intros H.
  apply and_then_Value in H as (old & Hold & H).
  apply and_then_Value in H as (current1 & Hcur & H).
  apply and_then_Value in H as (child & Hchild & H).
  apply and_then_Value in H as (child' & Hwalk & H).
  by exists old, current1, child, child'.
Qed.

Lemma assign_is_object current k v r :
  assign current k v = Value r -> prim_null_or_undef r = false /\ truthy r = true.
Proof.
  destruct current as [[] | elems | props]; simpl; try discriminate.
  - destruct (array_index k) as [n |]; [| discriminate].
    destruct (_ <? _)%nat; [by intros [= <-] |].
    destruct (_ =? _)%nat; [by intros [= <-] | discriminate].
  - destruct (String.eqb k "__proto__"); [discriminate | by intros [= <-]].
Qed.

Lemma read_assign current k v r :
  assign current k v = Value r -> read r k = Value v.
Proof.
  destruct current as [[] | elems | props]; simpl; try discriminate.
  - destruct (array_index k) as [n |] eqn:En; [| discriminate].
    destruct (_ <? _)%nat eqn:Elt.
    + intros [= <-]. simpl. rewrite En. f_equal.
      apply Nat.ltb_lt in Elt. apply nth_lookup_Some with (d := undef).
      by apply list_lookup_insert_eq.
    + destruct (_ =? _)%nat eqn:Eeq; [| discriminate].
      intros [= <-]. simpl. rewrite En. f_equal.
      apply Nat.eqb_eq in Eeq. rewrite Eeq.
      rewrite app_nth2 by lia. by rewrite Nat.sub_diag.
  - destruct (String.eqb k "__proto__"); [discriminate |].
    intros [= <-]. simpl. by rewrite prop_lookup_obj_set, String.eqb_refl.
Qed.

Lemma walk_is_object keys : forall final current r,
  (forall c r, final c = Value r -> prim_null_or_undef r = false /\ truthy r = true) ->
  walk keys final current = Value r ->
  prim_null_or_undef r = false /\ truthy r = true.
Proof.
  destruct keys as [| k keys]; intros final current r Hfinal H.
  - simpl in H. eauto.
  - apply walk_cons_Value in H as (old & current1 & child & child' & _ & _ & _ & _ & H).
    by eapply assign_is_object.
Qed.

Lemma remove_is_object current k r :
  remove current k = Value r -> prim_null_or_undef r = false /\ truthy r = true.
Proof.
  destruct current as [[] | elems | props]; simpl; try discriminate. by intros [= <-].
Qed.

Lemma set_or_delete_is_object k v current r :
  set_or_delete k v current = Value r -> prim_null_or_undef r = false /\ truthy r = true.
Proof.
  unfold set_or_delete. destruct (is_undefined v);
    [apply remove_is_object | apply assign_is_object].
Qed.

(** The path a walk has gone is there afterwards: reading along it gives
    what [final] left at its end. *)
Lemma get_loop_walk keys : forall final current r rest,
  (forall c r, final c = Value r -> prim_null_or_undef r = false /\ truthy r = true) ->
  walk keys final current = Value r ->
  exists c r', final c = Value r' /\ get_loop (keys ++ rest) r = get_loop rest r'.
Proof.
  induction keys as [| k keys IH]; intros final current r rest Hfinal H.
  - simpl in H. eauto.
  - apply walk_cons_Value in H as (old & current1 & child & child' & _ & _ & _ & Hwalk & H).
    destruct (IH _ _ _ rest Hfinal Hwalk) as (c & r' & Hc & Hget).
    exists c, r'. split; [exact Hc |].
    cbn [app get_loop]. destruct (assign_is_object _ _ _ _ H) as [-> _].
    rewrite (read_assign _ _ _ _ H). simpl. exact Hget.
Qed.

Lemma split_on_not_nil sep s : split_on sep s <> [].
Proof.
  destruct s as [| c s]; simpl; [discriminate |].
  destruct (Ascii.eqb c sep); [discriminate |].
  destruct (split_on sep s); discriminate.
Qed.

Lemma keys_pop keys : keys <> [] -> keys = before_last keys ++ [lastKey keys].
Proof. intros H. by apply app_removelast_last. Qed.

(** What [set], [setByString] leave behind, read along the key. *)
Lemma get_loop_set keys v current r :
  keys <> [] ->
  walk (before_last keys) (set_or_delete (lastKey keys) v) current = Value r ->
  (is_undefined v = false -> get_loop keys r = Value v)
  /\ (is_undefined v = true -> inherited (lastKey keys) = false ->
      get_loop keys r = Value undef).
Proof.
  intros Hne H.
  destruct (get_loop_walk _ _ _ _ [lastKey keys] (set_or_delete_is_object _ _) H)
    as (c & r' & Hc & Hget).
  rewrite <- keys_pop in Hget by exact Hne. rewrite Hget.
  destruct (set_or_delete_is_object _ _ _ _ Hc) as [Hr' _].
  cbn [get_loop]. rewrite Hr'. unfold set_or_delete in Hc. split.
  - intros Hv. rewrite Hv in Hc. by rewrite (read_assign _ _ _ _ Hc).
  - intros Hv Hk. rewrite Hv in Hc.
    destruct c as [[] | elems | props]; simpl in Hc; try discriminate.
    injection Hc as <-. simpl.
    by rewrite prop_lookup_filter_ne, String.eqb_refl, Hk.
Qed.

(** ** The other keys of the object *)



Lemma get_loop_never_throws keys : forall current e,
  get_loop keys current <> Raise e.
Proof.
  induction keys as [| k keys IH]; intros current e; simpl; [discriminate |].
  destruct (prim_null_or_undef current) eqn:E; [discriminate |].
  destruct (read current k) as [next | e' |] eqn:Er; simpl; [apply IH | | discriminate].
  destruct current as [[] | elems | props]; simpl in *; try discriminate.
  - destruct (array_index k); [discriminate |].
    destruct (String.eqb k "length"); discriminate.
  - destruct (array_index k); [discriminate |].
    destruct (String.eqb k "length"); discriminate.
  - destruct (prop_lookup props k); [discriminate |].
    destruct (inherited k); discriminate.
Qed.

End DottedFacts.

(** * CacheService and the helpers *)

Module CacheFacts.
Import Pure Dotted DottedFacts.

Lemma split_path_Value key keys :
  split_path key = Value keys -> exists s, key = str s /\ keys = split_on "." s.
Proof.
  destruct key as [[] | |]; simpl; try discriminate. intros [= <-]. eauto.
Qed.



(** A value that was not [undefined] is read back as it is; [undefined]
    deletes, and what is read back is [undefined]. *)
Lemma get_after_set storage key keys v storage' :
  split_path key = Value keys ->
  walk (before_last keys) (set_or_delete (lastKey keys) v) storage = Value storage' ->
  truthy storage' = true
  /\ (is_undefined v = false -> get_loop keys storage' = Value v)
  /\ (is_undefined v = true -> inherited (lastKey keys) = false ->
      get_loop keys storage' = Value undef).
Proof.
  intros Hk H. apply split_path_Value in Hk as (s & -> & ->).
  split.
  - by eapply walk_is_object; [apply set_or_delete_is_object | exact H].
  - eapply get_loop_set; [apply split_on_not_nil | exact H].
Qed.

(** X1. What [set] stores under a key, [get] returns for that key: if
    [set(storage, key, value)] returns and [value] is not [undefined], then
    [get(storage, key)] is [value] afterwards, whatever the storage held and
    however many parts the key has. *)
Theorem cache_set_then_get storage key v storage' :
  is_undefined v = false ->
  CacheService.set storage key v = Value storage' ->
  CacheService.get storage' key = Value v.
Proof.
  intros Hv. unfold CacheService.set, CacheService.get.
  destruct (truthy storage); [| discriminate]. simpl.
  destruct (truthy key); [| discriminate]. simpl. intros H.
  apply and_then_Value in H as (keys & Ha & H).
  destruct (get_after_set _ _ _ _ _ Ha H) as (-> & Hget & _).
  rewrite Ha. simpl. by apply Hget.
Qed.

Lemma cache_set_then_get_witness :
  CacheService.set (Obj [("old", num 0)]) (str "Sheet1_A1.rows") (Arr [Arr [num 1]])
  = Value (Obj [("old", num 0); ("Sheet1_A1", Obj [("rows", Arr [Arr [num 1]])])])
  /\ CacheService.get
       (Obj [("old", num 0); ("Sheet1_A1", Obj [("rows", Arr [Arr [num 1]])])])
       (str "Sheet1_A1.rows")
     = Value (Arr [Arr [num 1]]).
Proof.
  split; [reflexivity |].
  apply (cache_set_then_get (Obj [("old", num 0)]) (str "Sheet1_A1.rows")
           (Arr [Arr [num 1]])); reflexivity.
Defined.



(** X3. After [invalidate(storage, key)] the key is not cached: [has] is
    false, for every key whose last part is no name of [Object.prototype]. *)
Theorem cache_invalidate_then_has storage key storage' :
  CacheService.invalidate storage (str key) = Value storage' ->
  inherited (lastKey (split_on "." key)) = false ->
  CacheService.has storage' (str key) = Value false.
Proof.
  unfold CacheService.invalidate, CacheService.set, CacheService.has, CacheService.get.
  destruct (truthy storage); [| discriminate]. simpl.
  destruct (String.eqb key ""); simpl; [discriminate |]. intros H Hk.
  destruct (get_after_set _ (str key) _ _ _ eq_refl H) as (-> & _ & Hget).
  simpl. by rewrite Hget.
Qed.

Lemma cache_invalidate_then_has_witness :
  CacheService.has (Obj [("keep", num 1)]) (str "Sheet1_A1") = Value false.
Proof.
  apply (cache_invalidate_then_has
           (Obj [("Sheet1_A1", Arr [Arr [num 1]]); ("keep", num 1)]) "Sheet1_A1");
    reflexivity.
Defined.

(** X4. [get] throws for a storage or a key that is falsy and for nothing
    else: on a path that runs into [null], [undefined] or a property that
    is not there it does not throw (it returns [undefined]). *)
Theorem cache_get_throws_only_on_arguments storage key e :
  CacheService.get storage (str key) = Raise e
  <-> (truthy storage = false /\ e = Error "Storage is required")
      \/ (truthy storage = true /\ key = "" /\ e = Error "Key is required").
Proof.
  unfold CacheService.get. destruct (truthy storage); simpl.
  - destruct (String.eqb key "") eqn:Ek; simpl.
    + apply String.eqb_eq in Ek as ->. split.
      * intros [= <-]. by right.
      * intros [[? _] | (_ & _ & ->)]; [discriminate | reflexivity].
    + apply String.eqb_neq in Ek. split.
      * intros H. by apply get_loop_never_throws in H.
      * intros [[? _] | (_ & ? & _)]; [discriminate | contradiction].
  - split.
    + intros [= <-]. by left.
    + intros [[_ ->] | [? _]]; [reflexivity | discriminate].
Qed.

(** X5. The helpers as a pair: when [obj] and [path] are truthy, what
    [setByString] writes is what [getByString] reads, and writing
    [undefined] deletes, so that [undefined] is read (for a path whose last
    part is no name of [Object.prototype]). *)
Theorem setByString_then_getByString obj path v obj' :
  truthy obj = true ->
  truthy path = true ->
  helpers.setByString obj path v = Value obj' ->
  (is_undefined v = false -> helpers.getByString obj' path = Value v)
  /\ (is_undefined v = true ->
      (forall s, path = str s -> inherited (lastKey (split_on "." s)) = false) ->
      helpers.getByString obj' path = Value undef).
Proof.
  intros Ho Hp. unfold helpers.setByString, helpers.getByString.
  rewrite Ho, Hp. simpl. intros H.
  apply and_then_Value in H as (keys & Ha & H).
  destruct (get_after_set _ _ _ _ _ Ha H) as (-> & Hset & Hdel).
  rewrite Ha. simpl. split; [exact Hset |].
  intros Hv Hk. apply Hdel; [exact Hv |].
  apply split_path_Value in Ha as (s & -> & ->). by apply Hk.
Qed.

Lemma setByString_then_getByString_witness :
  helpers.getByString (Obj [("payload", Obj [("rows", num 3)])]) (str "payload.rows")
  = Value (num 3).
Proof.
  apply (setByString_then_getByString (Obj []) (str "payload.rows") (num 3));
    reflexivity.
Defined.

End CacheFacts.

(** * transformToObjects builds again what extractObjectValues took apart *)

Module ToObjectsFacts.
Import Pure PureSpec PureFacts Dotted DottedSpec DottedFacts ToObjects.

(** ** Records that can be built again *)

Lemma rebuildable_Obj props :
  rebuildable (Obj props)
  = match props with [] => false | _ :: _ => true end
    && bool_decide (NoDup (map fst props)) && forallb entry_ok props.
Proof.
  cbn [rebuildable]. f_equal.
  induction props as [| [k v] props IH]; [reflexivity |].
  cbn [forallb]. rewrite <- IH. reflexivity.
Qed.

Lemma leaf_paths_Obj props : leaf_paths (Obj props) = flat_map entry_paths props.
Proof.
  cbn [leaf_paths].
  induction props as [| [k v] props IH]; [reflexivity |].
  cbn [flat_map]. rewrite <- IH. reflexivity.
Qed.

Lemma rebuildable_is_Obj v : rebuildable v = true -> exists props, v = Obj props.
Proof. destruct v; try discriminate. eauto. Qed.

Lemma plain_key_spec k :
  plain_key k = true ->
  k <> "" /\ split_on "." k = [k] /\ array_index k = None /\ inherited k = false.
Proof.
  unfold plain_key. rewrite !andb_true_iff, !negb_true_iff, !bool_decide_eq_true.
  intros [[[H1 H2] H3] H4]. apply String.eqb_neq in H1. auto.
Qed.

Lemma not_inherited_not_proto k : inherited k = false -> String.eqb k "__proto__" = false.
Proof.
  intros H. destruct (String.eqb k "__proto__") eqn:E; [| reflexivity].
  apply String.eqb_eq in E. subst k. discriminate.
Qed.

(** The paths of the leaves are not empty and are made of plain keys. *)
Lemma leaf_paths_plain v :
  rebuildable v = true ->
  Forall (fun pv => fst pv <> [] /\ Forall (fun k => plain_key k = true) (fst pv))
    (leaf_paths v).
Proof.
  induction v as [p | elems IH | props IH] using value_nested_ind; try discriminate.
  rewrite rebuildable_Obj, leaf_paths_Obj, !andb_true_iff. intros [_ Hok].
  induction props as [| [k v] props IHprops]; [constructor |].
  cbn [forallb flat_map] in *. apply andb_true_iff in Hok as [Hkv Hok].
  apply Forall_cons_1 in IH as [IHv IH].
  apply Forall_app. split; [| by apply IHprops].
  unfold entry_ok, entry_paths in *. cbn [fst snd] in *.
  apply andb_true_iff in Hkv as [Hk Hv].
  destruct (is_nested v).
  - apply Forall_map. eapply Forall_impl; [by apply IHv |].
    intros [p x] [_ Hp]. cbn [fst]. split; [discriminate | by constructor].
  - repeat constructor; [discriminate | exact Hk].
Qed.

(** A record that can be built again has a leaf. *)
Lemma leaf_paths_not_nil v : rebuildable v = true -> leaf_paths v <> [].
Proof.
  induction v as [p | elems IH | props IH] using value_nested_ind; try discriminate.
  rewrite rebuildable_Obj, leaf_paths_Obj, !andb_true_iff. intros [[Hne _] Hok].
  destruct props as [| [k v] props]; [discriminate |].
  cbn [forallb flat_map] in *. apply andb_true_iff in Hok as [Hkv _].
  apply Forall_cons_1 in IH as [IHv _].
  unfold entry_ok, entry_paths in *. cbn [fst snd] in *.
  apply andb_true_iff in Hkv as [_ Hv].
  destruct (is_nested v); [| discriminate].
  specialize (IHv Hv). destruct (leaf_paths v); [done | discriminate].
Qed.

(** ** Dotted keys *)

Lemma string_app_assoc (s1 s2 s3 : string) : (s1 +:+ s2) +:+ s3 = s1 +:+ s2 +:+ s3.
Proof.
  induction s1 as [| c s1 IH]; [reflexivity |].
  change (String c ((s1 +:+ s2) +:+ s3) = String c (s1 +:+ s2 +:+ s3)). by f_equal.
Qed.

Lemma dotted_snoc pre k : pre <> [] -> dotted (pre ++ [k]) = dotted pre +:+ "." +:+ k.
Proof.
  unfold dotted. induction pre as [| k1 [| k2 pre] IH]; intros Hne; [done | reflexivity |].
  change (String.concat "." ((k1 :: k2 :: pre) ++ [k]))
    with (k1 +:+ "." +:+ String.concat "." ((k2 :: pre) ++ [k])).
  rewrite IH by discriminate.
  change (String.concat "." (k1 :: k2 :: pre))
    with (k1 +:+ "." +:+ String.concat "." (k2 :: pre)).
  by rewrite !string_app_assoc.
Qed.

Lemma dotted_not_empty pre :
  pre <> [] -> Forall (fun k => plain_key k = true) pre -> dotted pre <> "".
Proof.
  destruct pre as [| k1 pre]; [done |]. intros _ Hpre.
  apply Forall_cons_1 in Hpre as [Hk _]. apply plain_key_spec in Hk as [Hk _].
  unfold dotted. destruct k1; [done |]. destruct pre; discriminate.
Qed.

Lemma full_key_dotted pre k :
  Forall (fun k => plain_key k = true) pre ->
  full_key (dotted pre) k = dotted (pre ++ [k]).
Proof.
  intros Hpre. destruct pre as [| k1 pre]; [reflexivity |].
  unfold full_key. rewrite dotted_snoc by discriminate.
  destruct (String.eqb (dotted (k1 :: pre)) "") eqn:E; [| reflexivity].
  apply String.eqb_eq in E. by apply dotted_not_empty in E.
Qed.

Lemma split_on_app_sep k rest :
  split_on "." k = [k] -> split_on "." (k +:+ "." +:+ rest) = k :: split_on "." rest.
Proof.
  induction k as [| c k IH]; [reflexivity |].
  change (String c k +:+ "." +:+ rest) with (String c (k +:+ "." +:+ rest)).
  cbn [split_on].
  destruct (Ascii.eqb c ".") eqn:Ec; [discriminate |].
  destruct (split_on "." k) as [| part parts] eqn:Ek;
    [by apply split_on_not_nil in Ek |].
  intros [= -> ->]. by rewrite IH.
Qed.

Lemma split_dotted path :
  path <> [] -> Forall (fun k => plain_key k = true) path ->
  split_on "." (dotted path) = path.
Proof.
  unfold dotted. induction path as [| k1 [| k2 path] IH]; intros Hne Hpath; [done | |].
  - apply Forall_cons_1 in Hpath as [Hk _].
    apply plain_key_spec in Hk as (_ & Hk & _). exact Hk.
  - apply Forall_cons_1 in Hpath as [Hk Hpath].
    apply plain_key_spec in Hk as (_ & Hk & _).
    change (String.concat "." (k1 :: k2 :: path))
      with (k1 +:+ "." +:+ String.concat "." (k2 :: path)).
    rewrite split_on_app_sep by exact Hk. by rewrite IH.
Qed.

(** ** What extractObjectValues gives for such a record *)

Lemma extract_leaf_paths v :
  rebuildable v = true ->
  forall pre, Forall (fun k => plain_key k = true) pre ->
  extract v (dotted pre) empty
  = {| keys := map (fun pv => dotted (pre ++ fst pv)) (leaf_paths v);
       values := map snd (leaf_paths v) |}.
Proof.
  induction v as [p | elems IH | props IH] using value_nested_ind; try discriminate.
  rewrite rebuildable_Obj, !andb_true_iff. intros [_ Hok] pre Hpre.
  rewrite extract_unfold, leaf_paths_Obj. cbn [entries_of].
  assert (G : forall acc,
    fold_left (visit (dotted pre)) props acc
    = append acc {| keys := map (fun pv => dotted (pre ++ fst pv)) (flat_map entry_paths props);
                    values := map snd (flat_map entry_paths props) |}).
  { induction props as [| [k v] props IHprops]; intros acc.
    - by rewrite append_empty_r.
    - cbn [forallb flat_map fold_left] in *. apply andb_true_iff in Hok as [Hkv Hok].
      apply Forall_cons_1 in IH as [IHv IH].
      rewrite IHprops by assumption.
      unfold entry_ok, entry_paths, visit in *. cbn [fst snd] in *.
      apply andb_true_iff in Hkv as [Hk Hv].
      rewrite full_key_dotted by exact Hpre.
      unfold append. cbn [keys values]. rewrite !map_app.
      destruct (is_nested v).
      + rewrite extract_append, IHv; [| exact Hv | by apply Forall_app; split; [| constructor]].
        unfold append. cbn [keys values]. rewrite !map_map. cbn [fst snd].
        assert (E : forall l : list (list string * value),
                  map (fun pv => dotted ((pre ++ [k]) ++ fst pv)) l
                  = map (fun pv => dotted (pre ++ k :: fst pv)) l).
        { intros l. apply map_ext. intros [p x]. cbn [fst]. by rewrite <- app_assoc. }
        rewrite E, <- !app_assoc. reflexivity.
      + unfold push_leaf. cbn [keys values map fst snd]. by rewrite <- !app_assoc. }
  rewrite G. unfold append, empty. reflexivity.
Qed.

(** ** Setting the leaves one after the other *)

Lemma set_paths_app l1 : forall l2 obj,
  set_paths (l1 ++ l2) obj = let! obj := set_paths l1 obj in set_paths l2 obj.
Proof.
  induction l1 as [| [p v] l1 IH]; intros l2 obj; [reflexivity |].
  cbn [app set_paths]. destruct (set_path obj p v); simpl; [apply IH | reflexivity ..].
Qed.

Lemma prop_lookup_app_new (k : string) (x : value) acc :
  k ∉ map fst acc -> prop_lookup (acc ++ [(k, x)]) k = Some x.
Proof.
  induction acc as [| [k1 v1] acc IH]; simpl; intros Hk.
  - by rewrite String.eqb_refl.
  - apply not_elem_of_cons in Hk as [Hne Hk].
    destruct (String.eqb k1 k) eqn:E; [apply String.eqb_eq in E; congruence | by apply IH].
Qed.

Lemma prop_lookup_absent (k : string) (acc : list (string * value)) :
  k ∉ map fst acc -> prop_lookup acc k = None.
Proof.
  induction acc as [| [k1 v1] acc IH]; simpl; intros Hk; [reflexivity |].
  apply not_elem_of_cons in Hk as [Hne Hk].
  destruct (String.eqb k1 k) eqn:E; [apply String.eqb_eq in E; congruence | by apply IH].
Qed.

Lemma set_named_app_last (k : string) (x r : value) acc :
  k ∉ map fst acc -> set_named k r (acc ++ [(k, x)]) = acc ++ [(k, r)].
Proof.
  induction acc as [| [k1 v1] acc IH]; simpl; intros Hk.
  - by rewrite String.eqb_refl.
  - apply not_elem_of_cons in Hk as [Hne Hk].
    destruct (String.eqb k1 k) eqn:E; [apply String.eqb_eq in E; congruence |].
    by rewrite IH.
Qed.

Lemma walk_Obj keys : forall final c r,
  (forall c r, final (Obj c) = Value r -> exists c', r = Obj c') ->
  walk keys final (Obj c) = Value r -> exists c', r = Obj c'.
Proof.
  destruct keys as [| k keys]; intros final c r Hfinal H; [simpl in H; eauto |].
  apply walk_cons_Value in H as (old & current1 & child & child' & _ & Hcur & _ & _ & H).
  assert (Hobj : exists c0, current1 = Obj c0).
  { destruct (_ || _); [| injection Hcur as <-; eauto].
    simpl in Hcur. destruct (String.eqb k "__proto__"); [discriminate |].
    injection Hcur as <-. eauto. }
  destruct Hobj as [c0 ->]. simpl in H.
  destruct (String.eqb k "__proto__"); [discriminate |]. injection H as <-. eauto.
Qed.

Lemma set_path_Obj c p v r : set_path (Obj c) p v = Value r -> exists c', r = Obj c'.
Proof.
  apply walk_Obj. intros c0 r0. simpl.
  destruct (String.eqb _ "__proto__"); [discriminate |]. intros [= <-]. eauto.
Qed.

Lemma set_paths_Obj l : forall c r, set_paths l (Obj c) = Value r -> exists c', r = Obj c'.
Proof.
  induction l as [| [p v] l IH]; intros c r H; simpl in H.
  - injection H as <-. eauto.
  - apply and_then_Value in H as (obj & Ha & H).
    apply set_path_Obj in Ha as [c' ->]. eauto.
Qed.

Lemma pop_cons (k : string) p :
  p <> [] -> before_last (k :: p) = k :: before_last p /\ lastKey (k :: p) = lastKey p.
Proof. unfold before_last, lastKey. destruct p; [done | by split]. Qed.

(** A leaf right under the record. *)
Lemma set_path_single k v acc :
  plain_key k = true -> k ∉ map fst acc ->
  set_path (Obj acc) [k] v = Value (Obj (acc ++ [(k, v)])).
Proof.
  intros Hk Hacc. apply plain_key_spec in Hk as (_ & _ & Hidx & Hinh).
  unfold set_path, before_last, lastKey. cbn [removelast List.last walk assign].
  rewrite (not_inherited_not_proto _ Hinh).
  unfold obj_set. rewrite Hidx. by rewrite set_named_new.
Qed.

(** A leaf under [k], when [k] holds the record [c] already. *)
Lemma set_path_under k p v acc c r :
  p <> [] -> plain_key k = true -> k ∉ map fst acc ->
  set_path (Obj c) p v = Value r ->
  set_path (Obj (acc ++ [(k, Obj c)])) (k :: p) v = Value (Obj (acc ++ [(k, r)])).
Proof.
  intros Hp Hk Hacc H. apply plain_key_spec in Hk as (_ & _ & Hidx & Hinh).
  unfold set_path in *. destruct (pop_cons k p Hp) as [-> ->].
  cbn [walk]. cbn [read]. rewrite prop_lookup_app_new by exact Hacc.
  cbn [and_then is_null typeof_object negb orb read].
  rewrite prop_lookup_app_new by exact Hacc. cbn [and_then].
  rewrite H. cbn [and_then assign]. rewrite (not_inherited_not_proto _ Hinh).
  unfold obj_set. rewrite Hidx. by rewrite set_named_app_last.
Qed.

(** A leaf under [k], when there is no [k] yet: [k] is made first. *)
Lemma set_path_under_new k p v acc r :
  p <> [] -> plain_key k = true -> k ∉ map fst acc ->
  set_path (Obj []) p v = Value r ->
  set_path (Obj acc) (k :: p) v = Value (Obj (acc ++ [(k, r)])).
Proof.
  intros Hp Hk Hacc H.
  rewrite <- (set_path_under k p v acc [] r Hp Hk Hacc H).
  apply plain_key_spec in Hk as (_ & _ & Hidx & Hinh).
  unfold set_path. destruct (pop_cons k p Hp) as [-> ->].
  cbn [walk read]. rewrite prop_lookup_absent by exact Hacc. rewrite Hinh.
  rewrite prop_lookup_app_new by exact Hacc.
  cbn [and_then is_null typeof_object undef negb orb assign].
  rewrite (not_inherited_not_proto _ Hinh).
  unfold obj_set at 1. rewrite Hidx, set_named_new by exact Hacc.
  cbn [and_then read]. rewrite prop_lookup_app_new by exact Hacc.
  cbn [assign]. rewrite (not_inherited_not_proto _ Hinh). reflexivity.
Qed.

(** The leaves of a record nested under [k], one after the other. *)
Lemma set_paths_under k acc l : forall c r,
  Forall (fun pv => fst pv <> []) l ->
  plain_key k = true -> k ∉ map fst acc ->
  set_paths l (Obj c) = Value r ->
  set_paths (map (fun pv => (k :: fst pv, snd pv)) l) (Obj (acc ++ [(k, Obj c)]))
  = Value (Obj (acc ++ [(k, r)])).
Proof.
  induction l as [| [p v] l IH]; intros c r Hl Hk Hacc H; simpl in H.
  - by injection H as <-.
  - apply Forall_cons_1 in Hl as [Hp Hl].
    apply and_then_Value in H as (obj & Ha & H).
    destruct (set_path_Obj _ _ _ _ Ha) as [c1 ->].
    cbn [map set_paths fst snd].
    rewrite (set_path_under k p v acc c (Obj c1) Hp Hk Hacc Ha). cbn [and_then].
    by apply IH.
Qed.

Lemma set_paths_under_new k acc l r :
  l <> [] ->
  Forall (fun pv => fst pv <> []) l ->
  plain_key k = true -> k ∉ map fst acc ->
  set_paths l (Obj []) = Value r ->
  set_paths (map (fun pv => (k :: fst pv, snd pv)) l) (Obj acc)
  = Value (Obj (acc ++ [(k, r)])).
Proof.
  destruct l as [| [p v] l]; [done |]. intros _ Hl Hk Hacc H. simpl in H.
  apply Forall_cons_1 in Hl as [Hp Hl].
  apply and_then_Value in H as (obj & Ha & H).
  destruct (set_path_Obj _ _ _ _ Ha) as [c1 ->].
  cbn [map set_paths fst snd].
  rewrite (set_path_under_new k p v acc (Obj c1) Hp Hk Hacc Ha). cbn [and_then].
  by apply set_paths_under.
Qed.

(** Setting the leaves of a record, in the order [extractObjectValues]
    gives them, into an empty object gives the record. *)
Lemma set_paths_leaf_paths v :
  rebuildable v = true -> set_paths (leaf_paths v) (Obj []) = Value v.
Proof.
  induction v as [p | elems IH | props IH] using value_nested_ind; try discriminate.
  rewrite rebuildable_Obj, leaf_paths_Obj, !andb_true_iff, bool_decide_eq_true.
  intros [[_ Hnd] Hok].
  assert (G : forall acc,
    NoDup (map fst acc ++ map fst props) ->
    set_paths (flat_map entry_paths props) (Obj acc) = Value (Obj (acc ++ props))).
  { clear Hnd. induction props as [| [k v] props IHprops]; intros acc Hnd.
    - by rewrite app_nil_r.
    - cbn [forallb flat_map] in *. apply andb_true_iff in Hok as [Hkv Hok].
      apply Forall_cons_1 in IH as [IHv IH].
      assert (Hk : k ∉ map fst acc).
      { apply NoDup_app in Hnd as (_ & Hnd & _). intros Hin.
        apply (Hnd k Hin). cbn [map fst]. apply list_elem_of_here. }
      assert (Hnd' : NoDup (map fst (acc ++ [(k, v)]) ++ map fst props)).
      { rewrite map_app. cbn [map fst]. by rewrite <- app_assoc. }
      rewrite set_paths_app. unfold entry_ok, entry_paths in *. cbn [fst snd] in *.
      apply andb_true_iff in Hkv as [Hplain Hv].
      destruct (is_nested v).
      + rewrite (set_paths_under_new k acc (leaf_paths v) v);
          [| by apply leaf_paths_not_nil
           | eapply Forall_impl; [by apply leaf_paths_plain | by intros ? [? _]]
           | exact Hplain | exact Hk | by apply IHv].
        cbn [and_then]. rewrite IHprops by assumption. by rewrite <- app_assoc.
      + cbn [set_paths]. rewrite set_path_single by assumption.
        cbn [and_then]. rewrite IHprops by assumption. by rewrite <- app_assoc. }
  by apply (G []).
Qed.

(** ** The rows of transformToObjects *)

Lemma setNestedProperty_dotted obj path v :
  path <> [] -> Forall (fun k => plain_key k = true) path ->
  setNestedProperty obj (str (dotted path)) v = set_path obj path v.
Proof.
  intros Hne Hpath. unfold setNestedProperty, set_path. simpl.
  by rewrite split_dotted.
Qed.

Lemma fill_set_paths l : forall done obj,
  Forall (fun pv => fst pv <> [] /\ Forall (fun k => plain_key k = true) (fst pv)) l ->
  fill (done ++ map (fun pv => dotted (fst pv)) l) (length done) (map snd l) obj
  = set_paths l obj.
Proof.
  induction l as [| [p v] l IH]; intros done obj Hl; [reflexivity |].
  apply Forall_cons_1 in Hl as [[Hp Hplain] Hl].
  cbn [map fill set_paths fst snd]. unfold field_at.
  rewrite list_lookup_middle by reflexivity.
  rewrite setNestedProperty_dotted by assumption.
  destruct (set_path obj p v) as [obj' | |]; cbn [and_then]; [| reflexivity ..].
  specialize (IH (done ++ [dotted p]) obj' Hl).
  rewrite <- app_assoc, length_app in IH. cbn [app length] in IH.
  by rewrite Nat.add_1_r in IH.
Qed.

(** One row: the values of a record, set under its keys, give the record. *)
Lemma fill_extracted v :
  rebuildable v = true ->
  fill (keys (extractObjectValues v)) 0 (values (extractObjectValues v)) (Obj [])
  = Value v.
Proof.
  intros Hv. unfold extractObjectValues.
  change "" with (dotted []). fold empty.
  rewrite extract_leaf_paths by (done || constructor). cbn [keys values app].
  etrans; [exact (fill_set_paths (leaf_paths v) [] (Obj []) (leaf_paths_plain v Hv)) |].
  by apply set_paths_leaf_paths.
Qed.

Lemma extracted_keys_not_nil v :
  rebuildable v = true -> keys (extractObjectValues v) <> [].
Proof.
  intros Hv. unfold extractObjectValues. change "" with (dotted []). fold empty.
  rewrite extract_leaf_paths by (done || constructor). cbn [keys].
  pose proof (leaf_paths_not_nil v Hv). by destruct (leaf_paths v).
Qed.

Lemma each_row_extracted ks objs :
  Forall (fun o => rebuildable o = true /\ keys (extractObjectValues o) = ks) objs ->
  each_row ks (map (fun o => values (extractObjectValues o)) objs) = Value objs.
Proof.
  induction 1 as [| o objs [Ho Hks] _ IH]; [reflexivity |].
  cbn [map each_row]. rewrite <- Hks at 1. rewrite fill_extracted by exact Ho.
  cbn [and_then]. by rewrite IH.
Qed.

(** X6. The nested round trip.  For records that have the same dotted keys
    [ks] and are made of plain keys (no dot, no index, no inherited name,
    no empty nested record), [transform] with fields "all", line header and
    method "new" writes the header [ks] and one row of leaf values per
    record, and [transformToObjects] on those rows with the field names
    [ks] gives the records back, nesting included. *)
Theorem transformToObjects_rebuilds ks objs :
  objs <> [] ->
  Forall (fun o => rebuildable o = true /\ keys (extractObjectValues o) = ks) objs ->
  exists rows,
    transform (Arr objs) all_new_line = Ok (grid_of (map str ks :: rows))
    /\ transformToObjects (Some rows) (Some ks) = Value (Arr objs).
Proof.
  intros Hne Hobjs. exists (map (fun o => values (extractObjectValues o)) objs).
  destruct objs as [| o objs]; [done |].
  pose proof Hobjs as Ho. apply Forall_cons_1 in Ho as [[Ho Hks] _].
  destruct (rebuildable_is_Obj o Ho) as [props ->]. split.
  - unfold transform, all_new_line. cbn -[extractObjectValues grid_of].
    rewrite andb_false_r. by rewrite Hks.
  - pose proof (extracted_keys_not_nil _ Ho) as Hk. rewrite Hks in Hk.
    unfold transformToObjects. destruct ks as [| k ks]; [done |].
    cbn [map]. change (?x :: map ?f objs) with (map f (Obj props :: objs)).
    by rewrite each_row_extracted.
Qed.

Lemma transformToObjects_rebuilds_witness :
  exists rows,
    transform (Arr [nested_user]) all_new_line
    = Ok (grid_of (map str ["user.name"; "user.address.city"; "id"] :: rows))
    /\ transformToObjects (Some rows) (Some ["user.name"; "user.address.city"; "id"])
       = Value (Arr [nested_user]).
Proof.
  apply (transformToObjects_rebuilds ["user.name"; "user.address.city"; "id"] [nested_user]).
  - discriminate.
  - repeat constructor.
Defined.

Lemma set_path_plain k v acc :
  plain_key k = true -> set_path (Obj acc) [k] v = Value (Obj (obj_set acc k v)).
Proof.
  intros Hk. apply plain_key_spec in Hk as (_ & _ & _ & Hinh).
  unfold set_path, before_last, lastKey. cbn [removelast List.last walk assign].
  by rewrite (not_inherited_not_proto _ Hinh).
Qed.

Lemma fill_past_fields fields row : forall i acc,
  Forall (fun f => plain_key f = true) fields ->
  (i <= length fields)%nat ->
  (length fields < i + length row)%nat ->
  fill fields i row (Obj acc) = Raise TypeErr.
Proof.
  induction row as [| cell row IH]; intros i acc Hf Hi Hlen; simpl in Hlen; [lia |].
  cbn [fill]. unfold field_at. destruct (fields !! i) as [f |] eqn:Ef.
  - assert (Hplain : plain_key f = true).
    { rewrite Forall_lookup in Hf. by eapply Hf. }
    change f with (dotted [f]) at 1.
    rewrite setNestedProperty_dotted by (done || by repeat constructor).
    rewrite set_path_plain by exact Hplain. cbn [and_then].
    apply lookup_lt_Some in Ef. apply IH; [exact Hf | lia | lia].
  - reflexivity.
Qed.

(** X7. A row with more cells than there are field names makes
    [transformToObjects] throw a TypeError: the cell after the last field
    name is set under [fields[i]], which is [undefined] and has no [split].
    (Plain field names, so that every cell before it is set.) *)
Theorem transformToObjects_row_too_long fields row rest :
  Forall (fun f => plain_key f = true) fields ->
  (0 < length fields < length row)%nat ->
  transformToObjects (Some (row :: rest)) (Some fields) = Raise TypeErr.
Proof.
  intros Hf [Hpos Hlen]. unfold transformToObjects.
  destruct fields as [| f fields]; [simpl in Hpos; lia |].
  cbn [each_row]. rewrite fill_past_fields; [reflexivity | exact Hf | lia | lia].
Qed.

Lemma transformToObjects_row_too_long_witness :
  transformToObjects (Some [[str "John"; num 30; str "extra"]]) (Some ["name"; "age"])
  = Raise TypeErr.
Proof.
  apply (transformToObjects_row_too_long ["name"; "age"] [str "John"; num 30; str "extra"] []).
  - repeat constructor.
  - simpl. lia.
Defined.

End ToObjectsFacts.

(** * Further properties of the transformer *)

Module GridFacts.
Import Pure PureSpec PureFacts GridSpec DottedFacts.

(** ** What transform returns *)

(** X8. Whatever [transform] returns is an array, and unless it is the
    input itself (an array of arrays, passed through) every element of it is
    an array: the value handed to [setValues] always passes its
    [Array.isArray] check. *)
Theorem transform_returns_array data cfg r :
  transform data cfg = Ok r ->
  isArray r = true
  /\ (r = data \/ Forall (fun row => isArray row = true) (elems_of r)).
Proof.
  unfold transform.
  destruct (negb (prim_null_or_undef data) && negb (typeof_object data)).
  { intros [= <-]. split; [reflexivity |]. right. by repeat constructor. }
  destruct (isArray data && (0 <? length (elems_of data))%nat
            && isArray (nth 0 (elems_of data) undef)) eqn:E1.
  { intros [= <-]. apply andb_true_iff in E1 as [E1 _].
    apply andb_true_iff in E1 as [E1 _]. split; [exact E1 | by left]. }
  destruct (isArray data && (length (elems_of data) =? 1)%nat
            && negb (typeof_object (nth 0 (elems_of data) undef))).
  { intros [= <-]. split; [reflexivity |]. right. by repeat constructor. }
  assert (Hgrid : forall rows,
            isArray (grid_of rows) = true
            /\ (grid_of rows = data
                \/ Forall (fun row => isArray row = true) (elems_of (grid_of rows)))).
  { intros rows. split; [reflexivity |]. right. unfold grid_of. cbn [elems_of].
    apply Forall_map. by apply Forall_true. }
  destruct (isArray data && (0 <? length (elems_of data))%nat).
  { intros [= <-]. apply Hgrid. }
  destruct (typeof_object data); [| discriminate].
  destruct (get_length data) as [l |]; [| discriminate].
  destruct (is_undefined l); [| discriminate].
  destruct (transformObjectOfObjects data cfg (selected_fields cfg)) as [vs | e];
    simpl; [| discriminate].
  intros [= <-]. apply Hgrid.
Qed.

Lemma transform_returns_array_witness :
  isArray (grid_of john_jane_grid) = true
  /\ (grid_of john_jane_grid = john_jane
      \/ Forall (fun row => isArray row = true) (elems_of (grid_of john_jane_grid))).
Proof. apply (transform_returns_array john_jane all_new_line). reflexivity. Defined.

(** X9. With fields other than "all" and no selected field, nothing is
    written: an array of records and a mapping of records both give the
    empty grid, whatever they hold. *)
Theorem transform_without_field_selection cfg :
  is_string (fields cfg) "all" = false ->
  selected_fields cfg = None ->
  (forall e elems, isArray e = false -> (elems = [] -> typeof_object e = true) ->
     transform (Arr (e :: elems)) cfg = Ok (Arr []))
  /\ (forall props, is_undefined (get_prop props "length") = true ->
        transform (Obj props) cfg = Ok (Arr [])).
Proof.
  intros Hall Hsel. split.
  - intros e elems He Hone. unfold transform. cbn [prim_null_or_undef typeof_object
      negb andb isArray elems_of nth length]. rewrite He. cbn [andb].
    assert (Hsingle : (length elems =? 0)%nat && negb (typeof_object e) = false).
    { destruct elems; [by rewrite Hone | reflexivity]. }
    change (S (length elems) =? 1)%nat with (length elems =? 0)%nat.
    rewrite Hsingle. cbn [Nat.ltb Nat.leb].
    unfold transformArrayOfObjects. by rewrite Hall, Hsel.
  - intros props Hlen. rewrite transform_object by exact Hlen.
    unfold transformObjectOfObjects. by rewrite Hall, Hsel.
Qed.

Lemma transform_without_field_selection_witness :
  transform john_jane no_headers = Ok (Arr [])
  /\ transform (Obj user1) no_headers = Ok (Arr []).
Proof.
  destruct (transform_without_field_selection no_headers eq_refl eq_refl) as [Harr Hobj].
  split.
  - apply Harr; [reflexivity | discriminate].
  - apply Hobj. reflexivity.
Defined.

(** ** Records without nesting *)

Lemma fold_visit_flat l : forall acc,
  Forall (fun kv => is_nested (snd kv) = false) l ->
  fold_left (visit "") l acc
  = {| keys := keys acc ++ map fst l; values := values acc ++ map snd l |}.
Proof.
  induction l as [| [k v] l IH]; intros acc Hl.
  - simpl. rewrite !app_nil_r. by destruct acc.
  - apply Forall_cons_1 in Hl as [Hv Hl]. cbn [fold_left]. rewrite IH by exact Hl.
    unfold visit. cbn [fst snd] in *. rewrite Hv. unfold push_leaf, full_key. simpl.
    by rewrite <- !app_assoc.
Qed.

Lemma extractObjectValues_entries current :
  Forall (fun kv => is_nested (snd kv) = false) (entries_of current) ->
  extractObjectValues current
  = {| keys := map fst (entries_of current); values := map snd (entries_of current) |}.
Proof.
  intros H. unfold extractObjectValues. rewrite extract_unfold.
  by rewrite fold_visit_flat.
Qed.

Lemma indexOf_prop_lookup (props : list (string * value)) f :
  match indexOf f (map fst props) with
  | Some i => Some (nth i (map snd props) undef)
  | None => None
  end = prop_lookup props f.
Proof.
  induction props as [| [k v] props IH]; [reflexivity |]. simpl.
  destruct (String.eqb k f); [reflexivity |].
  rewrite <- IH. by destruct (indexOf f (map fst props)).
Qed.

Lemma select_fields_flat props fs :
  select_fields {| keys := map fst props; values := map snd props |} fs
  = selected fs props.
Proof.
  unfold select_fields, selected. cbn [keys values].
  assert (G : forall row,
    fold_left
      (fun row field =>
         match indexOf field (map fst props) with
         | Some i => row ++ [nth i (map snd props) undef]
         | None => row
         end) fs row
    = row ++ omap (prop_lookup props) fs).
  { induction fs as [| f fs IH]; intros row; [by rewrite app_nil_r |].
    cbn [fold_left]. rewrite IH.
    change (omap (prop_lookup props) (f :: fs))
      with (match prop_lookup props f with
            | Some v => v :: omap (prop_lookup props) fs
            | None => omap (prop_lookup props) fs
            end).
    rewrite <- (indexOf_prop_lookup props f).
    destruct (indexOf f (map fst props)); [by rewrite <- app_assoc | reflexivity]. }
  apply (G []).
Qed.

(** X10. Selected fields on flat records: the row of a record has one cell
    for every selected field the record has, in the order of the selection;
    a field the record does not have gets no cell (the later cells move
    up), and the header row, written with method "new" and line header,
    lists every selected field. *)
Theorem selected_fields_skip_missing recs cfg f fs :
  recs <> [] ->
  Forall (Forall (fun kv => is_nested (snd kv) = false)) recs ->
  is_string (fields cfg) "all" = false ->
  selfields cfg = Some (f :: fs) ->
  f <> "" ->
  transform (Arr (map Obj recs)) cfg
  = Ok (grid_of ((if is_string (method cfg) "new" && line cfg
                  then [map str (f :: fs)] else [])
                 ++ map (selected (f :: fs)) recs)).
Proof.
  intros Hne Hflat Hall Hsel Hf. destruct recs as [| rec recs]; [done |].
  unfold transform, selected_fields. rewrite Hsel.
  apply String.eqb_neq in Hf. rewrite Hf.
  cbn [map prim_null_or_undef typeof_object negb andb isArray elems_of nth length].
  rewrite !andb_false_r. cbn [Nat.ltb Nat.leb].
  unfold transformArrayOfObjects. rewrite Hall. do 2 f_equal.
  assert (Hrows : map (fun obj => select_fields (extractObjectValues obj) (f :: fs))
                    (Obj rec :: map Obj recs)
                  = map (selected (f :: fs)) (rec :: recs)).
  { change (Obj rec :: map Obj recs) with (map Obj (rec :: recs)). rewrite map_map.
    apply map_ext_Forall. eapply Forall_impl; [exact Hflat |].
    intros props Hprops. cbn beta.
    rewrite (extractObjectValues_entries (Obj props)) by exact Hprops.
    apply select_fields_flat. }
  rewrite Hrows. by destruct (is_string (method cfg) "new" && line cfg).
Qed.

Lemma selected_fields_skip_missing_witness :
  transform
    (Arr [Obj [("name", str "John"); ("email", str "john@example.com")];
          Obj [("email", str "jane@example.com")]])
    name_email
  = Ok (Arr [Arr [str "John"; str "john@example.com"]; Arr [str "jane@example.com"]]).
Proof.
  apply (selected_fields_skip_missing
           [[("name", str "John"); ("email", str "john@example.com")];
            [("email", str "jane@example.com")]]
           name_email "name" ["email"]); try done.
  repeat constructor.
Defined.

Lemma map_snd_imap {A B C} (f : nat -> B) (g : A -> C) (l : list A) :
  map snd (imap (fun i c => (f i, g c)) l) = map g l.
Proof.
  revert f. induction l as [| c l IH]; intros f; [reflexivity |].
  cbn [imap map snd]. f_equal. apply (IH (f ∘ S)).
Qed.

(** X11. An array of two or more primitives, with fields "all" and no
    header row, is written one row per element: a string as its
    characters, one to a cell, and any other primitive as an empty row. *)
Theorem primitives_are_spelled_out p1 p2 ps cfg :
  is_string (fields cfg) "all" = true ->
  is_string (method cfg) "new" && line cfg = false ->
  transform (Arr (map Prim (p1 :: p2 :: ps))) cfg
  = Ok (grid_of (map spelled (p1 :: p2 :: ps))).
Proof.
  intros Hall Hhdr. unfold transform.
  cbn [map prim_null_or_undef typeof_object negb andb isArray elems_of nth length
       Nat.eqb Nat.ltb Nat.leb].
  unfold transformArrayOfObjects. rewrite Hall, Hhdr. do 2 f_equal.
  change (Prim p1 :: Prim p2 :: map Prim ps) with (map Prim (p1 :: p2 :: ps)).
  change (spelled p1 :: spelled p2 :: map spelled ps) with (map spelled (p1 :: p2 :: ps)).
  rewrite map_map. apply map_ext. intros p.
  destruct p as [| | b | n | s]; try reflexivity.
  rewrite extractObjectValues_entries.
  - cbn [values entries_of spelled]. apply map_snd_imap.
  - cbn [entries_of]. apply Forall_forall. intros [k v] Hin.
    apply elem_of_lookup_imap in Hin as (i & c & Heq & _). by injection Heq as -> ->.
Qed.

Lemma primitives_are_spelled_out_witness :
  transform (Arr [str "ab"; num 7]) (mkConfig (Some "all") None None false false None)
  = Ok (Arr [Arr [str "a"; str "b"]; Arr []]).
Proof.
  apply (primitives_are_spelled_out (PStr "ab") (PNum 7) []
           (mkConfig (Some "all") None None false false None)); reflexivity.
Defined.

(** X12. A single value survives the round trip, a one-element array does
    not: a string, number or boolean is written as the 1x1 grid of it, and
    so is the array that holds just it; read back with no header, that
    grid gives the bare value in both cases. *)
Theorem single_value_round_trip p cfg cfg' majorDimension :
  prim_null_or_undef (Prim p) = false ->
  line cfg' = false ->
  column cfg' = false ->
  transform (Prim p) cfg = Ok (grid_of [[Prim p]])
  /\ transform (Arr [Prim p]) cfg = Ok (grid_of [[Prim p]])
  /\ transformGetResponse [[Prim p]] cfg' majorDimension = Ok (Prim p).
Proof.
  intros Hp Hl Hc. split; [| split].
  - unfold transform. rewrite Hp. by destruct p.
  - unfold transform. destruct p; try discriminate; reflexivity.
  - unfold transformGetResponse. by rewrite Hl, Hc.
Qed.

Lemma single_value_round_trip_witness :
  transform (num 42) all_new_line = Ok (grid_of [[num 42]])
  /\ transform (Arr [num 42]) all_new_line = Ok (grid_of [[num 42]])
  /\ transformGetResponse [[num 42]] no_headers (str "ROWS") = Ok (num 42).
Proof.
  apply (single_value_round_trip (PNum 42) all_new_line no_headers (str "ROWS"));
    reflexivity.
Defined.

End GridFacts.

(** * Reading grids back *)

Module DecoderFacts.
Import Pure PureSpec PureFacts GridSpec DottedFacts ToObjectsFacts GridFacts.

(** ** Rows against field names *)








(** ** Round trips *)








(** ** The mapping of a single header *)




End DecoderFacts.

(** * Properties of the patterns and of the validators *)

Module TextFacts.
Import Text TextSpec Dotted DottedFacts.

(** ** Matching *)

Lemma test_Nothing s : test Nothing s = false.
Proof. induction s as [| c s IH]; [reflexivity | exact IH]. Qed.

Lemma test_Alt s : forall r1 r2, test (Alt r1 r2) s = test r1 s || test r2 s.
Proof. induction s as [| c s IH]; intros r1 r2; [reflexivity | apply IH]. Qed.

Lemma test_Seq_Nothing s r : test (Seq Nothing r) s = false.
Proof. induction s as [| c s IH]; [reflexivity | exact IH]. Qed.

Lemma test_Seq_Empty s r : test (Seq Empty r) s = test r s.
Proof.
  destruct s as [| c s]; [reflexivity |].
  cbn [test derivative nullable]. by rewrite test_Alt, test_Seq_Nothing.
Qed.

Lemma test_Seq_Class member r c s :
  test (Seq (Class member) r) (String c s) = member c && test r s.
Proof.
  cbn [test derivative nullable].
  destruct (member c); [apply test_Seq_Empty | apply test_Seq_Nothing].
Qed.

Lemma test_Star_Class member s : test (Star (Class member)) s = every member s.
Proof.
  induction s as [| c s IH]; [reflexivity |].
  cbn [test derivative every].
  destruct (member c); [by rewrite test_Seq_Empty | apply test_Seq_Nothing].
Qed.

(** [/^[...]+$/]: not empty, and every code unit in the class. *)
Lemma test_Plus_Class member s :
  test (Plus (Class member)) s = negb (String.eqb s "") && every member s.
Proof.
  destruct s as [| c s]; [reflexivity |]. unfold Plus.
  by rewrite test_Seq_Class, test_Star_Class.
Qed.

(** ** Searching and splitting *)

Lemma includes_unit s c : includes s (String c "") = negb (every (other_than c) s).
Proof.
  induction s as [| x s IH]; [reflexivity |].
  cbn [includes starts_with every]. rewrite IH. unfold other_than.
  rewrite (Ascii.eqb_sym c x). destruct (Ascii.eqb x c), s; reflexivity.
Qed.

Lemma append_cons c (a b : string) : String c a +:+ b = String c (a +:+ b).
Proof. reflexivity. Qed.

Lemma split_on_every sep s : every (other_than sep) s = true -> split_on sep s = [s].
Proof.
  induction s as [| c s IH]; [reflexivity |]. cbn [every split_on]. unfold other_than at 1.
  destruct (Ascii.eqb c sep); [discriminate |]. cbn [negb andb]. intros H.
  by rewrite IH.
Qed.

Lemma split_on_at sep a b :
  every (other_than sep) a = true ->
  split_on sep (a +:+ String sep b) = a :: split_on sep b.
Proof.
  induction a as [| c a IH].
  - intros _. change ("" +:+ String sep b) with (String sep b). cbn [split_on].
    by rewrite Ascii.eqb_refl.
  - rewrite append_cons. cbn [every split_on]. unfold other_than at 1.
    destruct (Ascii.eqb c sep); [discriminate |]. cbn [negb andb]. intros H.
    by rewrite IH.
Qed.

(** The first part of a split and what comes after it. *)
Lemma split_on_inv sep s : forall a rest,
  split_on sep s = a :: rest ->
  every (other_than sep) a = true
  /\ match rest with
     | [] => s = a
     | _ :: _ => exists s', s = a +:+ String sep s' /\ split_on sep s' = rest
     end.
Proof.
  induction s as [| c s IH]; intros a rest.
  - intros [= <- <-]. by split.
  - cbn [split_on]. destruct (Ascii.eqb c sep) eqn:Ec.
    + apply Ascii.eqb_eq in Ec as ->. intros [= <- <-]. split; [reflexivity |].
      pose proof (split_on_not_nil sep s) as Hne.
      destruct (split_on sep s) as [| p ps] eqn:Es; [done |]. by exists s.
    + destruct (split_on sep s) as [| p ps] eqn:Es;
        [by apply split_on_not_nil in Es |].
      intros [= <- <-]. destruct (IH p ps eq_refl) as [Hp Hrest]. split.
      * cbn [every]. unfold other_than at 1. by rewrite Ec, Hp.
      * destruct ps as [| q ps]; [by rewrite Hrest |].
        destruct Hrest as (s' & -> & Hs'). exists s'. by rewrite append_cons.
Qed.

Lemma every_append member a b :
  every member (a +:+ b) = every member a && every member b.
Proof.
  induction a as [| c a IH]; [reflexivity |].
  rewrite append_cons. cbn [every]. by rewrite IH, andb_assoc.
Qed.

Lemma replace_all_not_empty member by_ s : s <> "" -> replace_all member by_ s <> "".
Proof. by destruct s. Qed.

Lemma every_replace_all (member keep : ascii -> bool) by_ s :
  keep by_ = true ->
  (forall c, member c = false -> keep c = true) ->
  every keep (replace_all member by_ s) = true.
Proof.
  intros Hby Hkeep. induction s as [| c s IH]; [reflexivity |].
  cbn [replace_all every]. rewrite IH, andb_true_r.
  destruct (member c) eqn:E; [exact Hby | by apply Hkeep].
Qed.

Lemma replace_all_id member by_ s :
  every (fun c => negb (member c)) s = true -> replace_all member by_ s = s.
Proof.
  induction s as [| c s IH]; [reflexivity |]. cbn [every replace_all].
  destruct (member c); [discriminate |]. cbn [negb andb]. intros H. by rewrite IH.
Qed.

End TextFacts.

Module ValidatorFacts.
Import Pure Text TextSpec TextFacts validators.

Lemma valid_invalid message : valid (invalid message) = false.
Proof. reflexivity. Qed.

(** X17. [validateSpreadsheetId] accepts exactly the strings of 20 to 100
    code units that are all letters, digits, hyphens or underscores; any
    other value is rejected. *)
Theorem validateSpreadsheetId_accepts v :
  valid (validateSpreadsheetId v) = true
  <-> exists s, v = str s
        /\ every id_unit s = true
        /\ (20 <= String.length s <= 100)%nat.
Proof.
  split.
  - unfold validateSpreadsheetId. destruct (negb (truthy v)); [discriminate |].
    destruct v as [[| | b | n | s] | |]; try discriminate.
    unfold idPattern. rewrite test_Plus_Class.
    destruct (negb (String.eqb s "") && every id_unit s) eqn:E; [| discriminate].
    apply andb_true_iff in E as [_ E]. cbn [negb].
    destruct ((String.length s <? 20)%nat || (100 <? String.length s)%nat) eqn:El;
      [discriminate |].
    apply orb_false_iff in El as [El1 El2].
    apply Nat.ltb_ge in El1, El2. intros _. exists s. auto.
  - intros (s & -> & Hs & Hlo & Hhi). unfold validateSpreadsheetId.
    assert (Hne : String.eqb s "" = false) by (destruct s; [simpl in Hlo; lia | reflexivity]).
    cbn [truthy str]. rewrite Hne. cbn [negb]. unfold idPattern.
    rewrite test_Plus_Class, Hne, Hs. cbn [negb andb].
    assert (El : (String.length s <? 20)%nat || (100 <? String.length s)%nat = false).
    { apply orb_false_iff. split; apply Nat.ltb_ge; lia. }
    by rewrite El.
Qed.

Lemma no_bang_ok s :
  s <> "" -> every (other_than "!") s = true -> validateRange (str s) = ok.
Proof.
  intros Hne Hs. unfold validateRange. cbn [truthy str].
  apply String.eqb_neq in Hne. rewrite Hne. cbn [negb].
  by rewrite includes_unit, Hs.
Qed.

(** X18. What [validateRange] accepts.  A range is accepted exactly when it
    is a string that is not empty and either has no exclamation mark at all
    (nothing else is looked at then), or has exactly one, with a sheet name
    before it that is not blank and after it a cell range that is blank or
    matches the A1 pattern. *)
Theorem validateRange_accepts v :
  valid (validateRange v) = true
  <-> exists s, v = str s /\ s <> ""
        /\ (every (other_than "!") s = true
            \/ exists sheetName cellRange,
                 s = sheetName +:+ "!" +:+ cellRange
                 /\ every (other_than "!") sheetName = true
                 /\ every (other_than "!") cellRange = true
                 /\ trim sheetName <> ""
                 /\ (trim cellRange = "" \/ test cellPattern cellRange = true)).
Proof.
  split.
  - unfold validateRange. destruct (negb (truthy v)) eqn:Et; [discriminate |].
    destruct v as [[| | b | n | s] | |]; try discriminate.
    cbn [truthy str] in Et. apply negb_false_iff, negb_true_iff, String.eqb_neq in Et.
    rewrite includes_unit.
    destruct (every (other_than "!") s) eqn:Es; cbn [negb].
    { intros _. exists s. auto. }
    destruct (Dotted.split_on "!" s) as [| sheetName [| cellRange [| x parts]]] eqn:Esplit;
      try discriminate.
    destruct (String.eqb sheetName "" || String.eqb (trim sheetName) "") eqn:Esheet;
      [discriminate |].
    destruct (negb (String.eqb cellRange "") && negb (String.eqb (trim cellRange) "")
              && negb (test cellPattern cellRange)) eqn:Ecell; [discriminate |].
    intros _. exists s. split; [reflexivity |]. split; [exact Et |]. right.
    destruct (split_on_inv _ _ _ _ Esplit) as [Hsheet (s' & -> & Hs')].
    destruct (split_on_inv _ _ _ _ Hs') as [Hcell <-].
    exists sheetName, s'. split; [reflexivity |]. split; [exact Hsheet |].
    split; [exact Hcell |].
    apply orb_false_iff in Esheet as [_ Esheet]. apply String.eqb_neq in Esheet.
    split; [exact Esheet |].
    destruct (String.eqb (trim s') "") eqn:Etrim; [left; by apply String.eqb_eq |].
    right. destruct (String.eqb s' "") eqn:Eempty.
    + apply String.eqb_eq in Eempty. subst s'. discriminate.
    + cbn [negb andb] in Ecell. by apply negb_false_iff in Ecell.
  - intros (s & -> & Hne & [Hs | (sheetName & cellRange & -> & Hsheet & Hcell & Htrim & Hpat)]).
    + by rewrite no_bang_ok.
    + unfold validateRange. cbn [truthy str].
      apply String.eqb_neq in Hne. rewrite Hne. cbn [negb].
      rewrite includes_unit, every_append. cbn [every]. rewrite andb_false_r. cbn [negb].
      change (sheetName +:+ "!" +:+ cellRange) with (sheetName +:+ String "!" cellRange).
      rewrite split_on_at by exact Hsheet. rewrite split_on_every by exact Hcell.
      assert (Hname : String.eqb sheetName "" || String.eqb (trim sheetName) "" = false).
      { apply orb_false_iff. split; apply String.eqb_neq; [| exact Htrim].
        intros ->. by apply Htrim. }
      rewrite Hname. destruct Hpat as [Hblank | Htest].
      * rewrite Hblank. cbn [String.eqb negb]. by rewrite andb_false_r.
      * rewrite Htest. cbn [negb]. by rewrite andb_false_r.
Qed.

End ValidatorFacts.

(** * Properties of the node: cache keys, cached reads, messages *)

Module NodeFacts.
Import Pure Dotted DottedFacts Text TextSpec TextFacts validators Node NodeSpec.

(** ** The cache key of a range *)

Lemma accepted_range_not_empty range :
  valid (validateRange (str range)) = true -> range <> "".
Proof. intros H ->. discriminate. Qed.

Lemma key_unit_bang c : key_unit c = false -> other_than "!" c = true.
Proof.
  unfold key_unit, other_than. destruct (Ascii.eqb c "!"); [discriminate | reflexivity].
Qed.

Lemma saveField_no_bang range : every (other_than "!") (saveField range) = true.
Proof. apply every_replace_all; [reflexivity | apply key_unit_bang]. Qed.

Lemma saveField_again range : saveField (saveField range) = saveField range.
Proof.
  apply replace_all_id. apply every_replace_all; [reflexivity |].
  by intros c ->.
Qed.

(** X19. The cache key of a range the validator accepts is never empty, so
    with a storage that is there neither [get] nor [has] throws for it. *)
Theorem accepted_range_cache_key storage range e :
  valid (validateRange (str range)) = true ->
  truthy storage = true ->
  CacheService.get storage (str (saveField range)) <> Raise e
  /\ CacheService.has storage (str (saveField range)) <> Raise e.
Proof.
  intros Hvalid Hstorage. apply accepted_range_not_empty in Hvalid.
  assert (Hkey : String.eqb (saveField range) "" = false).
  { apply String.eqb_neq. by apply replace_all_not_empty. }
  assert (Hget : CacheService.get storage (str (saveField range)) <> Raise e).
  { unfold CacheService.get. rewrite Hstorage. cbn [negb truthy str]. rewrite Hkey.
    cbn [negb split_path and_then]. apply get_loop_never_throws. }
  split; [exact Hget |]. unfold CacheService.has.
  destruct (CacheService.get storage (str (saveField range))); simpl; congruence.
Qed.

Lemma accepted_range_cache_key_witness :
  CacheService.get (Obj []) (str (saveField "Sheet1!A1:B2")) <> Raise TypeErr
  /\ CacheService.has (Obj []) (str (saveField "Sheet1!A1:B2")) <> Raise TypeErr.
Proof.
  apply (accepted_range_cache_key (Obj []) "Sheet1!A1:B2" TypeErr); reflexivity.
Defined.

(** X20. Cache keys are shared.  Every accepted range with an exclamation
    mark has the cache key of another accepted range: the key itself, read
    as a range, is a different range, is accepted, and has the same key. *)
Theorem cache_key_is_shared range :
  valid (validateRange (str range)) = true ->
  includes range "!" = true ->
  saveField range <> range
  /\ valid (validateRange (str (saveField range))) = true
  /\ saveField (saveField range) = saveField range.
Proof.
  intros Hvalid Hbang. apply accepted_range_not_empty in Hvalid. split; [| split].
  - intros Heq. rewrite includes_unit, <- Heq, saveField_no_bang in Hbang. discriminate.
  - rewrite ValidatorFacts.no_bang_ok; [reflexivity | | apply saveField_no_bang].
    by apply replace_all_not_empty.
  - apply saveField_again.
Qed.

Lemma cache_key_is_shared_witness :
  saveField "Sheet 1!A1:B2" <> "Sheet 1!A1:B2"
  /\ valid (validateRange (str (saveField "Sheet 1!A1:B2"))) = true
  /\ saveField (saveField "Sheet 1!A1:B2") = saveField "Sheet 1!A1:B2".
Proof. apply (cache_key_is_shared "Sheet 1!A1:B2"); reflexivity. Defined.

(** X21. The action "cell" never gets past the validation of [input]: the
    parameters it hands to [validateRequiredFields] carry neither label, so
    both label errors are reported whatever the spreadsheet, the range and
    the data are. *)
Theorem cell_action_never_valid spreadsheetId range inputData :
  all_valid (validateRequiredFields
               (required_params (str "cell") spreadsheetId range inputData)) = false
  /\ "Line/row label is required for cell operation"
       ∈ errors (validateRequiredFields
                   (required_params (str "cell") spreadsheetId range inputData))
  /\ "Column label is required for cell operation"
       ∈ errors (validateRequiredFields
                   (required_params (str "cell") spreadsheetId range inputData)).
Proof.
  unfold validateRequiredFields, required_params.
  cbn [validators.action validators.spreadsheetId validators.range validators.data
       validators.cell_l validators.cell_c is_str str String.eqb Ascii.eqb Bool.eqb
       truthy undef negb].
  destruct (truthy spreadsheetId), (truthy range); cbn [negb app length Nat.eqb errors all_valid];
    repeat split; try reflexivity; rewrite !elem_of_cons; auto 10.
Qed.

(** ** Reads through the cache *)

Lemma as_rows_grid_of g : as_rows (grid_of g) = Some g.
Proof.
  unfold as_rows, grid_of. induction g as [| row g IH]; [reflexivity |].
  cbn [map mapM]. rewrite IH. reflexivity.
Qed.

Lemma top_level_key_spec k :
  top_level_key k = true ->
  String.eqb k "" = false /\ split_on "." k = [k] /\ inherited k = false.
Proof.
  unfold top_level_key. rewrite !andb_true_iff, !negb_true_iff, bool_decide_eq_true.
  by intros [[? ?] ?].
Qed.

Lemma inherited_proto k : inherited k = false -> String.eqb k "__proto__" = false.
Proof.
  intros H. destruct (String.eqb k "__proto__") eqn:E; [| reflexivity].
  apply String.eqb_eq in E. subst k. discriminate.
Qed.

(** A read that finds nothing in the cache asks the API, caches the grid
    and decodes it with the major dimension of the answer. *)
Lemma queryGet_miss cfg props k g :
  top_level_key k = true ->
  not_cached props k ->
  queryGet cfg (Obj props) k (sheet_with g)
  = let! transformedData :=
      lift (transformGetResponse g cfg
              (str (if is_string (direction cfg) "column" then "COLUMNS" else "ROWS"))) in
    Value (Obj (obj_set props k (grid_of g)), transformedData).
Proof.
  intros Hk Hmiss. apply top_level_key_spec in Hk as (Hne & Hsplit & Hinh).
  unfold queryGet, CacheService.has, CacheService.get, CacheService.set.
  cbn [truthy str negb]. rewrite Hne. cbn [negb].
  change (split_path (str k)) with (Value (split_on "." k)). rewrite Hsplit.
  cbn [and_then].
  cbn [get_loop prim_null_or_undef read]. rewrite Hmiss, Hinh.
  cbn [and_then get_loop is_undefined undef negb andb sheet_with response_values
       response_majorDimension].
  unfold before_last, lastKey. cbn [removelast List.last walk].
  unfold set_or_delete, grid_of, copyValuesArray. rewrite map_id.
  cbn [is_undefined assign]. rewrite (inherited_proto _ Hinh). reflexivity.
Qed.

(** A read that finds the grid in the cache decodes it with [false] for
    the major dimension, and asks nothing of the API. *)
Lemma queryGet_hit cfg props k g getValues :
  top_level_key k = true ->
  g <> [] ->
  queryGet cfg (Obj (obj_set props k (grid_of g))) k getValues
  = let! transformedData := lift (transformGetResponse g cfg (Prim (PBool false))) in
    Value (Obj (obj_set props k (grid_of g)), transformedData).
Proof.
  intros Hk Hg. apply top_level_key_spec in Hk as (Hne & Hsplit & Hinh).
  unfold queryGet, CacheService.has, CacheService.get.
  cbn [truthy str negb]. rewrite Hne. cbn [negb].
  change (split_path (str k)) with (Value (split_on "." k)). rewrite Hsplit.
  cbn [and_then].
  cbn [get_loop prim_null_or_undef read].
  rewrite prop_lookup_obj_set, String.eqb_refl.
  cbn [and_then get_loop]. rewrite as_rows_grid_of.
  destruct g as [| row g]; [done |]. reflexivity.
Qed.

(** Where the major dimension plays no part in the decoding. *)
Lemma transformGetResponse_dimension g cfg :
  column cfg = true \/ line cfg = false
  \/ is_string (direction cfg) "line" = true \/ is_string (direction cfg) "column" = true ->
  transformGetResponse g cfg
    (str (if is_string (direction cfg) "column" then "COLUMNS" else "ROWS"))
  = transformGetResponse g cfg (Prim (PBool false)).
Proof.
  intros H. unfold transformGetResponse.
  destruct (line cfg), (column cfg); cbn [negb andb orb]; try reflexivity.
  - destruct H as [H | [H | [H | H]]]; try discriminate; rewrite H.
    + by rewrite !orb_true_r.
    + reflexivity.
  - destruct (is_string (direction cfg) "column"); reflexivity.
Qed.

(** X22. A cached read repeats the first read.  When both headers or none
    are set, or only the column header, or the direction is "line" or
    "column", a read that filled the cache is repeated by every later read
    of the same key: same output, cache unchanged, whatever the API would
    answer now. *)
Theorem cached_read_repeats cfg props k g getValues saveLoc payload :
  top_level_key k = true ->
  not_cached props k ->
  g <> [] ->
  column cfg = true \/ line cfg = false
  \/ is_string (direction cfg) "line" = true \/ is_string (direction cfg) "column" = true ->
  queryGet cfg (Obj props) k (sheet_with g) = Value (saveLoc, payload) ->
  queryGet cfg saveLoc k getValues = Value (saveLoc, payload).
Proof.
  intros Hk Hmiss Hg Hcfg. rewrite queryGet_miss by assumption.
  rewrite transformGetResponse_dimension by exact Hcfg.
  intros H. apply and_then_Value in H as (data & Hdata & [= <- <-]).
  rewrite queryGet_hit by assumption. by rewrite Hdata.
Qed.

Lemma cached_read_repeats_witness :
  queryGet GridSpec.all_new_both
    (Obj [("Sheet1_A1_B2", grid_of [[str "Elements"; str "a"]; [str "r"; num 1]])])
    "Sheet1_A1_B2" (sheet_with [])
  = Value (Obj [("Sheet1_A1_B2", grid_of [[str "Elements"; str "a"]; [str "r"; num 1]])],
           Obj [("r", Obj [("a", num 1)])]).
Proof.
  apply (cached_read_repeats GridSpec.all_new_both [] "Sheet1_A1_B2"
           [[str "Elements"; str "a"]; [str "r"; num 1]]); try reflexivity.
  - discriminate.
  - by left.
Defined.

(** X23. A cached read can change the shape of the output.  With the line
    header only and a direction that is neither "line" nor "column", the
    read that fills the cache decodes with the major dimension "ROWS" of
    the answer and gives the mapping from first cells to rows; every later
    read of the same key decodes the cached grid with [false] for the major
    dimension and gives the array of records, a value of another kind. *)
Theorem cached_read_changes_shape cfg props k g getValues :
  top_level_key k = true ->
  not_cached props k ->
  g <> [] ->
  line cfg = true ->
  column cfg = false ->
  is_string (direction cfg) "line" = false ->
  is_string (direction cfg) "column" = false ->
  exists saveLoc,
    queryGet cfg (Obj props) k (sheet_with g)
    = Value (saveLoc, _transformWithSingleHeader g)
    /\ queryGet cfg saveLoc k getValues = Value (saveLoc, _transformToObjectArray g)
    /\ _transformWithSingleHeader g <> _transformToObjectArray g.
Proof.
  intros Hk Hmiss Hg Hl Hc Hline Hcol.
  exists (Obj (obj_set props k (grid_of g))). split; [| split].
  - rewrite queryGet_miss by assumption. unfold transformGetResponse, copyValuesArray.
    rewrite Hl, Hc, Hline, Hcol, map_id. reflexivity.
  - rewrite queryGet_hit by assumption. unfold transformGetResponse, copyValuesArray.
    rewrite Hl, Hc, Hline, Hcol, map_id. reflexivity.
  - unfold _transformWithSingleHeader, _transformToObjectArray. by destruct g.
Qed.

Lemma cached_read_changes_shape_witness :
  exists saveLoc,
    queryGet PureSpec.line_only (Obj []) "Sheet1" (sheet_with PureSpec.john_jane_grid)
    = Value (saveLoc, _transformWithSingleHeader PureSpec.john_jane_grid)
    /\ queryGet PureSpec.line_only saveLoc "Sheet1" (sheet_with [])
       = Value (saveLoc, _transformToObjectArray PureSpec.john_jane_grid)
    /\ _transformWithSingleHeader PureSpec.john_jane_grid
       <> _transformToObjectArray PureSpec.john_jane_grid.
Proof.
  apply (cached_read_changes_shape PureSpec.line_only [] "Sheet1"
           PureSpec.john_jane_grid (sheet_with [])); try reflexivity.
  discriminate.
Defined.

End NodeFacts.

(** * Properties of the error messages *)

Module ErrorFacts.
Import Text TextSpec ErrorHandler Node.

(** The text [input] puts in front of a message holds none of the texts
    looked for, and none of them begins in it. *)
Lemma includes_wrapped m pattern :
  pattern ∈ known_patterns ->
  includes ("Spreadsheet operation failed: " +:+ m) pattern = includes m pattern.
Proof.
  unfold known_patterns. rewrite !elem_of_cons, elem_of_nil.
  intros [-> | [-> | [-> | [-> | [-> | [-> | [-> | [-> | [-> | []]]]]]]]]]; reflexivity.
Qed.

(** X24. Wrapping keeps the friendly message.  [input] throws a failed
    operation again as "Spreadsheet operation failed: " followed by its
    message; the friendly message of the wrapped error is the friendly
    message of the error itself whenever that holds one of the texts looked
    for, and otherwise it is "Operation failed: " followed by the wrapped
    message. *)
Theorem friendly_message_of_wrapped_error m s :
  m <> "" ->
  getUserFriendlyMessage (operation_failed (mkThrown (Some m) s))
  = if recognised m then getUserFriendlyMessage (mkThrown (Some m) s)
    else "Operation failed: Spreadsheet operation failed: " +:+ m.
Proof.
  intros Hm. apply String.eqb_neq in Hm.
  unfold getUserFriendlyMessage, operation_failed, message_of, recognised, known_patterns.
  cbn [message as_string default existsb]. unfold id. rewrite Hm.
  change (String.eqb ("Spreadsheet operation failed: " +:+ m) "") with false.
  cbv iota.
  rewrite !includes_wrapped by (unfold known_patterns; rewrite !elem_of_cons; auto 12).
  destruct (includes m "invalid_grant"); [reflexivity |].
  destruct (includes m "403"); [reflexivity |].
  destruct (includes m "PERMISSION_DENIED"); [reflexivity |].
  destruct (includes m "404"); [reflexivity |].
  destruct (includes m "NOT_FOUND"); [reflexivity |].
  destruct (includes m "429"); [reflexivity |].
  destruct (includes m "RATE_LIMIT"); [reflexivity |].
  destruct (includes m "Invalid spreadsheet ID"); [reflexivity |].
  destruct (includes m "Invalid range"); reflexivity.
Qed.

Lemma friendly_message_of_wrapped_error_witness :
  getUserFriendlyMessage
    (operation_failed (mkThrown (Some "The caller does not have permission") "Error"))
  = "Operation failed: Spreadsheet operation failed: The caller does not have permission".
Proof.
  apply (friendly_message_of_wrapped_error "The caller does not have permission" "Error").
  discriminate.
Defined.

End ErrorFacts.

(** * The point lookup against the decoded mapping *)

Module LookupFacts.
Import Pure PureSpec PureFacts GridSpec DottedFacts ToObjectsFacts GridFacts DecoderFacts.








End LookupFacts.
